(** * gmat-docs-mcp-server: the retrieval core

    A shallow embedding of the chunk splitter and the embedding batcher
    (src/utils/embedder.ts), the cache store (src/utils/cache.ts) and the
    search engine (src/utils/search.ts), and of the code around them:
    the parser's texts and ids (src/utils/parser.ts), the scraper
    (src/utils/scraper.ts), the search tool (src/tools/gmatDocs.ts), the
    server (src/index.ts) and the setup command (src/setup.ts);
    followed by the properties of these components.

    Conventions of the embedding.
    - A JavaScript [number] is a binary64 float: Rocq's primitive [float],
      whose operations are the IEEE 754 ones the language prescribes.
      Lengths, indices and token counts, which the code only ever uses as
      non-negative integers, are [nat]; [topK] is an integer, [Z].
    - A JavaScript string is the list of its code units, [list ascii]
      (code units 0..255).  Literals are written with [lit].
    - A value whose static type is only asserted ([JSON.parse(..) as T]) is
      a [value], the dynamically typed tree the runtime really holds.
    - [throw] is the [Throw] completion; methods of a class take the
      receiver and return the completion together with the receiver.
    - Paths are POSIX paths, and [path.join] normalises them as Node
      does.  A file system gives the content of the regular file that a
      path denotes; a path is resolved against the working directory of
      the process, and paths that lead to the same place denote the
      same file (links are not described, and the directories a path
      names on its way are taken to exist). *)

From Stdlib Require Import String Ascii.
From Stdlib Require Import ZArith Lia Bool List Floats.
From Stdlib Require Import Sorting.Permutation Sorting.Sorted.
From Stdlib Require Uint63 DecimalString.
From Stdlib Require DecimalNat.

Import ListNotations.

(** ** JavaScript strings, exceptions and dynamically typed values *)

Module Js.

Definition jsstring : Type := list ascii.

Definition lit (s : string) : jsstring := list_ascii_of_string s.

(** Decimal rendering of a non-negative integer, as a template literal
    renders it. *)
Definition decimal (n : nat) : jsstring :=
  lit (DecimalString.NilEmpty.string_of_uint (Nat.to_uint n)).

(** WhiteSpace and LineTerminator code units below 256: the characters
    [String.prototype.trim] removes and the regular expression class [\s]
    matches. *)
Definition is_ws (c : ascii) : bool :=
  match N_of_ascii c with
  | 9%N | 10%N | 11%N | 12%N | 13%N | 32%N | 160%N => true
  | _ => false
  end.

Definition newline : ascii := ascii_of_N 10.

Definition is_newline (c : ascii) : bool := N.eqb (N_of_ascii c) 10.

Fixpoint trimStart (s : jsstring) : jsstring :=
  match s with
  | c :: s' => if is_ws c then trimStart s' else s
  | [] => []
  end.

Definition trimEnd (s : jsstring) : jsstring := rev (trimStart (rev s)).

Definition trim (s : jsstring) : jsstring := trimEnd (trimStart s).

(** The exceptions the code throws or provokes.  [Error] carries the
    message the source gives it. *)
Inductive exn : Type :=
| Error (message : string)
| TypeError
| SyntaxError.

(** Completion of a call.  [Unmodelled] marks the runs that depend on an
    implicit conversion of a non-number to a number, which this embedding
    does not describe. *)
Inductive completion (A : Type) : Type :=
| Normal (a : A)
| Throw (e : exn)
| Unmodelled.

Arguments Normal {A} a.
Arguments Throw {A} e.
Arguments Unmodelled {A}.

Definition bind {A B : Type} (c : completion A) (k : A -> completion B) : completion B :=
  match c with
  | Normal a => k a
  | Throw e => Throw e
  | Unmodelled => Unmodelled
  end.

(** A value as the runtime holds it. *)
#[warnings="-register-all"]
Inductive value : Type :=
| Undefined
| Null
| Bool (b : bool)
| Number (x : float)
| Str (s : jsstring)
| Arr (items : list value)
| Obj (fields : list (string * value)).

Fixpoint lookup (key : string) (fields : list (string * value)) : value :=
  match fields with
  | (k, v) :: rest => if String.eqb k key then v else lookup key rest
  | [] => Undefined
  end.

(** [v.key] for a property name [key] that is neither [length] nor an
    array index: only an object can own it, and reading it off [null] or
    [undefined] is a TypeError. *)
Definition get (v : value) (key : string) : completion value :=
  match v with
  | Undefined | Null => Throw TypeError
  | Obj fields => Normal (lookup key fields)
  | _ => Normal Undefined
  end.

(** ToBoolean. *)
Definition truthy (v : value) : bool :=
  match v with
  | Undefined | Null => false
  | Bool b => b
  | Number x => negb (PrimFloat.is_zero x || PrimFloat.is_nan x)
  | Str s => negb (Nat.eqb (length s) 0)
  | Arr _ | Obj _ => true
  end.

Definition isArray (v : value) : bool :=
  match v with
  | Arr _ => true
  | _ => false
  end.

(** Whether the conversion of a value to a string completes, for a value
    made by [JSON.parse]; it throws a TypeError when it does not.  An
    object is converted by the [toString] it inherits, unless a property
    of that name hides it: the property is no function, and [valueOf],
    tried next, is hidden as well or returns the object.  An array is
    converted by [join], which converts its elements; the other values
    are primitive. *)
Fixpoint convertible (v : value) : bool :=
  match v with
  | Obj fields => negb (existsb (fun field => String.eqb (fst field) "toString") fields)
  | Arr items => forallb convertible items
  | Undefined | Null | Bool _ | Number _ | Str _ => true
  end.

(** The number a length or a count is, as a binary64 float. *)
Definition number_of_nat (n : nat) : float :=
  PrimFloat.of_uint63 (Uint63.of_Z (Z.of_nat n)).

(** The items a [for .. of] loop visits: the elements of an array, the
    characters of a string; nothing else met here is iterable. *)
Definition iterate (v : value) : completion (list value) :=
  match v with
  | Arr items => Normal items
  | Str s => Normal (map (fun c => Str [c]) s)
  | _ => Throw TypeError
  end.

(** The elements of an array all of whose elements are numbers. *)
Fixpoint numbers (items : list value) : option (list float) :=
  match items with
  | [] => Some []
  | Number x :: rest => option_map (cons x) (numbers rest)
  | _ :: _ => None
  end.

(** [Array.prototype.sort(comparefn)]: a stable sort, [a] being placed
    after [b] exactly when [comparefn(a, b) > 0] (a NaN result counts as
    0).  Modelled as the stable insertion sort. *)
Fixpoint sort_insert {A : Type} (comparefn : A -> A -> float) (a : A) (sorted : list A) : list A :=
  match sorted with
  | [] => [a]
  | b :: rest =>
      if (0 <? comparefn a b)%float then b :: sort_insert comparefn a rest
      else a :: b :: rest
  end.

Fixpoint sort {A : Type} (comparefn : A -> A -> float) (l : list A) : list A :=
  match l with
  | [] => []
  | a :: rest => sort_insert comparefn a (sort comparefn rest)
  end.

(** [Array.prototype.slice(0, end)] for an integer [end]: a negative
    [end] counts from the end of the array. *)
Definition slice0 {A : Type} (l : list A) (e : Z) : list A :=
  let len := Z.of_nat (length l) in
  let k := if (e <? 0)%Z then Z.max (len + e) 0 else Z.min e len in
  firstn (Z.to_nat k) l.

(** What a file holds: the JSON document its text encodes, or text that
    is not JSON.  The text itself is not modelled: [JSON.stringify]
    followed by [JSON.parse] is the normalisation [jsonify]. *)
Inductive content : Type :=
| Json (document : value)
| Garbage.

(** *** Paths

    Paths are those of POSIX: names separated by slashes. *)

Definition is_slash (c : ascii) : bool := Ascii.eqb c "/".

(** The names of a path: what stands between its slashes. *)
Fixpoint names (path : list ascii) : list (list ascii) :=
  match path with
  | [] => [[]]
  | c :: rest =>
      if is_slash c then [] :: names rest
      else match names rest with
           | name :: others => (c :: name) :: others
           | [] => [[c]]
           end
  end.

Definition is_name (s : string) (name : list ascii) : bool :=
  if list_eq_dec ascii_dec name (lit s) then true else false.

(** One name of a path, in the normalisation of [path.normalize] and
    of [path.resolve]: an empty name and [.] are passed over; [..]
    takes away the name before it, and where there is none, or [..]
    itself, it is kept in a relative path and dropped in an absolute
    one; any other name is added. *)
Definition climb (allowAboveRoot : bool) (res : list (list ascii)) (name : list ascii)
  : list (list ascii) :=
  if is_name "" name || is_name "." name then res
  else if is_name ".." name then
    match rev res with
    | before :: _ =>
        if is_name ".." before then (if allowAboveRoot then res ++ [name] else res)
        else removelast res
    | [] => if allowAboveRoot then res ++ [name] else res
    end
  else res ++ [name].

Fixpoint intercalate (sep : list ascii) (l : list (list ascii)) : list ascii :=
  match l with
  | [] => []
  | [a] => a
  | a :: rest => a ++ sep ++ intercalate sep rest
  end.

Definition isAbsolute (path : list ascii) : bool :=
  match path with
  | c :: _ => is_slash c
  | [] => false
  end.

Definition trailingSeparator (path : list ascii) : bool :=
  match rev path with
  | c :: _ => is_slash c
  | [] => false
  end.

(** [path.normalize(path)]. *)
Definition normalize (path : list ascii) : list ascii :=
  match path with
  | [] => lit "."
  | _ :: _ =>
      match fold_left (climb (negb (isAbsolute path))) (names path) [] with
      | [] =>
          if isAbsolute path then lit "/"
          else if trailingSeparator path then lit "./" else lit "."
      | name :: others =>
          (if isAbsolute path then lit "/" else [])
          ++ intercalate (lit "/") (name :: others)
          ++ (if trailingSeparator path then lit "/" else [])
      end
  end.

(** [path.join(dir, file)]: the arguments that are not empty, with a
    slash between them, normalised. *)
Definition path_join (dir file : string) : string :=
  string_of_list_ascii
    match list_ascii_of_string dir, list_ascii_of_string file with
    | [], [] => lit "."
    | [], f => normalize f
    | d, [] => normalize d
    | d, f => normalize (d ++ lit "/" ++ f)
    end.

(** The place a path denotes for a process whose working directory is
    [cwd]: the names that lead to it from the root, the path being
    resolved name by name as [path.resolve] does.  The directories that
    the path names on its way are taken to exist. *)
Definition location (cwd path : string) : list (list ascii) :=
  let p := list_ascii_of_string path in
  fold_left (climb false)
    (names (if isAbsolute p then p else list_ascii_of_string cwd ++ lit "/" ++ p)) [].

(** Whether a path can denote a regular file: it ends with a name.  The
    empty path denotes nothing, and a path that ends with a slash, with
    [.] or with [..] denotes a directory or nothing. *)
Definition names_file (path : string) : bool :=
  match rev (names (list_ascii_of_string path)) with
  | name :: _ => negb (is_name "" name || is_name "." name || is_name ".." name)
  | [] => false
  end.

(** Two paths that denote the same regular file. *)
Definition same_file (cwd p q : string) : bool :=
  names_file p && names_file q
  && if list_eq_dec (list_eq_dec ascii_dec) (location cwd p) (location cwd q) then true else false.

(** *** Files *)

(** The file system as the process sees it: the content of the regular
    file that a path denotes, when there is one.  Two paths denote the
    same file when they end with a name and lead to the same place;
    links are not described.  The operations are taken not to fail, and
    are given the path of a file; [cwd] is the working directory of the
    process. *)
Definition FileSystem : Type := string -> option content.

Definition writeFileSync (cwd path : string) (data : content) (fs : FileSystem) : FileSystem :=
  fun p => if same_file cwd p path then Some data else fs p.

Definition renameSync (cwd oldPath newPath : string) (fs : FileSystem) : FileSystem :=
  fun p => if same_file cwd p newPath then fs oldPath
           else if same_file cwd p oldPath then None
           else fs p.

Definition unlinkSync (cwd path : string) (fs : FileSystem) : FileSystem :=
  fun p => if same_file cwd p path then None else fs p.

(** [JSON.parse(fs.readFileSync(path, 'utf8'))] on an existing file. *)
Definition parse (c : content) : completion value :=
  match c with
  | Json document => Normal document
  | Garbage => Throw SyntaxError
  end.

(** What [JSON.stringify] keeps of a number: a finite number is written
    (negative zero as [0]), NaN and the infinities become [null]. *)
Definition jsonify_number (x : float) : value :=
  if PrimFloat.is_finite x then
    (if PrimFloat.is_zero x then Number 0%float else Number x)
  else Null.

(** The document [JSON.stringify] writes for a value other than
    [undefined]: an [undefined] element becomes [null], an [undefined]
    property is left out. *)
Fixpoint jsonify (v : value) : value :=
  match v with
  | Undefined => Undefined
  | Null => Null
  | Bool b => Bool b
  | Number x => jsonify_number x
  | Str s => Str s
  | Arr items =>
      Arr (map (fun i => match i with
                         | Undefined => Null
                         | _ => jsonify i
                         end) items)
  | Obj fields =>
      Obj (flat_map (fun kv => match kv with
                               | (_, Undefined) => []
                               | (k, w) => [(k, jsonify w)]
                               end) fields)
  end.

Definition stringify (v : value) : content := Json (jsonify v).

(** *** Methods of strings, numbers and arrays *)

(** [a === b] on strings. *)
Definition same (a b : jsstring) : bool :=
  if list_eq_dec ascii_dec a b then true else false.

(** [array.includes(x)] on an array of strings. *)
Definition includes (array : list jsstring) (x : jsstring) : bool :=
  existsb (same x) array.

(** The class [\w] of a regular expression without flags. *)
Definition is_word (c : ascii) : bool :=
  let n := N_of_ascii c in
  (((48 <=? n) && (n <=? 57)) || ((65 <=? n) && (n <=? 90)) || (n =? 95)
   || ((97 <=? n) && (n <=? 122)))%N.

Definition is_hyphen (c : ascii) : bool := N.eqb (N_of_ascii c) 45.

(** [String.prototype.toLowerCase] on a code unit below 256: the letters
    [A] to [Z] and the capital letters of Latin-1 (U+00C0 to U+00DE
    without the multiplication sign U+00D7) have their small letter 32
    places further. *)
Definition lower (c : ascii) : ascii :=
  let n := N_of_ascii c in
  if (((65 <=? n) && (n <=? 90)) || ((192 <=? n) && (n <=? 222) && negb (n =? 215)))%N
  then ascii_of_N (n + 32)
  else c.

Definition toLowerCase (s : jsstring) : jsstring := map lower s.

Fixpoint startsWith (s searchString : jsstring) : bool :=
  match searchString, s with
  | [], _ => true
  | p :: searchString', c :: s' => Ascii.eqb p c && startsWith s' searchString'
  | _ :: _, [] => false
  end.

(** [s.replace(pattern, replacement)] for a pattern that is a string and
    a replacement without [$]: the first occurrence of the pattern is
    replaced. *)
Fixpoint replace (s pattern replacement : jsstring) {struct s} : jsstring :=
  if startsWith s pattern then replacement ++ skipn (length pattern) s
  else match s with
       | [] => []
       | c :: s' => c :: replace s' pattern replacement
       end.

(** [s.replace(/\s+/g, replacement)]: every maximal run of whitespace
    becomes one [replacement]; [inRun] tells that the character before
    was whitespace. *)
Fixpoint replaceSpaces (replacement : jsstring) (inRun : bool) (s : jsstring) : jsstring :=
  match s with
  | [] => []
  | c :: s' =>
      if is_ws c then
        (if inRun then [] else replacement) ++ replaceSpaces replacement true s'
      else c :: replaceSpaces replacement false s'
  end.

(** [s.replace(/[^\w\s-]/g, '')]. *)
Definition removeSymbols (s : jsstring) : jsstring :=
  filter (fun c => is_word c || is_ws c || is_hyphen c) s.

(** A match of [/\n\s*\n\s*\n/] under way: the text matched since its
    first line feed, the number of line feeds met after the first, and
    the whitespace met since the last line feed. *)
Record BlankLines : Type := {
  matched : jsstring;
  lineFeeds : nat;
  trailing : jsstring
}.

(** What a run of whitespace that began with a line feed is replaced
    with: the match is greedy and ends with the last line feed of the
    run, and there is one only when the run has two more line feeds. *)
Definition closeBlankLines (run : BlankLines) : jsstring :=
  if 2 <=? lineFeeds run then [newline; newline] ++ trailing run else matched run.

(** [s.replace(/\n\s*\n\s*\n/g, '\n\n')]. *)
Fixpoint collapseBlankLines (run : option BlankLines) (s : jsstring) : jsstring :=
  match s with
  | [] =>
      match run with
      | Some r => closeBlankLines r
      | None => []
      end
  | c :: s' =>
      match run with
      | Some r =>
          if is_newline c then
            collapseBlankLines
              (Some {| matched := matched r ++ [c];
                       lineFeeds := S (lineFeeds r);
                       trailing := [] |}) s'
          else if is_ws c then
            collapseBlankLines
              (Some {| matched := matched r ++ [c];
                       lineFeeds := lineFeeds r;
                       trailing := trailing r ++ [c] |}) s'
          else closeBlankLines r ++ c :: collapseBlankLines None s'
      | None =>
          if is_newline c then
            collapseBlankLines (Some {| matched := [c]; lineFeeds := 0; trailing := [] |}) s'
          else c :: collapseBlankLines None s'
      end
  end.

(** The decimal digits of a non-negative integer. *)
Definition digits (n : Z) : jsstring :=
  lit (DecimalString.NilEmpty.string_of_uint (N.to_uint (Z.to_N n))).

(** The text [toFixed] makes of the integer [n] it has chosen, with
    [fractionDigits] digits after the point. *)
Definition fixed (n : Z) (fractionDigits : nat) : jsstring :=
  match fractionDigits with
  | 0 => digits n
  | S _ =>
      let m := digits n in
      let m := repeat "0"%char (S fractionDigits - length m) ++ m in
      firstn (length m - fractionDigits) m ++ "."%char :: skipn (length m - fractionDigits) m
  end.

(** [x.toFixed(fractionDigits)], for at most 100 digits.  A number that
    is not finite is rendered by name.  Of a finite number, of magnitude
    [m * 2 ^ e], the integer nearest to its product by the power of ten
    is written, the larger one of two that are as near; the rendering of
    a magnitude of 10^21 or more, which is in exponent notation, is left
    undescribed. *)
Definition toFixed (x : float) (fractionDigits : nat) : completion jsstring :=
  match Prim2SF x with
  | S754_nan => Normal (lit "NaN")
  | S754_infinity s => Normal (lit (if s then "-Infinity" else "Infinity"))
  | S754_zero _ => Normal (fixed 0 fractionDigits)
  | S754_finite s m e =>
      let numerator := (Zpos m * 2 ^ Z.max e 0)%Z in
      let denominator := (2 ^ Z.max (- e) 0)%Z in
      if (10 ^ 21 * denominator <=? numerator)%Z then Unmodelled
      else
        let n := ((2 * numerator * 10 ^ Z.of_nat fractionDigits + denominator)
                  / (2 * denominator))%Z in
        Normal ((if s then lit "-" else []) ++ fixed n fractionDigits)
  end.

(** [`${v}`] for a value that is not a number or an object; the
    rendering of these is left undescribed. *)
Definition render (v : value) : completion jsstring :=
  match v with
  | Undefined => Normal (lit "undefined")
  | Null => Normal (lit "null")
  | Bool b => Normal (lit (if b then "true" else "false"))
  | Str s => Normal s
  | Number _ | Arr _ | Obj _ => Unmodelled
  end.

(** A value that is not an object. *)
Definition primitive (v : value) : bool :=
  match v with
  | Arr _ | Obj _ => false
  | Undefined | Null | Bool _ | Number _ | Str _ => true
  end.

(** The evaluation of [`${v}`] in a text that is only logged: the
    conversion of a primitive value completes; that of an array or of
    an object runs methods of the value and is left undescribed. *)
Definition interpolate (v : value) : completion unit :=
  if primitive v then Normal tt else Unmodelled.

(** [v.length]: the length of an array or of a string, the property of
    that name of an object; a TypeError on [null] and [undefined]. *)
Definition length_of (v : value) : completion value :=
  match v with
  | Undefined | Null => Throw TypeError
  | Arr items => Normal (Number (number_of_nat (length items)))
  | Str s => Normal (Number (number_of_nat (length s)))
  | Obj fields => Normal (lookup "length" fields)
  | Number _ | Bool _ => Normal Undefined
  end.

(** [new Error(message)] for a message built as a string of the program. *)
Definition error (message : jsstring) : exn := Error (string_of_list_ascii message).

(** The double quote. *)
Definition quote : ascii := ascii_of_N 34.

End Js.

(** ** The chunk splitter and the embedding batcher (src/utils/embedder.ts) *)

Module Embedder.
Import Js.

(** [interface Chunk] (src/utils/parser.ts). *)
Record Chunk : Type := {
  id : jsstring;
  pageName : jsstring;
  href : jsstring;
  fullContent : jsstring
}.

(** [interface EmbeddedChunk extends Chunk]. *)
Record EmbeddedChunk : Type := {
  base : Chunk;
  embedding : list float
}.

Definition MAX_BATCH_SIZE : nat := 50.
Definition MAX_RETRIES : nat := 3.
Definition MAX_TOKENS_PER_BATCH : nat := N.to_nat 6000.
Definition MAX_TOKENS_PER_INPUT : nat := N.to_nat 7000.

(** [Math.min(1000, MAX_TOKENS_PER_INPUT - 200)], the budget of the
    re-splits. *)
Definition resplitBudget : nat := Nat.min (N.to_nat 1000) (MAX_TOKENS_PER_INPUT - 200).

(** [Math.ceil(text.length / 4)]. *)
Definition estimateTokens (text : jsstring) : nat := (length text + 3) / 4.

Definition is_terminator (c : ascii) : bool :=
  match N_of_ascii c with
  | 33%N | 46%N | 63%N => true
  | _ => false
  end.

(** The successive matches of [/(.*?[.!?](?:\s|$))/gs] from the current
    position, [pending] being the characters the lazy [.*?] has taken so
    far; then the rest of the text, when some is left. *)
Fixpoint sentence_matches (pending text : jsstring) : list jsstring :=
  match text with
  | [] =>
      match pending with
      | [] => []
      | _ :: _ => [pending]
      end
  | c :: rest =>
      if is_terminator c then
        match rest with
        | [] => [pending ++ [c]]
        | d :: rest' =>
            if is_ws d then (pending ++ [c; d]) :: sentence_matches [] rest'
            else sentence_matches (pending ++ [c]) rest
        end
      else sentence_matches (pending ++ [c]) rest
  end.

Definition nonempty (s : jsstring) : bool := negb (Nat.eqb (length s) 0).

Definition splitBySentences (text : jsstring) : list jsstring :=
  filter nonempty (map trim (sentence_matches [] text)).

(** The loop [for (i = 0; i < text.length; i += charLimit)]; [fuel]
    bounds the number of iterations, the length of the text being
    enough since [charLimit] is at least 1. *)
Fixpoint slices (fuel charLimit : nat) (text : jsstring) : list jsstring :=
  match fuel, text with
  | S fuel', _ :: _ => firstn charLimit text :: slices fuel' charLimit (skipn charLimit text)
  | _, _ => []
  end.

(** [Math.floor(Math.max(4 * maxTokens * 0.9, 1))] for an integer budget:
    the integer part of 3.6 times the budget, and at least 1. *)
Definition charLimit (maxTokens : nat) : nat := Nat.max (4 * maxTokens * 9 / 10) 1.

Definition hardSliceByCharacters (text : jsstring) (maxTokens : nat) : list jsstring :=
  slices (length text) (charLimit maxTokens) text.

(** [text.split('\n\n')]: the pieces between the successive occurrences
    of two line feeds, [pending] being the piece under way. *)
Fixpoint split_paragraphs (pending text : jsstring) : list jsstring :=
  match text with
  | [] => [pending]
  | c :: rest =>
      match rest with
      | d :: rest' =>
          if is_newline c && is_newline d then pending :: split_paragraphs [] rest'
          else split_paragraphs (pending ++ [c]) rest
      | [] => [pending ++ [c]]
      end
  end.

(** The sub-chunks pushed so far and the counter of the [_part_] ids. *)
Record Parts : Type := {
  subChunks : list Chunk;
  partIndex : nat
}.

(** [subChunks.push({ ...chunk, id: `${chunk.id}_part_${partIndex++}`, fullContent })]. *)
Definition push (chunk : Chunk) (st : Parts) (content : jsstring) : Parts :=
  {| subChunks := subChunks st ++
       [ {| id := id chunk ++ lit "_part_" ++ decimal (partIndex st);
            pageName := pageName chunk;
            href := href chunk;
            fullContent := content |} ];
     partIndex := S (partIndex st) |}.

Definition pushBufferIfAny (chunk : Chunk) (st : Parts) (buffer : jsstring) : Parts * jsstring :=
  if Nat.eqb (length (trim buffer)) 0 then (st, buffer)
  else (push chunk st buffer, []).

(** [a + (a ? sep : '') + b]. *)
Definition join (sep a b : jsstring) : jsstring :=
  a ++ (if nonempty a then sep else []) ++ b.

(** The loop over the sentences of an oversized paragraph. *)
Fixpoint pack_sentences (chunk : Chunk) (maxTokens : nat) (sentences : list jsstring)
  (st : Parts) (sentenceBuffer : jsstring) : Parts * jsstring :=
  match sentences with
  | [] => (st, sentenceBuffer)
  | sentence :: rest =>
      let tentative := join (lit " ") sentenceBuffer sentence in
      if maxTokens <? estimateTokens tentative then
        let st := if nonempty sentenceBuffer then push chunk st sentenceBuffer else st in
        if maxTokens <? estimateTokens sentence then
          pack_sentences chunk maxTokens rest
            (fold_left (push chunk) (hardSliceByCharacters sentence maxTokens) st) []
        else pack_sentences chunk maxTokens rest st sentence
      else pack_sentences chunk maxTokens rest st tentative
  end.

(** The loop over the paragraphs. *)
Fixpoint pack_paragraphs (chunk : Chunk) (maxTokens : nat) (paragraphs : list jsstring)
  (st : Parts) (buffer : jsstring) : Parts * jsstring :=
  match paragraphs with
  | [] => (st, buffer)
  | rawParagraph :: rest =>
      let paragraph := trim rawParagraph in
      let paragraphTokens := estimateTokens paragraph in
      if maxTokens <? paragraphTokens then
        let '(st, buffer) := pushBufferIfAny chunk st buffer in
        let sentences := splitBySentences paragraph in
        let '(st, sentenceBuffer) := pack_sentences chunk maxTokens sentences st [] in
        let st := if nonempty sentenceBuffer then push chunk st sentenceBuffer else st in
        pack_paragraphs chunk maxTokens rest st buffer
      else
        let tentative := join [newline; newline] buffer paragraph in
        if maxTokens <? estimateTokens tentative then
          let '(st, _) := pushBufferIfAny chunk st buffer in
          pack_paragraphs chunk maxTokens rest st paragraph
        else pack_paragraphs chunk maxTokens rest st tentative
  end.

Definition paragraphs_of (content : jsstring) : list jsstring :=
  filter (fun p => nonempty (trim p)) (split_paragraphs [] content).

Definition splitLargeChunk (chunk : Chunk) (maxTokens : nat) : list Chunk :=
  let estimatedTokens := estimateTokens (fullContent chunk) in
  if estimatedTokens <=? maxTokens then [chunk]
  else
    let paragraphs := paragraphs_of (fullContent chunk) in
    let '(st, buffer) :=
      pack_paragraphs chunk maxTokens paragraphs {| subChunks := []; partIndex := 0 |} [] in
    let '(st, _) := pushBufferIfAny chunk st buffer in
    match subChunks st with
    | [] => [chunk]
    | _ :: _ => subChunks st
    end.

(** [splitLargeChunk(chunk)], the budget defaulting to 1000. *)
Definition splitLargeChunk_default (chunk : Chunk) : list Chunk :=
  splitLargeChunk chunk (N.to_nat 1000).

(** A chunk with the vector the response gives it: [embeddings[j]],
    [None] standing for [undefined] when the response is too short. *)
Definition Embedded : Type := (Chunk * option (list float))%type.

Fixpoint attach (batch : list Chunk) (embeddings : list (list float)) : list Embedded :=
  match batch with
  | [] => []
  | c :: rest => (c, hd_error embeddings) :: attach rest (tl embeddings)
  end.

Section Batcher.

(** [embedBatch(openai, texts)], retries included: the vectors, or
    [None] when it throws after the last attempt. *)
Variable embedBatch : list jsstring -> option (list (list float)).

Record Batching : Type := {
  currentBatch : list Chunk;
  currentBatchTokens : nat;
  embeddedChunks : list Embedded;
  handed : list (list Chunk)
}.

(** How a run of [generateEmbeddings] ends. *)
Inductive ending : Type :=
| Returned
| Thrown
| OutOfFuel.

(** The [try] block that processes the current batch: the batch is
    handed to [embedBatch], and on success its chunks are pushed with
    their vectors and the batch is reset. *)
Definition processBatch (st : Batching) : Batching * bool :=
  match embedBatch (map fullContent (currentBatch st)) with
  | Some embeddings =>
      ({| currentBatch := [];
          currentBatchTokens := 0;
          embeddedChunks := embeddedChunks st ++ attach (currentBatch st) embeddings;
          handed := handed st ++ [currentBatch st] |}, true)
  | None =>
      ({| currentBatch := currentBatch st;
          currentBatchTokens := currentBatchTokens st;
          embeddedChunks := embeddedChunks st;
          handed := handed st ++ [currentBatch st] |}, false)
  end.

Definition overLimits (st : Batching) (chunkTokens : nat) : bool :=
  (MAX_BATCH_SIZE <=? length (currentBatch st))
  || ((0 <? length (currentBatch st))
      && (MAX_TOKENS_PER_BATCH <? currentBatchTokens st + chunkTokens)).

(** The batching loop; [pending] is [normalizedChunks] from index [i]
    on.  Splicing the pieces of a re-split chunk in at [i] and stepping
    [i] back puts them at the head of [pending], which is why the loop
    is bounded by [fuel] rather than by the list. *)
Fixpoint batchLoop (fuel : nat) (pending : list Chunk) (st : Batching) : Batching * ending :=
  match fuel with
  | 0 => (st, OutOfFuel)
  | S fuel' =>
      match pending with
      | [] =>
          if 0 <? length (currentBatch st) then
            let '(st, ok) := processBatch st in
            (st, if ok then Returned else Thrown)
          else (st, Returned)
      | chunk :: rest =>
          let chunkTokens := estimateTokens (fullContent chunk) in
          let '(st, ok) :=
            if overLimits st chunkTokens then processBatch st else (st, true) in
          if negb ok then (st, Thrown)
          else if MAX_TOKENS_PER_INPUT <? chunkTokens then
            let reSplit := splitLargeChunk chunk resplitBudget in
            batchLoop fuel' (reSplit ++ rest) st
          else
            batchLoop fuel' rest
              {| currentBatch := currentBatch st ++ [chunk];
                 currentBatchTokens := currentBatchTokens st + chunkTokens;
                 embeddedChunks := embeddedChunks st;
                 handed := handed st |}
      end
  end.

Definition processedChunks (chunks : list Chunk) : list Chunk :=
  flat_map splitLargeChunk_default chunks.

Definition normalizedChunks (chunks : list Chunk) : list Chunk :=
  flat_map (fun chunk =>
              if MAX_TOKENS_PER_INPUT <? estimateTokens (fullContent chunk)
              then splitLargeChunk chunk resplitBudget
              else [chunk])
           (processedChunks chunks).

Definition generateEmbeddings (fuel : nat) (chunks : list Chunk) : Batching * ending :=
  batchLoop fuel (normalizedChunks chunks)
    {| currentBatch := []; currentBatchTokens := 0; embeddedChunks := []; handed := [] |}.

End Batcher.

End Embedder.

(** ** The cache store (src/utils/cache.ts) *)

Module Cache.
Import Js.

Definition CACHE_FILENAME : string := "embeddings.json".

(** The part of [process] the module reads. *)
Record Process : Type := {
  CACHE_DIR : option string;
  HOME : option string;
  cwd : string
}.

Definition expandTildeInPath (env : Process) (filePath : string) : string :=
  if String.prefix "~/" filePath then
    path_join (match HOME env with Some h => h | None => "" end)
              (String.substring 2 (String.length filePath - 2) filePath)
  else filePath.

Definition getCacheDir (env : Process) : string :=
  match CACHE_DIR env with
  | Some dir => if String.eqb dir "" then path_join (cwd env) "data"
                else expandTildeInPath env dir
  | None => path_join (cwd env) "data"
  end.

Definition getCachePath (env : Process) : string :=
  path_join (getCacheDir env) CACHE_FILENAME.

(** The object an embedded chunk is at run time. *)
Definition chunk_value (c : Embedder.EmbeddedChunk) : value :=
  Obj [ ("id"%string, Str (Embedder.id (Embedder.base c)));
        ("pageName"%string, Str (Embedder.pageName (Embedder.base c)));
        ("href"%string, Str (Embedder.href (Embedder.base c)));
        ("fullContent"%string, Str (Embedder.fullContent (Embedder.base c)));
        ("embedding"%string, Arr (map Number (Embedder.embedding c))) ].

(** [saveCache(embeddedChunks)]; [now] is [new Date().toISOString()]. *)
Definition saveCache (env : Process) (now : jsstring) (embeddedChunks : list Embedder.EmbeddedChunk)
  (fs : FileSystem) : FileSystem :=
  let cachePath := getCachePath env in
  let cacheData :=
    Obj [ ("timestamp"%string, Str now);
          ("version"%string, Str (lit "1.0"));
          ("chunks"%string, Arr (map chunk_value embeddedChunks));
          ("totalChunks"%string, Number (number_of_nat (length embeddedChunks))) ] in
  let tempPath := (cachePath ++ ".tmp")%string in
  renameSync (cwd env) tempPath cachePath
    (writeFileSync (cwd env) tempPath (stringify cacheData) fs).

(** The checks on one chunk of the cache. *)
Definition checkChunk (chunk : value) : completion unit :=
  bind (get chunk "id") (fun i =>
  bind (get chunk "pageName") (fun p =>
  bind (get chunk "href") (fun h =>
  bind (get chunk "fullContent") (fun f =>
  bind (get chunk "embedding") (fun e =>
  if negb (truthy i) || negb (truthy p) || negb (truthy h) || negb (truthy f) || negb (truthy e)
  then Throw (Error "Invalid chunk structure in cache")
  else if negb (isArray e) then Throw (Error "Invalid embedding format in cache")
  else Normal tt))))).

Fixpoint checkChunks (chunks : list value) : completion unit :=
  match chunks with
  | [] => Normal tt
  | chunk :: rest => bind (checkChunk chunk) (fun _ => checkChunks rest)
  end.

(** The body of the [try] block of [loadCache], for an existing file.
    Between the check of [chunks] and the checks of the chunks, the
    timestamp of the document is converted to a string for the log. *)
Definition readCache (file : content) : completion value :=
  bind (parse file) (fun cacheData =>
  bind (get cacheData "chunks") (fun cs =>
  if negb (truthy cs) || negb (isArray cs)
  then Throw (Error "Invalid cache format: missing chunks array")
  else bind (get cacheData "timestamp") (fun timestamp =>
       if negb (convertible timestamp) then Throw TypeError
       else bind (iterate cs) (fun items =>
            bind (checkChunks items) (fun _ => Normal cs))))).

(** [loadCache()]: the chunks, or [None] for [null]. *)
Definition loadCache (env : Process) (fs : FileSystem) : option value :=
  match fs (getCachePath env) with
  | None => None
  | Some file =>
      match readCache file with
      | Normal cs => Some cs
      | _ => None
      end
  end.

Definition clearCache (env : Process) (fs : FileSystem) : FileSystem :=
  match fs (getCachePath env) with
  | Some _ => unlinkSync (cwd env) (getCachePath env) fs
  | None => fs
  end.

(** Deep equality of two values, numbers being compared as floats. *)
Fixpoint deepEqual (v w : value) {struct v} : bool :=
  match v, w with
  | Undefined, Undefined => true
  | Null, Null => true
  | Bool a, Bool b => Bool.eqb a b
  | Number x, Number y => (x =? y)%float
  | Str s, Str t => if list_eq_dec ascii_dec s t then true else false
  | Arr xs, Arr ys =>
      (fix all2 (xs ys : list value) {struct xs} : bool :=
         match xs, ys with
         | [], [] => true
         | x :: xs', y :: ys' => deepEqual x y && all2 xs' ys'
         | _, _ => false
         end) xs ys
  | Obj fs, Obj gs =>
      (fix all2 (fs gs : list (string * value)) {struct fs} : bool :=
         match fs, gs with
         | [], [] => true
         | (k, x) :: fs', (l, y) :: gs' => String.eqb k l && deepEqual x y && all2 fs' gs'
         | _, _ => false
         end) fs gs
  | _, _ => false
  end.

(** What [getCacheInfo] returns.  [size] and [timestamp] are absent
    when the file is; [size] holds the rendering of a number, and
    [timestamp] whatever the document has under that name. *)
Record CacheInfo : Type := {
  exists_ : bool;
  path : string;
  size : option (completion jsstring);
  timestamp : value
}.

(** [getCacheInfo()]; [bytes] is the size [fs.statSync] reports for the
    cache file. *)
Definition getCacheInfo (env : Process) (bytes : nat) (fs : FileSystem) : CacheInfo :=
  let cachePath := getCachePath env in
  match fs cachePath with
  | None =>
      {| exists_ := false; path := cachePath; size := None; timestamp := Undefined |}
  | Some file =>
      let fileSizeMB := toFixed (number_of_nat bytes / 1048576)%float 2 in
      let timestamp :=
        match bind (parse file) (fun cacheData => get cacheData "timestamp") with
        | Normal t => t
        | _ => Undefined
        end in
      {| exists_ := true;
         path := cachePath;
         size := Some (bind fileSizeMB (fun text => Normal (text ++ lit " MB")));
         timestamp := timestamp |}
  end.

End Cache.

(** ** The search engine (src/utils/search.ts) *)

Module Search.
Import Js.

Record SearchChunk : Type := {
  id : jsstring;
  pageName : jsstring;
  href : jsstring;
  fullContent : jsstring;
  embedding : list float
}.

(** The object a well-typed chunk is at run time. *)
Definition chunk_value (c : SearchChunk) : value :=
  Obj [ ("id"%string, Str (id c));
        ("pageName"%string, Str (pageName c));
        ("href"%string, Str (href c));
        ("fullContent"%string, Str (fullContent c));
        ("embedding"%string, Arr (map Number (embedding c))) ].

Record SearchResult : Type := {
  chunk : value;
  score : float
}.

Record SearchEngine : Type := {
  chunks : value;
  isLoaded : bool;
  cacheDir : string
}.

(** [new SearchEngine(cacheDir)]; [cwd] is [process.cwd()], and [None]
    an omitted argument. *)
Definition new (cwd : string) (cacheDir : option string) : SearchEngine :=
  {| chunks := Arr [];
     isLoaded := false;
     cacheDir := match cacheDir with
                 | Some dir => if String.eqb dir "" then path_join cwd "data" else dir
                 | None => path_join cwd "data"
                 end |}.

Definition loadCache (fs : FileSystem) (this : SearchEngine) : completion unit * SearchEngine :=
  let cachePath := path_join (cacheDir this) "embeddings.json" in
  match fs cachePath with
  | None =>
      (Throw (Error ("Cache not found at " ++ cachePath ++ ". Run setup first.")), this)
  | Some file =>
      match bind (parse file) (fun cacheData => get cacheData "chunks") with
      | Normal cs =>
          (Normal tt, {| chunks := cs; isLoaded := true; cacheDir := cacheDir this |})
      | Throw e => (Throw e, this)
      | Unmodelled => (Unmodelled, this)
      end
  end.

(** The loop of [cosineSimilarity]: the three accumulators after the
    remaining components. *)
Fixpoint accumulate (a b : list float) (dotProduct normA normB : float) : float * float * float :=
  match a, b with
  | x :: a', y :: b' =>
      accumulate a' b' (dotProduct + x * y)%float (normA + x * x)%float (normB + y * y)%float
  | _, _ => (dotProduct, normA, normB)
  end.

Definition cosineSimilarity (a b : list float) : completion float :=
  if negb (Nat.eqb (length a) (length b)) then
    Throw (Error "Vectors must have the same length")
  else
    let '(dotProduct, normA, normB) := accumulate a b 0%float 0%float 0%float in
    if (normA =? 0)%float || (normB =? 0)%float then Normal 0%float
    else Normal (dotProduct / (sqrt normA * sqrt normB))%float.

(** [cosineSimilarity(queryEmbedding, chunk.embedding)] for whatever the
    chunk holds under [embedding]: an array of numbers is what the
    declared type promises; [undefined.length] is a TypeError; a value
    without a [length] fails the length test. *)
Definition similarity (a : list float) (b : value) : completion float :=
  match b with
  | Undefined | Null => Throw TypeError
  | Arr items =>
      match numbers items with
      | Some v => cosineSimilarity a v
      | None =>
          if negb (Nat.eqb (length a) (length items)) then
            Throw (Error "Vectors must have the same length")
          else Unmodelled
      end
  | Str s =>
      if negb (Nat.eqb (length a) (length s)) then
        Throw (Error "Vectors must have the same length")
      else match s with
           | [] => Normal 0%float
           | _ :: _ => Unmodelled
           end
  | Number _ | Bool _ => Throw (Error "Vectors must have the same length")
  | Obj fields =>
      match lookup "length" fields with
      | Undefined => Throw (Error "Vectors must have the same length")
      | _ => Unmodelled
      end
  end.

(** The [for .. of] loop of [search]: the results pushed for the
    remaining chunks, in order. *)
Fixpoint scan (queryEmbedding : list float) (minScore : float) (remaining : list value)
  : completion (list SearchResult) :=
  match remaining with
  | [] => Normal []
  | c :: rest =>
      bind (get c "embedding") (fun e =>
      bind (similarity queryEmbedding e) (fun s =>
      bind (scan queryEmbedding minScore rest) (fun results =>
      Normal (if (minScore <=? s)%float
              then {| chunk := c; score := s |} :: results
              else results))))
  end.

Definition comparefn (a b : SearchResult) : float := (score b - score a)%float.

Definition search (this : SearchEngine) (queryEmbedding : list float) (topK : Z) (minScore : float)
  : completion (list SearchResult) * SearchEngine :=
  if negb (isLoaded this) then
    (Throw (Error "Search engine not loaded. Call loadCache() first."), this)
  else
    (bind (iterate (chunks this)) (fun cs =>
     bind (scan queryEmbedding minScore cs) (fun results =>
     Normal (slice0 (sort comparefn results) topK))),
     this).

(** What [getStats] returns. *)
Record Stats : Type := {
  totalChunks : value;
  isLoaded' : bool
}.

Definition getStats (this : SearchEngine) : completion Stats :=
  bind (length_of (chunks this)) (fun n =>
  Normal {| totalChunks := n; isLoaded' := isLoaded this |}).

End Search.

(** ** Pages, chunk ids and text cleaning (src/utils/pages.ts, src/utils/parser.ts) *)

Module Parser.
Import Js.

(** [interface Page] (src/utils/pages.ts). *)
Record Page : Type := {
  name : jsstring;
  href : jsstring
}.

(** [href.replace('.html', '')]. *)
Definition withoutHtml (href : jsstring) : jsstring := replace href (lit ".html") [].

(** The anchor [generateChunkId] makes of a heading. *)
Definition anchor (heading : jsstring) : jsstring :=
  replaceSpaces (lit "_") false (removeSymbols (toLowerCase heading)).

(** [generateChunkId(href, index, heading)]; [None] is an omitted
    heading, which is treated like an empty one. *)
Definition generateChunkId (href : jsstring) (index : nat) (heading : option jsstring) : jsstring :=
  let baseId := withoutHtml href in
  match heading with
  | Some (c :: heading') => baseId ++ lit "#" ++ anchor (c :: heading')
  | Some [] | None => baseId ++ lit "#chunk_" ++ decimal index
  end.

Definition cleanText (text : jsstring) : jsstring :=
  trim (collapseBlankLines None (replaceSpaces (lit " ") false text)).

Section Pages.

(** [PAGES], the pages of [pages.json] or of [pages-test.json]. *)
Variable PAGES : list Page.

Definition findPageName (href : jsstring) : jsstring :=
  match find (fun p => same (Parser.href p) href) PAGES with
  | Some page =>
      match name page with
      | [] => withoutHtml href
      | _ :: _ => name page
      end
  | None => withoutHtml href
  end.

(** What [parseAndChunk] pushes for the section of the heading of index
    [i]: [headingText] is the trimmed text of the heading and
    [markdownContent] what turndown makes of the section.  A section
    whose cleaned content is empty is passed over. *)
Definition sectionChunks (href : jsstring) (i : nat) (headingText markdownContent : jsstring)
  : list Embedder.Chunk :=
  let fullContent := cleanText markdownContent in
  if 0 <? length fullContent then
    [ {| Embedder.id := generateChunkId href i (Some headingText);
         Embedder.pageName := findPageName href;
         Embedder.href := href;
         Embedder.fullContent := fullContent |} ]
  else [].

(** What [parseAndChunk] pushes for a page taken as a whole, when it has
    no heading; [markdown] is what turndown makes of the content. *)
Definition pageChunks (href markdown : jsstring) : list Embedder.Chunk :=
  let fullContent := cleanText markdown in
  if 0 <? length fullContent then
    [ {| Embedder.id := generateChunkId href 0 None;
         Embedder.pageName := findPageName href;
         Embedder.href := href;
         Embedder.fullContent := fullContent |} ]
  else [].

End Pages.

End Parser.

(** ** The scraper (src/utils/scraper.ts) *)

Module Scraper.
Import Js.

Record ScrapedPage : Type := {
  href : jsstring;
  html : jsstring
}.

(** What a run does to the outside: the requests it sends and the time
    it waits, in milliseconds. *)
Inductive event : Type :=
| Requested (url : jsstring)
| Waited (ms : N).

Definition is_request (e : event) : bool :=
  match e with
  | Requested _ => true
  | Waited _ => false
  end.

(** The number of requests sent so far. *)
Definition requests (log : list event) : nat := length (filter is_request log).

(** [Math.min(1000 * Math.pow(2, attempt - 1), 10000)]. *)
Definition backoff (attempt : nat) : N := N.min (1000 * 2 ^ N.of_nat (attempt - 1)) 10000.

Section Network.

(** [process.env.BASE_URL]. *)
Variable env_BASE_URL : option jsstring.

(** [axios.get(url, ..)]: what the [n]-th request of the run, sent to
    [url], is answered with: the data of the response, or the message of
    the error. *)
Variable axios_get : nat -> jsstring -> jsstring + jsstring.

Definition BASE_URL : jsstring :=
  match env_BASE_URL with
  | Some (c :: url) => c :: url
  | Some [] | None => lit "https://documentation.help/gmat/"
  end.

(** The loop of [scrapePage] from the attempt of number [attempt] on;
    [remaining] is the number of attempts left, [retries + 1 - attempt]. *)
Fixpoint attempts (remaining attempt retries : nat) (href : jsstring) (log : list event)
  : completion jsstring * list event :=
  match remaining with
  | 0 => (Throw (error (lit "Unreachable code reached in scrapePage for " ++ href)), log)
  | S remaining' =>
      let url := BASE_URL ++ href in
      match axios_get (requests log) url with
      | inl data => (Normal data, log ++ [Requested url])
      | inr errorMessage =>
          if attempt =? retries then
            (Throw (error (lit "Failed to scrape " ++ href ++ lit " after " ++ decimal retries
                           ++ lit " attempts: " ++ errorMessage)),
             log ++ [Requested url])
          else
            attempts remaining' (S attempt) retries href
              (log ++ [Requested url; Waited (backoff attempt)])
      end
  end.

Definition scrapePage (href : jsstring) (retries : nat) (log : list event)
  : completion jsstring * list event :=
  attempts retries 1 retries href log.

(** The loop of [scrapeAll] over the pages that remain. *)
Fixpoint visit (pages : list Parser.Page) (results : list ScrapedPage) (log : list event)
  : list ScrapedPage * list event :=
  match pages with
  | [] => (results, log)
  | page :: rest =>
      match scrapePage (Parser.href page) 3 log with
      | (Normal html, log') =>
          visit rest (results ++ [ {| href := Parser.href page; html := html |} ])
            (log' ++ [Waited 500])
      | (_, log') => visit rest results log'
      end
  end.

Definition scrapeAll (PAGES : list Parser.Page) (log : list event)
  : list ScrapedPage * list event :=
  visit PAGES [] log.

End Network.

End Scraper.

(** ** The embedding request and its retries (src/utils/embedder.ts) *)

Module EmbedBatch.
Import Js Embedder.

(** The calls of the API and the delays between them; of a delay, the
    part that is not random is recorded. *)
Inductive event : Type :=
| Called (texts : list jsstring)
| Waited (baseDelay : N).

Definition is_call (e : event) : bool :=
  match e with
  | Called _ => true
  | Waited _ => false
  end.

Definition calls (log : list event) : nat := length (filter is_call log).

(** [Math.min(1000 * Math.pow(2, attempt - 1), 10000)], the part of
    the delay that is not random; [Math.pow(2, -1)] is a half. *)
Definition baseDelay (attempt : nat) : N :=
  match attempt with
  | 0 => 500
  | S n => N.min (1000 * 2 ^ N.of_nat n) 10000
  end.

Section Api.

(** [openai.embeddings.create({ model, input: texts })]: what the [n]-th
    call of the run is answered with: the embeddings of the data of the
    response, in order, or the message of the error. *)
Variable create : nat -> list jsstring -> list (list float) + jsstring.

(** [embedBatch(openai, texts, attempt)]; [left] is the number of
    attempts left after this one, [MAX_RETRIES - attempt]. *)
Fixpoint retry (left : nat) (texts : list jsstring) (attempt : nat) (log : list event)
  : completion (list (list float)) * list event :=
  match create (calls log) texts with
  | inl embeddings => (Normal embeddings, log ++ [Called texts])
  | inr errorMessage =>
      match left with
      | 0 =>
          (Throw (error (lit "Failed to generate embeddings after " ++ decimal MAX_RETRIES
                         ++ lit " attempts: " ++ errorMessage)),
           log ++ [Called texts])
      | S left' =>
          retry left' texts (S attempt) (log ++ [Called texts; Waited (baseDelay attempt)])
      end
  end.

Definition embedBatch (texts : list jsstring) (attempt : nat) (log : list event)
  : completion (list (list float)) * list event :=
  retry (MAX_RETRIES - attempt) texts attempt log.

End Api.

End EmbedBatch.

(** ** The search tool (src/tools/gmatDocs.ts) *)

Module GmatDocs.
Import Js Search.

(** The arguments of [searchDocs]; [None] is a property left out. *)
Record Args : Type := {
  query : jsstring;
  topK : option Z;
  minScore : option float
}.

Definition default {A : Type} (d : A) (o : option A) : A :=
  match o with
  | Some a => a
  | None => d
  end.

(** The text added to the response for the result of index [i]. *)
Definition formatResult (i : nat) (result : SearchResult) : completion jsstring :=
  bind (toFixed (score result) 3) (fun scoreText =>
  bind (bind (get (chunk result) "pageName") render) (fun pageName =>
  bind (bind (get (chunk result) "href") render) (fun href =>
  bind (bind (get (chunk result) "fullContent") render) (fun fullContent =>
  Normal (lit "## Result " ++ decimal (i + 1) ++ lit " (Score: " ++ scoreText ++ lit ")"
          ++ [newline]
          ++ lit "**Page**: " ++ pageName ++ [newline]
          ++ lit "**Source**: " ++ href ++ [newline]
          ++ lit "**Content**:" ++ [newline] ++ fullContent ++ [newline; newline]
          ++ lit "---" ++ [newline; newline]))))).

(** The loop that formats the results from index [i] on. *)
Fixpoint formatResults (i : nat) (results : list SearchResult) (response : jsstring)
  : completion jsstring :=
  match results with
  | [] => Normal response
  | result :: rest =>
      bind (formatResult i result) (fun text => formatResults (S i) rest (response ++ text))
  end.

(** The first line of the response. *)
Definition found (n : nat) (query : jsstring) : jsstring :=
  lit "Found " ++ decimal n ++ lit " relevant section" ++ (if 1 <? n then lit "s" else [])
  ++ lit " for: " ++ [quote] ++ query ++ [quote] ++ [newline; newline].

Definition notFound (query : jsstring) : jsstring :=
  lit "No relevant documentation found for query: " ++ [quote] ++ query ++ [quote].

Section Config.

(** [(await openaiClient.embeddings.create({ .., input: query })).data[0].embedding]:
    the embedding of the query, or what the request or the reading of
    the response throws. *)
Variable embed : jsstring -> completion (list float).

(** The [try] block of [handleSearchDocs]. *)
Definition searchDocs (args : Args) (searchEngine : SearchEngine) : completion jsstring :=
  let query := query args in
  let topK := default 10%Z (topK args) in
  let minScore := default 0x1.999999999999ap-4%float (minScore args) in
  bind (embed query) (fun queryEmbedding =>
  bind (fst (search searchEngine queryEmbedding topK minScore)) (fun results =>
  match results with
  | [] => Normal (notFound query)
  | _ :: _ =>
      bind (formatResults 0 results (found (length results) query)) (fun response =>
      Normal (trim response))
  end)).

(** [handleSearchDocs(args, config)].  The message of an error that the
    program did not make itself is the engine's, and the text returned
    for it is left undescribed. *)
Definition handleSearchDocs (args : Args) (searchEngine : SearchEngine) : completion jsstring :=
  match searchDocs args searchEngine with
  | Normal text => Normal text
  | Throw (Error message) => Normal (lit "Error searching documentation: " ++ lit message)
  | Throw TypeError | Throw SyntaxError | Unmodelled => Unmodelled
  end.

Definition handleGmatDocsTool (toolName : jsstring) (args : Args) (searchEngine : SearchEngine)
  : completion jsstring :=
  if same toolName (lit "searchDocs") then handleSearchDocs args searchEngine
  else Throw (error (lit "Unknown tool: " ++ toolName)).

End Config.

End GmatDocs.

(** ** The server (src/index.ts) *)

Module Index.
Import Js Search.

(** [process.env.CACHE_DIR || path.join(process.cwd(), 'data')]. *)
Definition cacheDir (env : Cache.Process) : string :=
  match Cache.CACHE_DIR env with
  | Some dir => if String.eqb dir "" then path_join (Cache.cwd env) "data" else dir
  | None => path_join (Cache.cwd env) "data"
  end.

Definition searchEngine (env : Cache.Process) : SearchEngine :=
  new (Cache.cwd env) (Some (cacheDir env)).

Section Server.

(** The embedding the API returns for a query, as in the search tool. *)
Variable embed : jsstring -> completion (list float).

(** The handler of the tool calls: the text of the content returned, for
    the request of the tool [name] with the arguments [args]. *)
Definition callTool (name : jsstring) (args : GmatDocs.Args) (searchEngine : SearchEngine)
  : completion jsstring :=
  if negb (same name (lit "searchDocs")) then Throw (error (lit "Unknown tool: " ++ name))
  else
    let query := GmatDocs.query args in
    let topK := GmatDocs.default 10%Z (GmatDocs.topK args) in
    let minScore := GmatDocs.default 0x1.999999999999ap-4%float (GmatDocs.minScore args) in
    let attempt :=
      bind (embed query) (fun queryEmbedding =>
      bind (fst (search searchEngine queryEmbedding topK minScore)) (fun results =>
      if Nat.eqb (length results) 0 then
        Normal (lit "No relevant documentation found for query: " ++ [quote] ++ query ++ [quote])
      else
        let response :=
          lit "Found " ++ decimal (length results) ++ lit " relevant section"
          ++ (if 1 <? length results then lit "s" else [])
          ++ lit " for: " ++ [quote] ++ query ++ [quote] ++ [newline; newline] in
        bind (GmatDocs.formatResults 0 results response) (fun response =>
        Normal (trim response)))) in
    match attempt with
    | Normal text => Normal text
    | Throw (Error message) => Normal (lit "Error searching documentation: " ++ lit message)
    | Throw TypeError | Throw SyntaxError | Unmodelled => Unmodelled
    end.

End Server.

(** How [main] ends: the server runs on an engine, or the process exits. *)
Inductive startup : Type :=
| Running (engine : SearchEngine)
| Exit (code : nat).

(** [main()]; [connects] tells whether [server.connect] succeeds.  The
    number of chunks is interpolated in the text logged after the
    load. *)
Definition main (env : Cache.Process) (fs : FileSystem) (connects : bool)
  : completion startup :=
  let '(loaded, engine) := loadCache fs (searchEngine env) in
  match bind loaded (fun _ =>
        bind (getStats engine) (fun stats => interpolate (totalChunks stats))) with
  | Normal _ => Normal (if connects then Running engine else Exit 1)
  | Throw _ => Normal (Exit 1)
  | Unmodelled => Unmodelled
  end.

End Index.

(** ** The setup command (src/setup.ts) *)

Module Setup.
Import Js Cache.

(** How far [main] gets before the regeneration of the cache: it
    returns because the cache is valid, the process exits, or the
    environment is validated and the regeneration begins with the API
    key. *)
Inductive progress : Type :=
| Returned
| Exit (code : nat)
| Regenerating (apiKey : jsstring).

(** [main()] up to the validation of the environment, with the file
    system it leaves; [argv] is [process.argv], [OPENAI_API_KEY] the
    variable of that name and [bytes] the size of the cache file.  The
    timestamp of an existing cache is interpolated in a text logged
    when it is truthy. *)
Definition main (argv : list jsstring) (OPENAI_API_KEY : option jsstring) (env : Process)
  (bytes : nat) (fs : FileSystem) : completion progress * FileSystem :=
  let args := skipn 2 argv in
  let forceRefresh := includes args (lit "--force") in
  let cacheInfo := getCacheInfo env bytes fs in
  match (if exists_ cacheInfo && truthy (timestamp cacheInfo)
         then interpolate (timestamp cacheInfo) else Normal tt) with
  | Throw e => (Throw e, fs)
  | Unmodelled => (Unmodelled, fs)
  | Normal _ =>
      match (if exists_ cacheInfo && negb forceRefresh then loadCache env fs else None) with
      | Some existingChunks => (Normal Returned, fs)
      | None =>
          let fs := if forceRefresh && exists_ cacheInfo then clearCache env fs else fs in
          match OPENAI_API_KEY with
          | Some (c :: apiKey) => (Normal (Regenerating (c :: apiKey)), fs)
          | Some [] | None => (Normal (Exit 1), fs)
          end
      end
  end.

End Setup.

(** * Vocabulary of the properties

    The notions the statements below are written with, and the data of
    their examples. *)

(** ** Binary64 floats *)

Module Float64.
Local Open Scope Z_scope.

(** The non-zero floats of sign [s]. *)
Variant sf_signed (s : bool) : spec_float -> Prop :=
  | signed_finite m e : sf_signed s (S754_finite s m e)
  | signed_infinity : sf_signed s (S754_infinity s).

(** The integer a finite float denotes once its mantissa is aligned on the
    exponent [ez]. *)
Definition aligned (s : bool) (m : positive) (e ez : Z) : Z :=
  cond_Zopp s (Zpos m * 2 ^ (e - ez)).

(** A float that is a number. *)
Definition not_nan (x : float) : Prop := Prim2SF x <> S754_nan.

End Float64.

(** ** The search engine *)

Module SearchSpec.
Import Js Search.
Local Open Scope float_scope.

(** The value [cosineSimilarity] returns on vectors of equal length. *)
Definition cosine (a b : list float) : float :=
  let '(dotProduct, normA, normB) := accumulate a b 0 0 0 in
  if (normA =? 0) || (normB =? 0) then 0 else dotProduct / (sqrt normA * sqrt normB).

(** The results the loop of [search] pushes for a well-typed corpus. *)
Definition hits (q : list float) (minScore : float) (cs : list SearchChunk) : list SearchResult :=
  flat_map (fun c =>
              let s := cosine q (embedding c) in
              if minScore <=? s then [ {| chunk := chunk_value c; score := s |} ] else [])
           cs.

(** An engine that holds the corpus [cs] after a successful load. *)
Definition holds (this : SearchEngine) (cs : list SearchChunk) : Prop :=
  isLoaded this = true /\ chunks this = Arr (map chunk_value cs).

(** [results[i].score >= results[i+1].score] for every valid [i]. *)
Definition descending (results : list SearchResult) : Prop :=
  forall i r r',
    nth_error results i = Some r -> nth_error results (S i) = Some r' ->
    (score r' <=? score r) = true.

(** The order [sort] establishes between neighbours. *)
Definition before (r r' : SearchResult) : Prop := (score r' <=? score r) = true.

(** A result whose score is a number. *)
Definition scored (r : SearchResult) : Prop := Float64.not_nan (score r).

(** Whether a stored chunk's cosine similarity to the query reaches
    [minScore]. *)
Definition reaches (q : list float) (minScore : float) (c : SearchChunk) : bool :=
  match cosineSimilarity q (embedding c) with
  | Normal s => minScore <=? s
  | _ => false
  end.

(** A corpus of three chunks in the plane, the engine that holds it, and
    two queries, of the stored dimension and of another. *)
Definition corpus3 : list SearchChunk :=
  [ {| id := lit "a#x"; pageName := lit "A"; href := lit "a.html";
       fullContent := lit "east"; embedding := [1; 0] |};
    {| id := lit "a#y"; pageName := lit "A"; href := lit "a.html";
       fullContent := lit "north"; embedding := [0; 1] |};
    {| id := lit "b#z"; pageName := lit "B"; href := lit "b.html";
       fullContent := lit "north-east"; embedding := [1; 1] |} ].

Definition engine3 : SearchEngine :=
  {| chunks := Arr (map chunk_value corpus3); isLoaded := true; cacheDir := "data" |}.

Definition query3 : list float := [1; 0].

Definition query1 : list float := [1].

(** The engines on which no load has succeeded yet: a new engine, and
    whatever failed loads and queries leave of it. *)
Inductive unloaded : SearchEngine -> Prop :=
| unloaded_new (cwd : string) (dir : option string) : unloaded (new cwd dir)
| unloaded_failed (fs : FileSystem) (this : SearchEngine) :
    unloaded this -> fst (loadCache fs this) <> Normal tt ->
    unloaded (snd (loadCache fs this))
| unloaded_search (this : SearchEngine) (q : list float) (topK : Z) (minScore : float) :
    unloaded this -> unloaded (snd (search this q topK minScore)).

(** A new engine on the directory [data]. *)
Definition engine0 : SearchEngine := new "/srv/app" (Some "data"%string).

(** A file system without cache file, and one whose cache file is not JSON. *)
Definition no_files : FileSystem := fun _ => None.

Definition broken_cache : FileSystem :=
  fun p => if String.eqb p "data/embeddings.json" then Some Garbage else None.

(** The quantities of the definition of the cosine similarity, each
    accumulated on its own from 0 in the order of the components. *)
Definition dot (a b : list float) : float :=
  fold_left (fun acc xy => acc + fst xy * snd xy) (combine a b) 0.

Definition squaredNorm (a : list float) : float :=
  fold_left (fun acc x => acc + x * x) a 0.

Definition norm (a : list float) : float := sqrt (squaredNorm a).

Definition ones3 : list float := [1; 1; 1].

(** A loaded engine on chunks of the given embeddings. *)
Definition engine_of (embeddings : list (list float)) : SearchEngine :=
  {| chunks := Arr (map (fun e => chunk_value
                           {| id := lit "a#x"; pageName := lit "A"; href := lit "a.html";
                              fullContent := lit "text"; embedding := e |}) embeddings);
     isLoaded := true;
     cacheDir := "data" |}.

(** The scores of the results of a query, [None] when it fails. *)
Definition scores (r : completion (list SearchResult) * SearchEngine) : option (list float) :=
  match fst r with
  | Normal results => Some (map score results)
  | _ => None
  end.

End SearchSpec.

(** ** The cache store *)

Module CacheSpec.
Import Js Cache.
Local Open Scope float_scope.

(** An embedded chunk that the cache keeps as it is: none of its four
    texts is empty and every component of its vector is finite. *)
Definition storable (c : Embedder.EmbeddedChunk) : Prop :=
  Embedder.id (Embedder.base c) <> []
  /\ Embedder.pageName (Embedder.base c) <> []
  /\ Embedder.href (Embedder.base c) <> []
  /\ Embedder.fullContent (Embedder.base c) <> []
  /\ Forall (fun x => PrimFloat.is_finite x = true) (Embedder.embedding c).

(** The object [JSON.stringify] writes for an embedded chunk. *)
Definition stored (c : Embedder.EmbeddedChunk) : value :=
  Obj [ ("id"%string, Str (Embedder.id (Embedder.base c)));
        ("pageName"%string, Str (Embedder.pageName (Embedder.base c)));
        ("href"%string, Str (Embedder.href (Embedder.base c)));
        ("fullContent"%string, Str (Embedder.fullContent (Embedder.base c)));
        ("embedding"%string, Arr (map jsonify_number (Embedder.embedding c))) ].

(** The process of the examples, a timestamp, and an embedded chunk of
    given page name and vector. *)
Definition env0 : Process :=
  {| CACHE_DIR := Some "data"%string; HOME := None; cwd := "/srv/app" |}.

Definition timestamp0 : jsstring := lit "2025-01-01T00:00:00.000Z".

Definition embedded (pageName : string) (v : list float) : Embedder.EmbeddedChunk :=
  {| Embedder.base := {| Embedder.id := lit "intro#overview";
                         Embedder.pageName := lit pageName;
                         Embedder.href := lit "intro.html";
                         Embedder.fullContent := lit "Overview of the tool." |};
     Embedder.embedding := v |}.

(** A cache whose only chunk has an embedding and none of the fields
    [id], [pageName], [href], [fullContent]; and a cache without
    [chunks]. *)
Definition bare_chunk : value := Obj [ ("embedding"%string, Arr [Number 1]) ].

Definition cache_of (document : value) : FileSystem :=
  fun p => if String.eqb p "data/embeddings.json" then Some (Json document) else None.

Definition invalid_chunk_cache : FileSystem :=
  cache_of (Obj [ ("version"%string, Str (lit "1.0")); ("chunks"%string, Arr [bare_chunk]) ]).

Definition no_chunks_cache : FileSystem :=
  cache_of (Obj [ ("version"%string, Str (lit "1.0")) ]).

End CacheSpec.

(** ** The chunk splitter *)

Module SplitterSpec.
Import Js Embedder.

(** The non-whitespace characters of a text, in order. *)
Definition squash (s : jsstring) : jsstring := filter (fun c => negb (is_ws c)) s.

(** The contents pushed so far, one after the other. *)
Definition contents (st : Parts) : jsstring := concat (map fullContent (subChunks st)).

(** Every sub-chunk pushed so far has the page name and the href of
    [chunk] and is within the budget. *)
Definition good (chunk : Chunk) (maxTokens : nat) (st : Parts) : Prop :=
  Forall (fun c => pageName c = pageName chunk /\ href c = href chunk
                   /\ estimateTokens (fullContent c) <= maxTokens) (subChunks st).

(** The sub-chunks [splitLargeChunk] has collected when it returns. *)
Definition collected (chunk : Chunk) (maxTokens : nat) : Parts :=
  let r := pack_paragraphs chunk maxTokens (paragraphs_of (fullContent chunk))
             {| subChunks := []; partIndex := 0 |} [] in
  fst (pushBufferIfAny chunk (fst r) (snd r)).

(** The chunk of the examples, with the given content. *)
Definition section_chunk (content : jsstring) : Chunk :=
  {| id := lit "orbit#propagators"; pageName := lit "Orbit"; href := lit "orbit.html";
     fullContent := content |}.

Definition two_paragraphs : jsstring :=
  lit "Hello world. This is it!" ++ [newline; newline] ++ lit "Second paragraph".

Definition blank8 : Chunk := section_chunk (repeat " "%char 8).

(** A chunk of 1,000 characters without a paragraph break. *)
Definition long_chunk : Chunk := section_chunk (repeat "a"%char (N.to_nat 1000)).

(** Whether the children are within the budget and their contents, one
    after the other, are the content of the parent. *)
Definition conserves (parent : Chunk) (maxTokens : nat) (children : list Chunk) : bool :=
  forallb (fun c => estimateTokens (fullContent c) <=? maxTokens) children
  && if list_eq_dec ascii_dec (concat (map fullContent children)) (fullContent parent)
     then true else false.

Definition blank_lines : Chunk :=
  section_chunk (lit "   " ++ [newline; newline] ++ lit "  " ++ [newline] ++ lit " ").

End SplitterSpec.

(** ** The embedding batcher *)

Module BatcherSpec.
Import Js Embedder SplitterSpec.

(** The estimated token count of a chunk. *)
Definition tokensOf (c : Chunk) : nat := estimateTokens (fullContent c).

(** The estimated token sum of a batch. *)
Definition tokens (batch : list Chunk) : nat := list_sum (map tokensOf batch).

(** Every chunk of the batch but the first was added to a batch that
    held fewer than [MAX_BATCH_SIZE] chunks and that it kept within
    [MAX_TOKENS_PER_BATCH]. *)
Definition packed (batch : list Chunk) : Prop :=
  forall before chunk after,
    batch = before ++ chunk :: after -> before <> [] ->
    length before < MAX_BATCH_SIZE
    /\ tokens before + tokensOf chunk <= MAX_TOKENS_PER_BATCH.

(** The chunk that starts a batch did not fit the batch closed before it. *)
Definition closes (batch next : list Chunk) : Prop :=
  match next with
  | chunk :: _ =>
      MAX_BATCH_SIZE <= length batch
      \/ MAX_TOKENS_PER_BATCH < tokens batch + tokensOf chunk
  | [] => False
  end.

(** Each batch but the last was closed by the chunk that starts the
    next one. *)
Fixpoint closed (batches : list (list Chunk)) : Prop :=
  match batches with
  | batch :: rest =>
      match rest with
      | next :: _ => closes batch next /\ closed rest
      | [] => True
      end
  | [] => True
  end.

(** The invariant of the batching loop: the token counter is the token
    sum of the current batch, and the current batch and the batches
    handed so far were filled within the limits. *)
Definition sound (st : Batching) : Prop :=
  currentBatchTokens st = tokens (currentBatch st)
  /\ packed (currentBatch st)
  /\ Forall (fun b => b <> [] /\ packed b) (handed st).

(** The batches handed so far and the current batch form a chain. *)
Definition chained (st : Batching) : Prop :=
  match currentBatch st with
  | [] => handed st = []
  | _ :: _ => closed (handed st ++ [currentBatch st])
  end.

(** The state in which the batching loop starts. *)
Definition start : Batching :=
  {| currentBatch := []; currentBatchTokens := 0; embeddedChunks := []; handed := [] |}.

(** An [embedBatch] that answers every text with the same vector. *)
Definition constant_embedding (texts : list jsstring) : option (list (list float)) :=
  Some (map (fun _ => [1%float]) texts).

(** Fifty-one chunks of one token each. *)
Definition fifty_one : list Chunk := repeat (section_chunk (lit "a")) 51.

(** A chunk of 24004 line feeds: no paragraph that is not blank, 6001
    tokens. *)
Definition blank_page : Chunk := section_chunk (repeat newline (N.to_nat 24004)).

End BatcherSpec.

(** ** The order of the floats *)

Module Float64Order.
Local Open Scope Z_scope.

(** The place of a float that is a number in the order of the floats:
    its class, from minus infinity to plus infinity, then its exponent
    and its mantissa, which count downwards for a negative float. *)
Definition rank (x : spec_float) : Z * Z * Z :=
  match x with
  | S754_zero _ | S754_nan => (0, 0, 0)
  | S754_infinity s => (if s then -2 else 2, 0, 0)
  | S754_finite s m e => if s then (-1, - e, - Zpos m) else (1, e, Zpos m)
  end.

(** The lexicographic comparison of two places. *)
Definition compare_ranks (a b : Z * Z * Z) : comparison :=
  let '(a1, a2, a3) := a in
  let '(b1, b2, b3) := b in
  match a1 ?= b1 with
  | Eq =>
      match a2 ?= b2 with
      | Eq => a3 ?= b3
      | c => c
      end
  | c => c
  end.

End Float64Order.

(** ** The ranking of the search engine *)

Module RankingSpec.
Import Js Search SearchSpec.
Local Open Scope float_scope.

(** The results of a list whose score equals [s], in the order of the
    list. *)
Definition ties (s : float) (results : list SearchResult) : list SearchResult :=
  filter (fun r => score r =? s) results.

(** Three chunks two of which, the first and the last, have the same
    cosine similarity, 0.6, to the query [(1, 0)]. *)
Definition tied : list SearchChunk :=
  [ {| id := lit "a#x"; pageName := lit "A"; href := lit "a.html";
       fullContent := lit "first"; embedding := [3; 4] |};
    {| id := lit "a#y"; pageName := lit "A"; href := lit "a.html";
       fullContent := lit "second"; embedding := [1; 0] |};
    {| id := lit "b#z"; pageName := lit "B"; href := lit "b.html";
       fullContent := lit "third"; embedding := [6; 8] |} ].

Definition engine_tied : SearchEngine :=
  {| chunks := Arr (map chunk_value tied); isLoaded := true; cacheDir := "data" |}.

(** The contents of the chunks of the results of a query. *)
Definition contents_of (r : completion (list SearchResult) * SearchEngine) : list string :=
  match fst r with
  | Normal results =>
      map (fun r => match get (chunk r) "fullContent" with
                    | Normal (Str s) => string_of_list_ascii s
                    | _ => ""%string
                    end) results
  | _ => []
  end.

(** The chunk the engine holds for an embedded chunk that was saved: a
    negative zero of its vector is read back as zero. *)
Definition reloaded (c : Embedder.EmbeddedChunk) : SearchChunk :=
  {| id := Embedder.id (Embedder.base c);
     pageName := Embedder.pageName (Embedder.base c);
     href := Embedder.href (Embedder.base c);
     fullContent := Embedder.fullContent (Embedder.base c);
     embedding := map (fun x => if PrimFloat.is_zero x then 0 else x) (Embedder.embedding c) |}.

End RankingSpec.

(** ** The validation of the cache *)

Module ValidationSpec.
Import Js Cache.

(** A chunk that passes the checks of [loadCache]: an object whose
    [id], [pageName], [href], [fullContent] and [embedding] are truthy,
    the last being an array. *)
Definition checked (chunk : value) : Prop :=
  exists fields,
    chunk = Obj fields
    /\ truthy (lookup "id" fields) = true
    /\ truthy (lookup "pageName" fields) = true
    /\ truthy (lookup "href" fields) = true
    /\ truthy (lookup "fullContent" fields) = true
    /\ isArray (lookup "embedding" fields) = true.

(** A chunk whose [id] is a number and whose vector holds a string. *)
Definition odd_chunk : value :=
  Obj [ ("id"%string, Number 5%float);
        ("pageName"%string, Str (lit "A"));
        ("href"%string, Bool true);
        ("fullContent"%string, Arr []);
        ("embedding"%string, Arr [Str (lit "x")]) ].

(** An object whose property [toString] hides the method it inherits. *)
Definition hidden_toString : value := Obj [ ("toString"%string, Number 1%float) ].

(** A process whose [CACHE_DIR] starts with a dot, and a file system
    that shows a file at every path. *)
Definition env_dot : Process :=
  {| CACHE_DIR := Some "./data"%string; HOME := None; cwd := "/srv/app" |}.

Definition everywhere : FileSystem := fun _ => Some Garbage.

(** A file system without any file. *)
Definition no_cache : FileSystem := fun _ => None.

(** A process whose [CACHE_DIR] starts with a tilde. *)
Definition env_home : Process :=
  {| CACHE_DIR := Some "~/cache"%string; HOME := Some "/home/u"%string; cwd := "/srv/app" |}.

(** A document with a timestamp and nothing else. *)
Definition stamped : FileSystem :=
  CacheSpec.cache_of (Obj [ ("timestamp"%string, Str CacheSpec.timestamp0) ]).

End ValidationSpec.

(** ** The search tool *)

Module ToolSpec.
Import Js Search SearchSpec GmatDocs.

(** An API that answers every query with the vector [(1, 0)], and one
    that fails. *)
Definition embed_east (query : jsstring) : completion (list float) := Normal query3.

Definition embed_down (query : jsstring) : completion (list float) :=
  Throw (Error "Connection error.").

(** The arguments of a request that gives the query only. *)
Definition ask (query : string) : Args :=
  {| query := lit query; topK := None; minScore := None |}.

(** The text of a completion, for display. *)
Definition text_of (c : completion jsstring) : option string :=
  match c with
  | Normal text => Some (string_of_list_ascii text)
  | _ => None
  end.

End ToolSpec.

(** ** The texts of the parser *)

Module TextSpec.
Import Js.

(** The words of a text, its maximal runs of characters that are not
    whitespace; [pending] is the word under way. *)
Fixpoint words (pending s : jsstring) : list jsstring :=
  match s with
  | [] =>
      match pending with
      | [] => []
      | _ :: _ => [pending]
      end
  | c :: s' =>
      if is_ws c then
        match pending with
        | [] => words [] s'
        | _ :: _ => pending :: words [] s'
        end
      else words (pending ++ [c]) s'
  end.

(** Words put one after the other with one space in between. *)
Fixpoint unwords (ws : list jsstring) : jsstring :=
  match ws with
  | [] => []
  | w :: rest =>
      match rest with
      | [] => w
      | _ :: _ => w ++ " "%char :: unwords rest
      end
  end.

(** A word: a text that is not empty and has no whitespace. *)
Definition word (w : jsstring) : Prop := w <> [] /\ Forall (fun c => is_ws c = false) w.

(** The characters of an anchor: small letters, digits, the underscore
    and the hyphen. *)
Definition is_anchor (c : ascii) : bool :=
  let n := N_of_ascii c in
  (((48 <=? n) && (n <=? 57)) || ((97 <=? n) && (n <=? 122)) || (n =? 95) || (n =? 45))%N.

(** Two pages of the examples. *)
Definition pages2 : list Parser.Page :=
  [ {| Parser.name := lit "Propagator"; Parser.href := lit "Propagator.html" |};
    {| Parser.name := []; Parser.href := lit "Untitled.html" |} ].

End TextSpec.

(** ** The parts of the splitter *)

Module PartsSpec.
Import Js Embedder SplitterSpec.

(** A text that ends with a sentence terminator. *)
Definition ends_sentence (s : jsstring) : Prop :=
  exists s' c, s = s' ++ [c] /\ is_terminator c = true.

(** The id of the part of index [k] of a chunk. *)
Definition part_id (chunk : Chunk) (k : nat) : jsstring :=
  id chunk ++ lit "_part_" ++ decimal k.

(** The sub-chunks pushed so far are numbered from 0 in the order in
    which they were pushed, and none has an empty content. *)
Definition numbered (chunk : Chunk) (st : Parts) : Prop :=
  map id (subChunks st) = map (part_id chunk) (seq 0 (partIndex st))
  /\ Forall (fun c => fullContent c <> []) (subChunks st).

(** A text of three sentences. *)
Definition three_sentences : jsstring := lit "One. Two!  Is it three? yes".

End PartsSpec.

(** ** Paths *)

Module PathSpec.
Import Js.

(** A name that is not empty, [.] or [..]. *)
Definition plain_name (name : list ascii) : Prop :=
  is_name "" name = false /\ is_name "." name = false /\ is_name ".." name = false.

End PathSpec.

(** ** The conservation of the content by the splitter *)

Module ConservationSpec.
Import Js Embedder SplitterSpec PartsSpec.

(** A text of whitespace, possibly empty. *)
Definition blank (w : jsstring) : Prop := squash w = [].

(** The whitespace between two paragraphs: it holds two line feeds in a
    row. *)
Definition paragraph_gap (w : jsstring) : Prop :=
  blank w /\ exists a b, w = a ++ [newline; newline] ++ b.

(** [rewritten piece child]: the child is the piece of the parent, but
    for whitespace at the boundaries of paragraphs and of sentences.
    Whitespace of the piece that holds two line feeds in a row, the
    boundary of two paragraphs, may have become two line feeds, and
    whitespace of the piece that follows a sentence terminator, the
    boundary of two sentences, may have become one space.  Everything
    else is as it is in the piece. *)
Inductive rewritten : jsstring -> jsstring -> Prop :=
| rewritten_same (a : jsstring) : rewritten a a
| rewritten_paragraph (piece child gap a : jsstring) :
    rewritten piece child -> paragraph_gap gap ->
    rewritten (piece ++ gap ++ a) (child ++ [newline; newline] ++ a)
| rewritten_sentence (piece child gap a : jsstring) :
    rewritten piece child -> ends_sentence piece -> blank gap -> gap <> [] ->
    rewritten (piece ++ gap ++ a) (child ++ lit " " ++ a).

(** [conserved text children]: the children, in order, reproduce the
    text up to whitespace at boundaries.  The text is made of one piece
    for each child, in order, with whitespace, or nothing, before the
    first piece, between two pieces and after the last, and each child
    is its piece rewritten. *)
Inductive conserved : jsstring -> list jsstring -> Prop :=
| conserved_nil (w : jsstring) : blank w -> conserved w []
| conserved_cons (w piece rest child : jsstring) (children : list jsstring) :
    blank w -> rewritten piece child -> conserved rest children ->
    conserved (w ++ piece ++ rest) (child :: children).

(** [spaced gap before text atoms]: the text is the atoms, in order,
    each after whitespace, and whitespace after the last; the
    whitespace between an atom and the next satisfies [gap], and so does
    the first whitespace when an atom [before] precedes the text. *)
Fixpoint spaced (gap : jsstring -> jsstring -> Prop) (before : option jsstring)
  (text : jsstring) (atoms : list jsstring) : Prop :=
  match atoms with
  | [] => blank text
  | a :: rest =>
      exists g text',
        text = g ++ a ++ text' /\ blank g
        /\ match before with
           | Some b => gap b g
           | None => True
           end
        /\ spaced gap (Some a) text' rest
  end.

Definition between_paragraphs (before g : jsstring) : Prop := paragraph_gap g.

Definition between_sentences (before g : jsstring) : Prop := ends_sentence before /\ g <> [].

(** The contents of the sub-chunks pushed so far. *)
Definition pushed (st : Parts) : list jsstring := map fullContent (subChunks st).

(** A content of three paragraphs, the first of two sentences, with
    more whitespace than the splitter writes. *)
Definition spaced_out : jsstring :=
  lit "  One two.   Three!" ++ [newline; newline; newline] ++ lit "  Four five"
  ++ [newline; newline] ++ lit "Six." ++ [newline].

End ConservationSpec.

(** ** The output of the batcher *)

Module OutputSpec.
Import Js Embedder SplitterSpec BatcherSpec.

Section Oracle.

Variable embedBatch : list jsstring -> option (list (list float)).

(** A batch that [embedBatch] does not fail on. *)
Definition accepted (batch : list Chunk) : Prop := embedBatch (map fullContent batch) <> None.

(** The chunks of a batch with the vectors [embedBatch] returns for it. *)
Definition answered (batch : list Chunk) : list Embedded :=
  match embedBatch (map fullContent batch) with
  | Some embeddings => attach batch embeddings
  | None => []
  end.

(** The invariant of the output: as long as nothing was thrown, every
    batch handed was accepted, and the output is made of the batches
    handed, each with its vectors. *)
Definition collected_all (st : Batching) : Prop :=
  Forall accepted (handed st)
  /\ embeddedChunks st = flat_map answered (handed st).

(** What there is once a batch was refused: the batches before it were
    accepted and make the output, and the batch refused is the last one
    handed. *)
Definition stopped (st : Batching) : Prop :=
  exists before batch,
    handed st = before ++ [batch]
    /\ Forall accepted before
    /\ ~ accepted batch
    /\ embeddedChunks st = flat_map answered before.

End Oracle.

(** An [embedBatch] that fails on the batches of more than one text. *)
Definition one_at_a_time (texts : list jsstring) : option (list (list float)) :=
  match texts with
  | [_] => Some [[1%float]]
  | _ => None
  end.

(** Two chunks that make one batch. *)
Definition two_pages : list Chunk :=
  [ section_chunk (lit "Propagators advance the state.");
    section_chunk (lit "Solvers vary the controls.") ].

End OutputSpec.

(** ** The requests of the scraper and of the embedder *)

Module RetrySpec.
Import Js.

(** What [j] failed attempts at an url leave in the log, the first one
    being the attempt of number [attempt]: each request and the wait
    that follows it. *)
Fixpoint failures (url : jsstring) (attempt j : nat) : list Scraper.event :=
  match j with
  | 0 => []
  | S j' =>
      Scraper.Requested url :: Scraper.Waited (Scraper.backoff attempt)
      :: failures url (S attempt) j'
  end.

(** A wait of no more than ten seconds. *)
Definition short (e : Scraper.event) : Prop :=
  match e with
  | Scraper.Waited ms => (ms <= 10000)%N
  | Scraper.Requested _ => True
  end.

(** A list made of elements of another, in the same order. *)
Inductive subsequence {A : Type} : list A -> list A -> Prop :=
| subsequence_nil : subsequence [] []
| subsequence_skip (x : A) (l l' : list A) : subsequence l l' -> subsequence l (x :: l')
| subsequence_keep (x : A) (l l' : list A) : subsequence l l' -> subsequence (x :: l) (x :: l').

(** What [j] failed calls of the API leave in the log, likewise. *)
Fixpoint refusals (texts : list jsstring) (attempt j : nat) : list EmbedBatch.event :=
  match j with
  | 0 => []
  | S j' =>
      EmbedBatch.Called texts
      :: EmbedBatch.Waited (EmbedBatch.baseDelay attempt)
      :: refusals texts (S attempt) j'
  end.

(** A server that fails twice and then answers, one that always fails
    and one that always answers. *)
Definition third_time (n : nat) (url : jsstring) : jsstring + jsstring :=
  if n <? 2 then inr (lit "timeout of 10000ms exceeded") else inl (lit "<html></html>").

Definition unreachable (n : nat) (url : jsstring) : jsstring + jsstring :=
  inr (lit "getaddrinfo ENOTFOUND").

Definition reachable (n : nat) (url : jsstring) : jsstring + jsstring :=
  inl (lit "<html></html>").

(** An API that refuses every call, and one that refuses the first. *)
Definition overloaded (n : nat) (texts : list jsstring) : list (list float) + jsstring :=
  inr (lit "429 Too Many Requests").

Definition second_time (n : nat) (texts : list jsstring) : list (list float) + jsstring :=
  if n <? 1 then inr (lit "429 Too Many Requests") else inl (map (fun _ => [1%float]) texts).

End RetrySpec.

(** ** The setup command *)

Module SetupSpec.
Import Js Cache.

(** The command lines of [pnpm setup] and of [pnpm setup --force]. *)
Definition plain : list jsstring := [lit "node"; lit "dist/setup.js"].

Definition forced : list jsstring := [lit "node"; lit "dist/setup.js"; lit "--force"].

(** A file system with a cache of one chunk and a file beside it. *)
Definition with_cache : FileSystem :=
  saveCache CacheSpec.env0 CacheSpec.timestamp0 [CacheSpec.embedded "Intro" [1%float]]
    (fun p => if String.eqb p "data/notes.txt" then Some Garbage else None).

End SetupSpec.

(** * Properties *)

(** ** Binary64 comparison and subtraction

    The order of the non-NaN floats, and the sign of a difference, from
    the specification of the primitive operations. *)

Module Binary64.
Import Float64.
Local Open Scope Z_scope.

Lemma digits2_size (p : positive) : digits2_pos p = Pos.size p.
Proof. induction p as [p IH|p IH|]; simpl; now rewrite ?IH. Qed.

Lemma digits2_upper (p : positive) : Zpos p < 2 ^ Zpos (digits2_pos p).
Proof.
  rewrite digits2_size. pose proof (Pos.size_gt p) as H.
  apply Pos2Z.pos_lt_pos in H. now rewrite Pos2Z.inj_pow in H.
Qed.

Lemma digits2_lower (p : positive) : 2 ^ Zpos (digits2_pos p) <= 2 * Zpos p.
Proof.
  rewrite digits2_size. pose proof (Pos.size_le p) as H.
  apply Pos2Z.pos_le_pos in H. now rewrite Pos2Z.inj_pow in H.
Qed.

Lemma shr_1_div2 (mrs : shr_record) :
  0 <= shr_m mrs -> shr_m (shr_1 mrs) = shr_m mrs / 2.
Proof.
  destruct mrs as [m r s]; simpl. intros Hm.
  destruct m as [|p|p]; [reflexivity| |lia].
  destruct p as [p|p|]; simpl shr_m.
  - rewrite Pos2Z.inj_xI. apply Z.div_unique with (r := 1); lia.
  - rewrite Pos2Z.inj_xO. apply Z.div_unique with (r := 0); lia.
  - reflexivity.
Qed.

Lemma iter_shr_1_div (p : positive) : forall mrs,
  0 <= shr_m mrs -> shr_m (iter_pos shr_1 p mrs) = shr_m mrs / 2 ^ Zpos p.
Proof.
  induction p as [p IH|p IH|]; intros mrs Hm; simpl iter_pos.
  - assert (H1 : 0 <= shr_m (shr_1 mrs)) by (rewrite shr_1_div2; [apply Z.div_pos|]; lia).
    assert (H2 : 0 <= shr_m (iter_pos shr_1 p (shr_1 mrs))).
    { rewrite IH by assumption. apply Z.div_pos; lia. }
    rewrite IH, IH, shr_1_div2 by assumption.
    rewrite !Z.div_div by lia.
    replace (Zpos p~1) with (1 + Zpos p + Zpos p) by lia.
    rewrite !Z.pow_add_r by lia. f_equal. change (2 ^ 1) with 2. lia.
  - assert (H2 : 0 <= shr_m (iter_pos shr_1 p mrs)).
    { rewrite IH by assumption. apply Z.div_pos; lia. }
    rewrite IH, IH by assumption.
    rewrite !Z.div_div by lia.
    replace (Zpos p~0) with (Zpos p + Zpos p) by lia.
    rewrite !Z.pow_add_r by lia. reflexivity.
  - rewrite shr_1_div2 by assumption. reflexivity.
Qed.

Lemma emin_value : emin = -1074.
Proof. reflexivity. Qed.

Lemma fexp_value (e : Z) : fexp prec emax e = Z.max (e - 53) (-1074).
Proof. reflexivity. Qed.

(** Shifting a positive mantissa whose exponent is at least [emin] to its
    canonical exponent never empties it. *)
Lemma shr_fexp_pos (m e : Z) (l : location) :
  0 < m -> emin <= e ->
  0 < shr_m (fst (shr_fexp prec emax m e l)) /\ emin <= snd (shr_fexp prec emax m e l).
Proof.
  intros Hm He. rewrite emin_value in *. unfold shr_fexp, shr. rewrite fexp_value.
  assert (Hrec : shr_m (shr_record_of_loc m l) = m) by (destruct l as [|[]]; reflexivity).
  destruct m as [|p|p]; try lia. simpl Zdigits2.
  destruct (Z.max (Zpos (digits2_pos p) + e - 53) (-1074) - e) as [|n|n] eqn:Hn;
    simpl fst; simpl snd; rewrite ?Hrec; try (split; lia).
  split; [|lia].
  rewrite iter_shr_1_div by (rewrite Hrec; lia). rewrite Hrec.
  assert (Hd : Zpos n = Zpos (digits2_pos p) - 53) by lia.
  pose proof (digits2_lower p) as Hlo.
  replace (Zpos (digits2_pos p)) with (Zpos n + 53) in Hlo by lia.
  rewrite Z.pow_add_r in Hlo by lia.
  apply Z.div_str_pos. split; [apply Z.pow_pos_nonneg; lia|].
  assert (2 <= 2 ^ 53) by (change (2 ^ 53) with 9007199254740992; lia).
  assert (0 < 2 ^ Zpos n) by (apply Z.pow_pos_nonneg; lia).
  nia.
Qed.

Lemma round_nearest_even_ge (m : Z) (l : location) : m <= round_nearest_even m l.
Proof. destruct l as [|[]]; simpl; try lia. destruct (Z.even m); lia. Qed.

Lemma binary_round_aux_signed (s : bool) (m e : Z) (l : location) :
  0 < m -> emin <= e -> sf_signed s (binary_round_aux prec emax s m e l).
Proof.
  intros Hm He. unfold binary_round_aux.
  destruct (shr_fexp_pos m e l Hm He) as [H1 H1e].
  destruct (shr_fexp prec emax m e l) as [mrs' e']. simpl in H1, H1e.
  pose proof (round_nearest_even_ge (shr_m mrs') (loc_of_shr_record mrs')) as Hr.
  destruct (shr_fexp_pos (round_nearest_even (shr_m mrs') (loc_of_shr_record mrs')) e' loc_Exact
              ltac:(lia) H1e) as [H2 _].
  destruct (shr_fexp prec emax _ e' loc_Exact) as [mrs'' e'']. simpl in H2.
  destruct (shr_m mrs'') as [|q|q]; try lia.
  destruct (e'' <=? emax - prec); constructor.
Qed.

Lemma binary_round_signed (s : bool) (m : positive) (e : Z) :
  emin <= e -> sf_signed s (binary_round prec emax s m e).
Proof.
  intros He. unfold binary_round, shl_align.
  destruct (fexp prec emax (Zpos (digits2_pos m) + e) - e) as [|d|d] eqn:Hd;
    apply binary_round_aux_signed; try lia.
  rewrite fexp_value in *. rewrite emin_value in *. lia.
Qed.

(** A valid finite float has a canonical mantissa and exponent. *)
Lemma bounded_canonical (m : positive) (e : Z) :
  bounded prec emax m e = true ->
  emin <= e /\ Zpos (digits2_pos m) <= 53 /\ (emin < e -> Zpos (digits2_pos m) = 53).
Proof.
  unfold bounded, canonical_mantissa. rewrite fexp_value, emin_value.
  intros H. apply andb_prop in H. destruct H as [H _].
  apply Z.eqb_eq in H. lia.
Qed.

Lemma shl_align_value (m : positive) (e ez : Z) :
  ez <= e -> Zpos (fst (shl_align m e ez)) = Zpos m * 2 ^ (e - ez).
Proof.
  intros Hle. unfold shl_align.
  destruct (ez - e) as [|d|d] eqn:Hd; simpl fst; try lia.
  - replace (e - ez) with 0 by lia. lia.
  - change (Pos.iter xO m d) with (shift_pos d m).
    rewrite shift_pos_correct. change (Z.pow_pos 2 d) with (2 ^ Zpos d).
    replace (e - ez) with (Zpos d) by lia. lia.
Qed.

(** Between two canonical floats the one with the smaller exponent is the
    smaller in magnitude. *)
Lemma canonical_exponent_lt (m1 m2 : positive) (e1 e2 : Z) :
  bounded prec emax m1 e1 = true -> bounded prec emax m2 e2 = true ->
  e1 < e2 -> Zpos m1 < Zpos m2 * 2 ^ (e2 - e1).
Proof.
  intros B1 B2 Hlt.
  destruct (bounded_canonical _ _ B1) as (He1 & Hd1 & _).
  destruct (bounded_canonical _ _ B2) as (He2 & _ & Hd2).
  pose proof (digits2_upper m1) as Hu. pose proof (digits2_lower m2) as Hl.
  rewrite Hd2 in Hl by lia.
  assert (Hp : 2 ^ Zpos (digits2_pos m1) <= 2 ^ 53) by (apply Z.pow_le_mono_r; lia).
  assert (H2 : 2 ^ 1 <= 2 ^ (e2 - e1)) by (apply Z.pow_le_mono_r; lia).
  change (2 ^ 1) with 2 in H2. nia.
Qed.

Lemma aligned_shl (s : bool) (m : positive) (e ez : Z) :
  ez <= e -> cond_Zopp s (Zpos (fst (shl_align m e ez))) = aligned s m e ez.
Proof. intros H. unfold aligned. now rewrite shl_align_value. Qed.

Lemma SFcompare_finite (s1 s2 : bool) (m1 m2 : positive) (e1 e2 : Z) :
  bounded prec emax m1 e1 = true -> bounded prec emax m2 e2 = true ->
  SFcompare (S754_finite s1 m1 e1) (S754_finite s2 m2 e2)
  = Some (aligned s1 m1 e1 (Z.min e1 e2) ?= aligned s2 m2 e2 (Z.min e1 e2)).
Proof.
  intros B1 B2. unfold aligned. simpl SFcompare.
  assert (P1 : 0 < Zpos m1 * 2 ^ (e1 - Z.min e1 e2)).
  { apply Z.mul_pos_pos; [lia|apply Z.pow_pos_nonneg; lia]. }
  assert (P2 : 0 < Zpos m2 * 2 ^ (e2 - Z.min e1 e2)).
  { apply Z.mul_pos_pos; [lia|apply Z.pow_pos_nonneg; lia]. }
  assert (Hc : (Zpos m1 * 2 ^ (e1 - Z.min e1 e2) ?= Zpos m2 * 2 ^ (e2 - Z.min e1 e2))
               = match e1 ?= e2 with
                 | Eq => Pos.compare_cont Eq m1 m2
                 | Lt => Lt
                 | Gt => Gt
                 end).
  { destruct (Z.compare_spec e1 e2) as [E|E|E].
    - subst e2. rewrite Z.min_id, Z.sub_diag, !Z.mul_1_r. reflexivity.
    - rewrite Z.min_l, Z.sub_diag, Z.mul_1_r by lia.
      apply Z.compare_lt_iff. now apply canonical_exponent_lt.
    - rewrite Z.min_r, Z.sub_diag, Z.mul_1_r by lia.
      apply Z.compare_gt_iff. now apply canonical_exponent_lt. }
  set (a1 := Zpos m1 * 2 ^ (e1 - Z.min e1 e2)) in *.
  set (a2 := Zpos m2 * 2 ^ (e2 - Z.min e1 e2)) in *.
  destruct s1, s2; simpl cond_Zopp; f_equal.
  - rewrite Z.compare_opp, (Z.compare_antisym a1 a2), Hc. now destruct (e1 ?= e2).
  - symmetry. apply Z.compare_lt_iff. lia.
  - symmetry. apply Z.compare_gt_iff. lia.
  - now rewrite Hc.
Qed.

Lemma sf_signed_positive (s : bool) (x : spec_float) :
  sf_signed s x -> SFltb (S754_zero false) x = negb s.
Proof. intros [m e|]; now destruct s. Qed.

(** The sign of a rounded difference is the sign of the exact difference:
    [0 < v - u] holds exactly when [u < v]. *)
Lemma SFsub_positive (u v : spec_float) :
  valid_binary u = true -> valid_binary v = true ->
  u <> S754_nan -> v <> S754_nan ->
  SFltb (S754_zero false) (SF64sub v u) = SFltb u v.
Proof.
  intros Vu Vv Nu Nv.
  destruct u as [su|su| |su mu eu]; try congruence;
    destruct v as [sv|sv| |sv mv ev]; try congruence;
    try (now destruct su, sv).
  simpl in Vu, Vv. unfold SFltb at 2. rewrite SFcompare_finite by assumption.
  unfold SF64sub, SFsub.
  destruct (bounded_canonical _ _ Vu) as (Hu & _). destruct (bounded_canonical _ _ Vv) as (Hv & _).
  rewrite !aligned_shl by lia.
  set (a := aligned sv mv ev (Z.min ev eu)).
  set (b := aligned su mu eu (Z.min ev eu)).
  rewrite (Z.min_comm eu ev). fold a b.
  unfold binary_normalize.
  destruct (a - b) as [|d|d] eqn:Hd.
  - destruct (Z.compare_spec b a); try reflexivity; lia.
  - rewrite (sf_signed_positive false) by (apply binary_round_signed; lia).
    destruct (Z.compare_spec b a); try reflexivity; lia.
  - rewrite (sf_signed_positive true) by (apply binary_round_signed; lia).
    destruct (Z.compare_spec b a); try reflexivity; lia.
Qed.

Lemma SFcompare_antisym (x y : spec_float) :
  SFcompare y x = option_map CompOpp (SFcompare x y).
Proof.
  destruct x as [sx|sx| |sx mx ex], y as [sy|sy| |sy my ey]; simpl;
    try reflexivity; try (destruct sx; reflexivity); try (destruct sy; reflexivity);
    try (destruct sx, sy; reflexivity).
  destruct sx, sy; try reflexivity; f_equal;
    rewrite (Z.compare_antisym ex ey); destruct (ex ?= ey); simpl; try reflexivity.
  - f_equal. symmetry. exact (Pos.compare_cont_antisym mx my Eq).
  - symmetry. exact (Pos.compare_cont_antisym mx my Eq).
Qed.

Lemma leb_not_nan (x y : float) : (x <=? y)%float = true -> not_nan x /\ not_nan y.
Proof.
  rewrite leb_spec. unfold not_nan, SFleb.
  destruct (Prim2SF x), (Prim2SF y); simpl; intros H; split; congruence.
Qed.

Lemma ltb_leb (x y : float) : (x <? y)%float = true -> (x <=? y)%float = true.
Proof.
  rewrite ltb_spec, leb_spec. unfold SFltb, SFleb.
  now destruct (SFcompare (Prim2SF x) (Prim2SF y)) as [[]|].
Qed.

Lemma SFcompare_defined (x y : spec_float) :
  x <> S754_nan -> y <> S754_nan -> exists c, SFcompare x y = Some c.
Proof.
  destruct x, y; simpl; intros Hx Hy; try congruence; eexists; reflexivity.
Qed.

Lemma not_ltb_geb (x y : float) :
  not_nan x -> not_nan y -> (x <? y)%float = false -> (y <=? x)%float = true.
Proof.
  unfold not_nan. rewrite ltb_spec, leb_spec. unfold SFltb, SFleb.
  rewrite (SFcompare_antisym (Prim2SF x) (Prim2SF y)).
  intros Hx Hy. destruct (SFcompare_defined _ _ Hx Hy) as [c ->].
  destruct c; simpl; congruence.
Qed.

(** [comparefn(a, b) = b - a > 0] holds exactly when [a < b]. *)
Lemma sub_positive (x y : float) :
  not_nan x -> not_nan y -> (0 <? y - x)%float = (x <? y)%float.
Proof.
  intros Hx Hy. rewrite !ltb_spec, sub_spec.
  change (Prim2SF 0) with (S754_zero false).
  apply SFsub_positive; auto using Prim2SF_valid.
Qed.

End Binary64.

(** ** The search engine *)

Section SearchLemmas.
Import Js Search SearchSpec.
Local Open Scope float_scope.

Lemma numbers_Number (v : list float) : numbers (map Number v) = Some v.
Proof. induction v as [|x v IH]; simpl; [reflexivity|now rewrite IH]. Qed.

Lemma cosineSimilarity_cosine (a b : list float) :
  length a = length b -> cosineSimilarity a b = Normal (cosine a b).
Proof.
  intros H. unfold cosineSimilarity, cosine.
  rewrite H, Nat.eqb_refl. simpl negb. cbv iota.
  destruct (accumulate a b 0 0 0) as [[d na] nb].
  now destruct ((na =? 0) || (nb =? 0)).
Qed.

Lemma scan_hits (q : list float) (minScore : float) (cs : list SearchChunk) :
  Forall (fun c => length (embedding c) = length q) cs ->
  scan q minScore (map chunk_value cs) = Normal (hits q minScore cs).
Proof.
  induction 1 as [|c cs Hc _ IH]; [reflexivity|].
  cbn [map scan]. change (get (chunk_value c) "embedding")
    with (Normal (Arr (map Number (embedding c)))).
  cbn [bind similarity]. rewrite numbers_Number, cosineSimilarity_cosine by auto.
  cbn [bind]. rewrite IH. cbn [bind hits flat_map].
  now destruct (minScore <=? cosine q (embedding c)).
Qed.

Lemma sort_insert_Permutation {A : Type} (f : A -> A -> float) (a : A) (l : list A) :
  Permutation (sort_insert f a l) (a :: l).
Proof.
  induction l as [|b l IH]; simpl; [reflexivity|].
  destruct (0 <? f a b); [|reflexivity].
  rewrite IH. apply perm_swap.
Qed.

Lemma sort_Permutation {A : Type} (f : A -> A -> float) (l : list A) :
  Permutation (sort f l) l.
Proof.
  induction l as [|a l IH]; simpl; [reflexivity|].
  rewrite sort_insert_Permutation. now constructor.
Qed.

Lemma sort_insert_Sorted (a : SearchResult) (l : list SearchResult) :
  scored a -> Forall scored l -> Sorted before l ->
  Sorted before (sort_insert comparefn a l).
Proof.
  intros Ha Hl Hs. induction Hs as [|b l Hs IH Hb]; simpl.
  - repeat constructor.
  - inversion Hl as [|? ? Hsb Hl']; subst.
    unfold comparefn at 1. rewrite Binary64.sub_positive by assumption.
    destruct (score a <? score b) eqn:E.
    + constructor; [now apply IH|].
      destruct l as [|c l]; simpl.
      * constructor. now apply Binary64.ltb_leb.
      * destruct (0 <? comparefn a c).
        -- inversion Hb; subst. now constructor.
        -- constructor. now apply Binary64.ltb_leb.
    + constructor; [now constructor|]. constructor.
      now apply Binary64.not_ltb_geb.
Qed.

Lemma sort_Sorted (l : list SearchResult) :
  Forall scored l -> Sorted before (sort comparefn l).
Proof.
  induction 1 as [|a l Ha Hl IH]; simpl; [constructor|].
  apply sort_insert_Sorted; auto.
  eapply Permutation_Forall; [symmetry; apply sort_Permutation|assumption].
Qed.

Lemma Sorted_descending (l : list SearchResult) : Sorted before l -> descending l.
Proof.
  induction 1 as [|a l Hs IH Ha]; intros i r r' H1 H2.
  - destruct i; discriminate.
  - destruct i as [|i]; simpl in H1, H2.
    + injection H1 as <-. destruct l as [|b l]; [discriminate|].
      injection H2 as <-. now inversion Ha.
    + eapply IH; eassumption.
Qed.

Lemma descending_firstn (k : nat) (l : list SearchResult) :
  descending l -> descending (firstn k l).
Proof.
  intros H i r r' H1 H2. apply (H i).
  - destruct (Nat.lt_ge_cases i k) as [Hi|Hi].
    + now rewrite nth_error_firstn, (proj2 (Nat.ltb_lt _ _) Hi) in H1.
    + rewrite nth_error_firstn in H1.
      destruct (Nat.ltb_spec i k); [lia|discriminate].
  - rewrite nth_error_firstn in H2. now destruct (S i <? k)%nat.
Qed.

Lemma hits_minScore (q : list float) (minScore : float) (cs : list SearchChunk) :
  Forall (fun r => (minScore <=? score r) = true) (hits q minScore cs).
Proof.
  induction cs as [|c cs IH]; simpl; [constructor|].
  apply Forall_app. split; [|assumption].
  destruct (minScore <=? cosine q (embedding c)) eqn:E; repeat constructor. exact E.
Qed.

Lemma hits_length (q : list float) (minScore : float) (cs : list SearchChunk) :
  length (hits q minScore cs)
  = length (filter (fun c => minScore <=? cosine q (embedding c)) cs).
Proof.
  induction cs as [|c cs IH]; simpl; [reflexivity|].
  rewrite length_app, IH.
  now destruct (minScore <=? cosine q (embedding c)).
Qed.

End SearchLemmas.

Section SearchTheorems.
Import Js Search SearchSpec.
Local Open Scope float_scope.

Lemma reaches_cosine (q : list float) (minScore : float) (cs : list SearchChunk) :
  Forall (fun c => length (embedding c) = length q) cs ->
  filter (reaches q minScore) cs = filter (fun c => minScore <=? cosine q (embedding c)) cs.
Proof.
  induction 1 as [|c cs Hc _ IH]; simpl; [reflexivity|].
  unfold reaches at 1. rewrite cosineSimilarity_cosine by auto. now rewrite IH.
Qed.

Lemma slice0_firstn {A : Type} (l : list A) (e : Z) :
  (0 <= e)%Z -> slice0 l e = firstn (Z.to_nat e) l.
Proof.
  intros He. unfold slice0. destruct (Z.ltb_spec e 0); [lia|].
  destruct (Z.le_ge_cases e (Z.of_nat (length l))) as [H1|H1].
  - now rewrite Z.min_l.
  - rewrite Z.min_r, Nat2Z.id by assumption.
    rewrite !firstn_all2; [reflexivity|lia|lia].
Qed.

(** C1.  On a loaded engine, with a query of the dimension of the stored
    embeddings and a non-negative [topK], [search] returns a list whose
    scores are all at least [minScore], in descending order of score, of
    length at most the least of [topK] and the number of stored chunks
    whose cosine similarity to the query reaches [minScore]; the engine
    is left as it was. *)
Theorem search_ranked (this : SearchEngine) (cs : list SearchChunk)
  (q : list float) (topK : Z) (minScore : float) :
  holds this cs ->
  Forall (fun c => length (embedding c) = length q) cs ->
  (0 <= topK)%Z ->
  exists results,
    search this q topK minScore = (Normal results, this)
    /\ Forall (fun r => (minScore <=? score r) = true) results
    /\ descending results
    /\ (Z.of_nat (length results)
        <= Z.min topK (Z.of_nat (length (filter (reaches q minScore) cs))))%Z.
Proof.
  intros [Hl Hc] Hdim Hk.
  exists (firstn (Z.to_nat topK) (sort comparefn (hits q minScore cs))).
  assert (Hmin : Forall (fun r => (minScore <=? score r) = true)
                   (sort comparefn (hits q minScore cs))).
  { eapply Permutation_Forall; [symmetry; apply sort_Permutation|apply hits_minScore]. }
  repeat split.
  - unfold search. rewrite Hl, Hc. cbn [negb iterate bind].
    rewrite scan_hits by assumption. cbn [bind]. now rewrite slice0_firstn.
  - apply Forall_forall. intros r Hr. rewrite Forall_forall in Hmin.
    apply Hmin. rewrite <- (firstn_skipn (Z.to_nat topK)). apply in_or_app. now left.
  - apply descending_firstn, Sorted_descending, sort_Sorted.
    eapply Forall_impl; [|apply hits_minScore].
    intros r Hr. exact (proj2 (Binary64.leb_not_nan _ _ Hr)).
  - rewrite length_firstn, (Permutation_length (sort_Permutation _ _)), hits_length.
    rewrite reaches_cosine by assumption. lia.
Qed.

Lemma search_ranked_witness :
  exists results,
    search engine3 query3 2 0.5 = (Normal results, engine3)
    /\ Forall (fun r => (0.5 <=? score r) = true) results
    /\ descending results
    /\ (Z.of_nat (length results)
        <= Z.min 2 (Z.of_nat (length (filter (reaches query3 0.5) corpus3))))%Z.
Proof.
  apply (search_ranked engine3 corpus3 query3 2 0.5).
  - split; reflexivity.
  - repeat constructor.
  - lia.
Defined.

Example search_engine3 : scores (search engine3 query3 2 0.5) = Some [1; 0x1.6a09e667f3bccp-1].
Proof. vm_compute. reflexivity. Qed.

(** A chunk whose embedding is the query comes back with score 1. *)
Example search_exact_match :
  scores (search (engine_of [[3; 4]]) [3; 4] 1 0x1.999999999999ap-4) = Some [1].
Proof. vm_compute. reflexivity. Qed.

(** Of two chunks scoring about 0.05 and 0.7, a threshold of 0.1 keeps
    the second only. *)
Example search_below_threshold :
  scores (search (engine_of [[1; 19]; [1; 1]]) [1; 0] 10 0x1.999999999999ap-4)
  = Some [0x1.6a09e667f3bccp-1].
Proof. vm_compute. reflexivity. Qed.

Lemma scan_mismatch (q : list float) (minScore : float) (cs : list SearchChunk) :
  Exists (fun c => length (embedding c) <> length q) cs ->
  scan q minScore (map chunk_value cs) = Throw (Error "Vectors must have the same length").
Proof.
  induction 1 as [c cs Hc|c cs _ IH];
    cbn [map scan];
    change (get (chunk_value c) "embedding") with (Normal (Arr (map Number (embedding c))));
    cbn [bind similarity]; rewrite numbers_Number.
  - unfold cosineSimilarity.
    destruct (Nat.eqb_spec (length q) (length (embedding c))) as [E|E]; [congruence|reflexivity].
  - unfold cosineSimilarity at 1.
    destruct (Nat.eqb (length q) (length (embedding c))); cbn [negb]; [|reflexivity].
    destruct (accumulate q (embedding c) 0 0 0) as [[d na] nb].
    destruct ((na =? 0) || (nb =? 0)); cbn [bind]; now rewrite IH.
Qed.

(** C7.  On a loaded engine, a query whose length differs from the
    length of some stored embedding makes [search] throw the error
    "Vectors must have the same length"; the engine is left as it was,
    and a later query of the stored dimension is answered. *)
Theorem search_dimension_mismatch (this : SearchEngine) (cs : list SearchChunk)
  (q : list float) (topK : Z) (minScore : float) :
  holds this cs ->
  Exists (fun c => length (embedding c) <> length q) cs ->
  search this q topK minScore = (Throw (Error "Vectors must have the same length"), this)
  /\ forall (q' : list float) (topK' : Z) (minScore' : float),
       Forall (fun c => length (embedding c) = length q') cs ->
       exists results,
         search (snd (search this q topK minScore)) q' topK' minScore' = (Normal results, this).
Proof.
  intros [Hl Hc] Hex.
  assert (E : search this q topK minScore
              = (Throw (Error "Vectors must have the same length"), this)).
  { unfold search. rewrite Hl, Hc. cbn [negb iterate bind].
    now rewrite scan_mismatch. }
  split; [exact E|]. intros q' topK' minScore' Hdim.
  rewrite E. cbn [snd]. unfold search. rewrite Hl, Hc. cbn [negb iterate bind].
  rewrite scan_hits by assumption. cbn [bind]. eauto.
Qed.

Lemma search_dimension_mismatch_witness :
  search engine3 query1 10 0.5 = (Throw (Error "Vectors must have the same length"), engine3)
  /\ forall (q' : list float) (topK' : Z) (minScore' : float),
       Forall (fun c => length (embedding c) = length q') corpus3 ->
       exists results,
         search (snd (search engine3 query1 10 0.5)) q' topK' minScore' = (Normal results, engine3).
Proof.
  apply (search_dimension_mismatch engine3 corpus3 query1 10 0.5).
  - split; reflexivity.
  - constructor. simpl. lia.
Defined.

Lemma loadCache_failed (fs : FileSystem) (this : SearchEngine) :
  fst (loadCache fs this) <> Normal tt -> snd (loadCache fs this) = this.
Proof.
  unfold loadCache. destruct (fs _) as [file|]; [|reflexivity].
  destruct (bind (parse file) _) as [v|e|]; simpl; [congruence|reflexivity|reflexivity].
Qed.

Lemma search_receiver (this : SearchEngine) (q : list float) (topK : Z) (minScore : float) :
  snd (search this q topK minScore) = this.
Proof. unfold search. now destruct (isLoaded this). Qed.

Lemma unloaded_isLoaded (this : SearchEngine) : unloaded this -> isLoaded this = false.
Proof.
  induction 1 as [cwd dir|fs this _ IH Hf|this q topK minScore _ IH].
  - reflexivity.
  - now rewrite loadCache_failed.
  - now rewrite search_receiver.
Qed.

(** C8.  Before any successful load, [search] throws the error "Search
    engine not loaded. Call loadCache() first.", whatever the query,
    [topK] and [minScore]; in particular it does not return an empty
    list. *)
Theorem search_before_load (this : SearchEngine) (q : list float) (topK : Z) (minScore : float) :
  unloaded this ->
  search this q topK minScore
  = (Throw (Error "Search engine not loaded. Call loadCache() first."), this)
  /\ fst (search this q topK minScore) <> Normal [].
Proof.
  intros H. apply unloaded_isLoaded in H.
  assert (E : search this q topK minScore
              = (Throw (Error "Search engine not loaded. Call loadCache() first."), this)).
  { unfold search. now rewrite H. }
  split; [exact E|]. rewrite E. discriminate.
Qed.

Lemma search_before_load_witness :
  let this := snd (loadCache broken_cache (snd (loadCache no_files engine0))) in
  search this [] 10 0x1.999999999999ap-4
  = (Throw (Error "Search engine not loaded. Call loadCache() first."), this)
  /\ fst (search this [] 10 0x1.999999999999ap-4) <> Normal [].
Proof.
  apply (search_before_load _ [] 10 0x1.999999999999ap-4).
  apply unloaded_failed; [apply unloaded_failed; [apply unloaded_new|]|]; discriminate.
Defined.

Lemma accumulate_folds (a b : list float) : forall d na nb,
  length a = length b ->
  accumulate a b d na nb
  = (fold_left (fun acc xy => acc + fst xy * snd xy) (combine a b) d,
     fold_left (fun acc x => acc + x * x) a na,
     fold_left (fun acc x => acc + x * x) b nb).
Proof.
  revert b. induction a as [|x a IH]; intros [|y b] d na nb H; try discriminate.
  - reflexivity.
  - simpl. apply IH. simpl in H. lia.
Qed.

(** C2, as the code has it.  For vectors of equal length,
    [cosineSimilarity] returns 0 when the squared norm of either vector,
    accumulated in binary64, is zero, and otherwise the binary64 quotient
    of the dot product by the product of the two norms. *)
Theorem cosineSimilarity_formula (a b : list float) :
  length a = length b ->
  cosineSimilarity a b
  = Normal (if (squaredNorm a =? 0) || (squaredNorm b =? 0) then 0
            else dot a b / (norm a * norm b)).
Proof.
  intros H. unfold cosineSimilarity. rewrite H, Nat.eqb_refl. cbn [negb].
  rewrite accumulate_folds by assumption.
  fold (dot a b) (squaredNorm a) (squaredNorm b).
  now destruct ((squaredNorm a =? 0) || (squaredNorm b =? 0)).
Qed.

Lemma cosineSimilarity_formula_witness :
  cosineSimilarity ones3 ones3
  = Normal (if (squaredNorm ones3 =? 0) || (squaredNorm ones3 =? 0) then 0
            else dot ones3 ones3 / (norm ones3 * norm ones3)).
Proof. apply (cosineSimilarity_formula ones3 ones3). reflexivity. Defined.

(** C2 as stated fails: the similarity of the non-zero vector [(1,1,1)]
    to itself is the float above 1, neither equal to 1 nor within
    [[-1,1]]; and that of [(1,1)] to itself is below 1. *)
Lemma cosineSimilarity_self_inexact :
  (exists x, cosineSimilarity ones3 ones3 = Normal x
             /\ (x =? 1) = false /\ (x <=? 1) = false)
  /\ (exists y, cosineSimilarity [1; 1] [1; 1] = Normal y /\ (y =? 1) = false).
Proof.
  split.
  - exists 0x1.0000000000001p+0. repeat split; vm_compute; reflexivity.
  - exists 0x1.ffffffffffffep-1. repeat split; vm_compute; reflexivity.
Qed.

End SearchTheorems.

(** ** Paths and files *)

Section PathLemmas.
Import Js PathSpec.

Lemma same_file_true (cwd p q : string) :
  same_file cwd p q = true
  <-> names_file p = true /\ names_file q = true /\ location cwd p = location cwd q.
Proof.
  unfold same_file.
  destruct (list_eq_dec (list_eq_dec ascii_dec) (location cwd p) (location cwd q)),
           (names_file p), (names_file q); cbn; split; try tauto; try congruence;
    intros (? & ? & ?); congruence.
Qed.

Lemma same_file_refl (cwd p : string) : names_file p = true -> same_file cwd p p = true.
Proof. intros H. now apply same_file_true. Qed.

Lemma same_file_sym (cwd p q : string) : same_file cwd p q = same_file cwd q p.
Proof.
  unfold same_file.
  destruct (list_eq_dec (list_eq_dec ascii_dec) (location cwd p) (location cwd q)),
           (list_eq_dec (list_eq_dec ascii_dec) (location cwd q) (location cwd p)),
           (names_file p), (names_file q); cbn; congruence.
Qed.

(** Paths that denote the same file denote the same files as a third. *)
Lemma same_file_trans (cwd p q r : string) :
  same_file cwd p q = true -> same_file cwd p r = same_file cwd q r.
Proof.
  intros H. apply same_file_true in H. destruct H as (Hp & Hq & H).
  unfold same_file. now rewrite Hp, Hq, H.
Qed.

Lemma list_ascii_of_string_append (s t : string) :
  list_ascii_of_string (s ++ t) = list_ascii_of_string s ++ list_ascii_of_string t.
Proof. induction s as [|c s IH]; [reflexivity|]. cbn. now rewrite IH. Qed.

Lemma names_nonempty (path : list ascii) : names path <> [].
Proof.
  destruct path as [|c rest]; cbn [names]; [discriminate|].
  destruct (is_slash c); [discriminate|]. now destruct (names rest).
Qed.

Lemma names_slash (a b : list ascii) : names (a ++ lit "/" ++ b) = names a ++ names b.
Proof.
  induction a as [|c a IH]; [reflexivity|].
  cbn [app names]. destruct (is_slash c).
  - cbn [app] in IH. now rewrite IH.
  - cbn [app] in IH. rewrite IH.
    pose proof (names_nonempty a) as N. now destruct (names a).
Qed.

(** Characters that are not slashes lengthen the last name. *)
Lemma names_plain (a f : list ascii) :
  Forall (fun c => is_slash c = false) f ->
  names (a ++ f) = removelast (names a) ++ [last (names a) [] ++ f].
Proof.
  intros Hf. induction a as [|c a IH].
  - cbn [app names removelast last]. induction Hf as [|d f Hd _ IHf]; [reflexivity|].
    cbn [names]. rewrite Hd, IHf. reflexivity.
  - cbn [app names]. pose proof (names_nonempty a) as N. destruct (is_slash c).
    + rewrite IH. destruct (names a) as [|n o]; [congruence|]. reflexivity.
    + rewrite IH. destruct (names a) as [|n [|o1 o]]; [congruence|reflexivity|reflexivity].
Qed.

Lemma names_alone (f : list ascii) :
  Forall (fun c => is_slash c = false) f -> names f = [f].
Proof. intros Hf. exact (names_plain [] f Hf). Qed.

Lemma intercalate_snoc (sep : list ascii) (l : list (list ascii)) (f : list ascii) :
  intercalate sep (l ++ [f])
  = match l with
    | [] => f
    | _ :: _ => intercalate sep l ++ sep ++ f
    end.
Proof.
  induction l as [|a [|b l] IH]; [reflexivity|reflexivity|].
  change (intercalate sep ((a :: b :: l) ++ [f]))
    with (a ++ sep ++ intercalate sep ((b :: l) ++ [f])).
  rewrite IH. change (intercalate sep (a :: b :: l)) with (a ++ sep ++ intercalate sep (b :: l)).
  now rewrite <- !app_assoc.
Qed.

Lemma climb_plain (b : bool) (res : list (list ascii)) (name : list ascii) :
  plain_name name -> climb b res name = res ++ [name].
Proof. intros (H1 & H2 & H3). unfold climb. now rewrite H1, H2, H3. Qed.

Lemma fold_climb_plain (b : bool) (l : list (list ascii)) (name : list ascii) :
  plain_name name ->
  fold_left (climb b) (l ++ [name]) [] = fold_left (climb b) l [] ++ [name].
Proof. intros H. rewrite fold_left_app. cbn [fold_left]. now apply climb_plain. Qed.

Lemma trailingSeparator_app (a : list ascii) (c : ascii) (f : list ascii) :
  trailingSeparator (a ++ f ++ [c]) = is_slash c.
Proof.
  unfold trailingSeparator. rewrite !rev_app_distr. reflexivity.
Qed.

(** The path [path.join] makes of a directory and a plain file name
    ends with the name, which follows a slash or is the whole path. *)
Lemma normalize_file (d f : list ascii) (c : ascii) :
  Forall (fun c => is_slash c = false) (f ++ [c]) -> plain_name (f ++ [c]) ->
  d = [] \/ (exists d', d = d' ++ lit "/") ->
  exists a, normalize (d ++ f ++ [c]) = a ++ f ++ [c]
            /\ (a = [] \/ exists a', a = a' ++ lit "/").
Proof.
  intros Hf Hp Hd.
  assert (N : exists l, names (d ++ f ++ [c]) = l ++ [f ++ [c]]).
  { destruct Hd as [->|[d' ->]].
    - exists []. exact (names_alone _ Hf).
    - exists (names d'). rewrite <- app_assoc, names_slash.
      now rewrite (names_alone _ Hf). }
  destruct N as [l N]. unfold normalize.
  destruct (d ++ f ++ [c]) as [|x rest] eqn:E.
  { destruct d, f; discriminate. }
  rewrite <- E in N |- *. rewrite N, fold_climb_plain by exact Hp.
  rewrite trailingSeparator_app.
  assert (Hc : is_slash c = false).
  { apply Forall_app in Hf. destruct Hf as [_ Hc]. now inversion Hc. }
  rewrite Hc.
  set (R := fold_left (climb (negb (isAbsolute (d ++ f ++ [c])))) l []).
  assert (I : intercalate (lit "/") (R ++ [f ++ [c]])
              = match R with [] => [] | _ :: _ => intercalate (lit "/") R ++ lit "/" end
                ++ f ++ [c]).
  { rewrite intercalate_snoc. destruct R; [reflexivity|]. now rewrite <- !app_assoc. }
  destruct (R ++ [f ++ [c]]) as [|name others] eqn:ER; [now destruct R|].
  rewrite I, app_nil_r, app_assoc. eexists. split; [reflexivity|].
  destruct R as [|r R'].
  - destruct (isAbsolute _); [right; now exists []|now left].
  - right. exists ((if isAbsolute (d ++ f ++ [c]) then lit "/" else [])
                   ++ intercalate (lit "/") (r :: R')).
    now rewrite <- app_assoc.
Qed.

Lemma path_join_file (dir : string) (f : list ascii) (c : ascii) :
  Forall (fun c => is_slash c = false) (f ++ [c]) -> plain_name (f ++ [c]) ->
  exists a, list_ascii_of_string (path_join dir (string_of_list_ascii (f ++ [c])))
            = a ++ f ++ [c]
            /\ (a = [] \/ exists a', a = a' ++ lit "/").
Proof.
  intros Hf Hp. unfold path_join.
  rewrite !list_ascii_of_string_of_list_ascii.
  assert (E : exists y rest, f ++ [c] = y :: rest) by (destruct f; eexists _, _; reflexivity).
  destruct E as (y & rest & E).
  destruct (list_ascii_of_string dir) as [|x d].
  - rewrite E. cbv iota beta. rewrite <- E.
    apply (normalize_file [] f c Hf Hp). now left.
  - rewrite E. cbv iota beta. rewrite <- E.
    replace ((x :: d) ++ lit "/" ++ f ++ [c]) with (((x :: d) ++ lit "/") ++ f ++ [c])
      by now rewrite <- app_assoc.
    apply (normalize_file ((x :: d) ++ lit "/") f c Hf Hp). right. now exists (x :: d).
Qed.

(** Such a path ends with a name. *)
Lemma names_file_plain (a f : list ascii) :
  a = [] \/ (exists a', a = a' ++ lit "/") ->
  Forall (fun c => is_slash c = false) f -> plain_name f ->
  names_file (string_of_list_ascii (a ++ f)) = true.
Proof.
  intros Ha Hf (H1 & H2 & H3). unfold names_file.
  rewrite list_ascii_of_string_of_list_ascii.
  assert (N : exists l, names (a ++ f) = l ++ [f]).
  { destruct Ha as [->|[a' ->]].
    - exists []. exact (names_alone _ Hf).
    - exists (names a'). rewrite <- app_assoc, names_slash.
      now rewrite (names_alone _ Hf). }
  destruct N as [l ->]. rewrite rev_app_distr. cbn [rev app].
  now rewrite H1, H2, H3.
Qed.

(** The place of such a path ends with the file name, and the place of
    the path with a suffix to the name is beside it. *)
Lemma location_file (cwd : string) (a f g : list ascii) :
  a = [] \/ (exists a', a = a' ++ lit "/") ->
  f <> [] -> Forall (fun c => is_slash c = false) (f ++ g) -> plain_name (f ++ g) ->
  exists l, location cwd (string_of_list_ascii (a ++ f ++ g)) = l ++ [f ++ g]
            /\ forall g', Forall (fun c => is_slash c = false) (f ++ g') -> plain_name (f ++ g') ->
                 location cwd (string_of_list_ascii (a ++ f ++ g')) = l ++ [f ++ g'].
Proof.
  intros Ha Hne Hf Hp.
  set (prefix := if isAbsolute (a ++ f) then a else list_ascii_of_string cwd ++ lit "/" ++ a).
  assert (Habs : forall h, isAbsolute (a ++ f ++ h) = isAbsolute (a ++ f)).
  { intros h. destruct a as [|x a]; [|reflexivity]. destruct f; [congruence|reflexivity]. }
  assert (Hpre : prefix = [] \/ exists b, prefix = b ++ lit "/").
  { unfold prefix. destruct (isAbsolute (a ++ f)); [exact Ha|]. right.
    destruct Ha as [->|[a' ->]].
    - exists (list_ascii_of_string cwd). now rewrite app_nil_r.
    - exists (list_ascii_of_string cwd ++ lit "/" ++ a'). now rewrite <- !app_assoc. }
  assert (Hn : exists l, forall h,
             Forall (fun c => is_slash c = false) (f ++ h) ->
             names (prefix ++ f ++ h) = l ++ [f ++ h]).
  { destruct Hpre as [->|[b ->]].
    - exists []. intros h Hh. exact (names_alone _ Hh).
    - exists (names b). intros h Hh. rewrite <- app_assoc, names_slash.
      now rewrite (names_alone _ Hh). }
  destruct Hn as [l Hn].
  assert (L : forall h, Forall (fun c => is_slash c = false) (f ++ h) -> plain_name (f ++ h) ->
                location cwd (string_of_list_ascii (a ++ f ++ h))
                = fold_left (climb false) l [] ++ [f ++ h]).
  { intros h Hh Hph. unfold location. rewrite list_ascii_of_string_of_list_ascii, Habs.
    assert (E : (if isAbsolute (a ++ f) then a ++ f ++ h
                 else list_ascii_of_string cwd ++ lit "/" ++ a ++ f ++ h)
                = prefix ++ f ++ h).
    { unfold prefix. destruct (isAbsolute (a ++ f)); [reflexivity|].
      now rewrite <- !app_assoc. }
    rewrite E, (Hn h Hh). now apply fold_climb_plain. }
  exists (fold_left (climb false) l []). split; [now apply L|exact L].
Qed.

End PathLemmas.

(** ** The cache store *)

Section CacheLemmas.
Import Js Cache CacheSpec.
Local Open Scope float_scope.

Lemma jsonify_numbers (v : list float) :
  map (fun i => match i with Undefined => Null | _ => jsonify i end) (map Number v)
  = map jsonify_number v.
Proof. rewrite map_map. reflexivity. Qed.

Lemma jsonify_chunk_value (c : Embedder.EmbeddedChunk) : jsonify (chunk_value c) = stored c.
Proof. unfold chunk_value, stored. cbn. now rewrite jsonify_numbers. Qed.

Lemma jsonify_chunks (cs : list Embedder.EmbeddedChunk) :
  map (fun i => match i with Undefined => Null | _ => jsonify i end) (map chunk_value cs)
  = map stored cs.
Proof.
  rewrite map_map. apply map_ext. intros c. now rewrite <- jsonify_chunk_value.
Qed.

(** The cache path is a directory and the name of the cache file, and
    the temporary path of [saveCache] has the suffix after it. *)
Lemma getCachePath_file (env : Process) :
  exists a, (a = [] \/ exists a', a = a' ++ lit "/")
    /\ getCachePath env = string_of_list_ascii (a ++ lit "embeddings.json" ++ [])
    /\ (getCachePath env ++ ".tmp")%string
       = string_of_list_ascii (a ++ lit "embeddings.json" ++ lit ".tmp").
Proof.
  destruct (path_join_file (getCacheDir env) (lit "embeddings.jso") "n"%char) as (a & E & Ha).
  { repeat (constructor; [reflexivity|]). constructor. }
  { repeat split; reflexivity. }
  change (string_of_list_ascii (lit "embeddings.jso" ++ ["n"%char])) with CACHE_FILENAME in E.
  fold (getCachePath env) in E.
  exists a. split; [exact Ha|]. split.
  - rewrite app_nil_r. change (lit "embeddings.json") with (lit "embeddings.jso" ++ ["n"%char]).
    rewrite <- E. symmetry. apply string_of_list_ascii_of_string.
  - rewrite <- (string_of_list_ascii_of_string (getCachePath env ++ ".tmp")).
    rewrite list_ascii_of_string_append, E. now rewrite <- app_assoc.
Qed.

Lemma cache_names (g : list ascii) :
  g = [] \/ g = lit ".tmp" ->
  Forall (fun c => is_slash c = false) (lit "embeddings.json" ++ g)
  /\ PathSpec.plain_name (lit "embeddings.json" ++ g).
Proof.
  intros [->| ->]; (split; [repeat (constructor; [reflexivity|]); constructor|]);
    repeat split; reflexivity.
Qed.

Lemma cachePath_file (env : Process) :
  same_file (cwd env) (getCachePath env) (getCachePath env) = true.
Proof.
  apply same_file_refl. destruct (getCachePath_file env) as (a & Ha & -> & _).
  destruct (cache_names []) as [Hf Hp]; [now left|].
  now apply names_file_plain.
Qed.

Lemma tempPath_file (env : Process) :
  same_file (cwd env) (getCachePath env ++ ".tmp") (getCachePath env ++ ".tmp") = true.
Proof.
  apply same_file_refl. destruct (getCachePath_file env) as (a & Ha & _ & ->).
  destruct (cache_names (lit ".tmp")) as [Hf Hp]; [now right|].
  now apply names_file_plain.
Qed.

Lemma saveCache_file (env : Process) (now : jsstring) (cs : list Embedder.EmbeddedChunk)
  (fs : FileSystem) :
  exists t, saveCache env now cs fs (getCachePath env)
  = Some (Json (Obj [ ("timestamp"%string, Str now);
                      ("version"%string, Str (lit "1.0"));
                      ("chunks"%string, Arr (map stored cs));
                      ("totalChunks"%string, t) ])).
Proof.
  exists (jsonify_number (number_of_nat (length cs))).
  unfold saveCache, renameSync, writeFileSync, stringify.
  rewrite cachePath_file, tempPath_file. cbn. now rewrite jsonify_chunks.
Qed.

Lemma checkChunk_stored (c : Embedder.EmbeddedChunk) :
  storable c -> checkChunk (stored c) = Normal tt.
Proof.
  destruct c as [[i p h f] v]. unfold storable, stored. cbn [Embedder.base Embedder.id
    Embedder.pageName Embedder.href Embedder.fullContent Embedder.embedding].
  intros (Hi & Hp & Hh & Hf & _).
  destruct i, p, h, f; try congruence. reflexivity.
Qed.

Lemma checkChunks_stored (cs : list Embedder.EmbeddedChunk) :
  Forall storable cs -> checkChunks (map stored cs) = Normal tt.
Proof.
  induction 1 as [|c cs Hc _ IH]; [reflexivity|].
  cbn [map checkChunks]. now rewrite checkChunk_stored, IH.
Qed.

Lemma eqb_jsonify_number (x : float) :
  PrimFloat.is_finite x = true -> deepEqual (jsonify_number x) (Number x) = true.
Proof.
  intros H. unfold jsonify_number. rewrite H.
  destruct (PrimFloat.is_zero x) eqn:Z; cbn [deepEqual].
  - unfold PrimFloat.is_zero, zero in Z. rewrite eqb_spec in Z |- *.
    unfold SFeqb in *. rewrite (Binary64.SFcompare_antisym (Prim2SF x) (Prim2SF 0)).
    now destruct (SFcompare (Prim2SF x) (Prim2SF 0)) as [[]|].
  - unfold PrimFloat.is_finite, PrimFloat.is_nan in H.
    destruct (x =? x); [reflexivity|discriminate].
Qed.

Lemma deepEqual_Arr_cons (x y : value) (xs ys : list value) :
  deepEqual (Arr (x :: xs)) (Arr (y :: ys)) = deepEqual x y && deepEqual (Arr xs) (Arr ys).
Proof. reflexivity. Qed.

Lemma deepEqual_Obj_cons (k l : string) (x y : value) (fs gs : list (string * value)) :
  deepEqual (Obj ((k, x) :: fs)) (Obj ((l, y) :: gs))
  = String.eqb k l && deepEqual x y && deepEqual (Obj fs) (Obj gs).
Proof. reflexivity. Qed.

Lemma deepEqual_Str (s : jsstring) : deepEqual (Str s) (Str s) = true.
Proof. cbn. now destruct (list_eq_dec ascii_dec s s). Qed.

Lemma deepEqual_numbers (v : list float) :
  Forall (fun x => PrimFloat.is_finite x = true) v ->
  deepEqual (Arr (map jsonify_number v)) (Arr (map Number v)) = true.
Proof.
  induction 1 as [|x v Hx _ IH]; [reflexivity|].
  cbn [map]. now rewrite deepEqual_Arr_cons, IH, eqb_jsonify_number.
Qed.

Lemma deepEqual_stored (c : Embedder.EmbeddedChunk) :
  storable c -> deepEqual (stored c) (chunk_value c) = true.
Proof.
  intros (_ & _ & _ & _ & Hv). unfold stored, chunk_value.
  rewrite !deepEqual_Obj_cons, !deepEqual_Str, !String.eqb_refl, deepEqual_numbers by assumption.
  reflexivity.
Qed.

Lemma deepEqual_chunks (cs : list Embedder.EmbeddedChunk) :
  Forall storable cs ->
  deepEqual (Arr (map stored cs)) (Arr (map chunk_value cs)) = true.
Proof.
  induction 1 as [|c cs Hc _ IH]; [reflexivity|].
  cbn [map]. now rewrite deepEqual_Arr_cons, IH, deepEqual_stored.
Qed.

End CacheLemmas.

Section CacheTheorems.
Import Js Cache CacheSpec.
Local Open Scope float_scope.

(** C6, as the code has it.  Saving embedded chunks none of whose texts
    is empty and whose vectors hold finite numbers, then loading, gives
    an array deep-equal to the chunks saved: the four texts are the same
    and the numbers are equal as floats. *)
Theorem saveCache_loadCache (env : Process) (now : jsstring)
  (cs : list Embedder.EmbeddedChunk) (fs : FileSystem) :
  Forall storable cs ->
  exists loaded,
    loadCache env (saveCache env now cs fs) = Some loaded
    /\ deepEqual loaded (Arr (map chunk_value cs)) = true.
Proof.
  intros H. exists (Arr (map stored cs)). split; [|now apply deepEqual_chunks].
  unfold loadCache. destruct (saveCache_file env now cs fs) as [t ->].
  unfold readCache. cbn [parse bind get lookup String.eqb Ascii.eqb Bool.eqb].
  cbn [truthy isArray negb orb iterate bind].
  now rewrite checkChunks_stored.
Qed.

Lemma saveCache_loadCache_witness :
  exists loaded,
    loadCache env0 (saveCache env0 timestamp0 [embedded "Intro" [1; -0; 0.5]] SearchSpec.no_files)
    = Some loaded
    /\ deepEqual loaded (Arr (map chunk_value [embedded "Intro" [1; -0; 0.5]])) = true.
Proof.
  apply (saveCache_loadCache env0 timestamp0 [embedded "Intro" [1; -0; 0.5]] SearchSpec.no_files).
  repeat constructor; discriminate.
Defined.

(** C6 as stated fails: a chunk whose page name is the empty string is
    saved but fails the checks of [loadCache], which returns [null]; and
    a vector that holds NaN comes back holding [null]. *)
Lemma saveCache_loadCache_lossy :
  loadCache env0 (saveCache env0 timestamp0 [embedded "" [1]] SearchSpec.no_files) = None
  /\ exists loaded,
       loadCache env0 (saveCache env0 timestamp0 [embedded "Intro" [nan]] SearchSpec.no_files)
       = Some loaded
       /\ deepEqual loaded (Arr (map chunk_value [embedded "Intro" [nan]])) = false.
Proof.
  split; [vm_compute; reflexivity|].
  eexists. split; vm_compute; reflexivity.
Qed.

(** C3 does not hold of the search engine.  Its [loadCache] accepts, and
    marks as loaded, a cache whose chunk lacks the required fields, and
    the engine then answers a query from it; it accepts a cache without
    [chunks] as well, and the next query fails with a TypeError, not
    with a load error.  [loadCache] of the cache store rejects both
    files. *)
Lemma SearchEngine_loadCache_unchecked :
  (Cache.loadCache env0 invalid_chunk_cache = None
   /\ Search.loadCache invalid_chunk_cache SearchSpec.engine0
      = (Normal tt, {| Search.chunks := Arr [bare_chunk];
                       Search.isLoaded := true;
                       Search.cacheDir := "data" |})
   /\ fst (Search.search (snd (Search.loadCache invalid_chunk_cache SearchSpec.engine0))
             [1] 10 0.5)
      = Normal [ {| Search.chunk := bare_chunk; Search.score := 1 |} ])
  /\ (Cache.loadCache env0 no_chunks_cache = None
      /\ Search.loadCache no_chunks_cache SearchSpec.engine0
         = (Normal tt, {| Search.chunks := Undefined;
                          Search.isLoaded := true;
                          Search.cacheDir := "data" |})
      /\ fst (Search.search (snd (Search.loadCache no_chunks_cache SearchSpec.engine0))
                [1] 10 0.5)
         = Throw TypeError).
Proof. repeat split; vm_compute; reflexivity. Qed.

(** What the search engine's [loadCache] does check: a missing file and
    a file that is not JSON make it throw and leave the engine as it
    was. *)
Lemma SearchEngine_loadCache_absent (fs : FileSystem) (this : Search.SearchEngine) :
  fs (path_join (Search.cacheDir this) "embeddings.json") = None
  \/ fs (path_join (Search.cacheDir this) "embeddings.json") = Some Garbage ->
  exists e, Search.loadCache fs this = (Throw e, this).
Proof.
  unfold Search.loadCache. intros [-> | ->]; eexists; reflexivity.
Qed.

End CacheTheorems.

(** ** The chunk splitter *)

Section SplitterLemmas.
Import Js Embedder SplitterSpec.

Lemma squash_app (s t : jsstring) : squash (s ++ t) = squash s ++ squash t.
Proof. apply filter_app. Qed.

Lemma squash_rev (s : jsstring) : squash (rev s) = rev (squash s).
Proof. unfold squash. now rewrite filter_rev. Qed.

Lemma squash_trimStart (s : jsstring) : squash (trimStart s) = squash s.
Proof.
  induction s as [|c s IH]; [reflexivity|]. simpl.
  destruct (is_ws c) eqn:E; simpl; rewrite ?E; [exact IH|reflexivity].
Qed.

Lemma squash_trimEnd (s : jsstring) : squash (trimEnd s) = squash s.
Proof.
  unfold trimEnd. now rewrite squash_rev, squash_trimStart, squash_rev, rev_involutive.
Qed.

Lemma squash_trim (s : jsstring) : squash (trim s) = squash s.
Proof. unfold trim. now rewrite squash_trimEnd, squash_trimStart. Qed.

Lemma trimStart_head (s : jsstring) :
  trimStart s = [] \/ exists c t, trimStart s = c :: t /\ is_ws c = false.
Proof.
  induction s as [|c s IH]; simpl; [now left|].
  destruct (is_ws c) eqn:E; [exact IH|]. right. now exists c, s.
Qed.

(** A text trims to the empty string exactly when it has no
    non-whitespace character. *)
Lemma trim_empty (s : jsstring) : trim s = [] <-> squash s = [].
Proof.
  split; intros H.
  - rewrite <- squash_trim, H. reflexivity.
  - unfold trim. destruct (trimStart_head s) as [E|(c & t & E & Hc)].
    + now rewrite E.
    + exfalso. rewrite <- squash_trimStart, E in H. simpl in H.
      rewrite Hc in H. discriminate.
Qed.

Lemma nonempty_trim (s : jsstring) : nonempty (trim s) = true <-> squash s <> [].
Proof.
  unfold nonempty. rewrite <- trim_empty.
  destruct (trim s); simpl; split; congruence.
Qed.

Lemma squash_concat_filter (l : list jsstring) :
  squash (concat (filter (fun p => nonempty (trim p)) l)) = squash (concat l).
Proof.
  induction l as [|p l IH]; [reflexivity|]. simpl.
  destruct (nonempty (trim p)) eqn:E; simpl; rewrite !squash_app, IH; [reflexivity|].
  destruct (squash p) eqn:S; [reflexivity|].
  assert (H : squash p <> []) by (rewrite S; discriminate).
  apply nonempty_trim in H. congruence.
Qed.

Lemma squash_concat_map_trim (l : list jsstring) :
  squash (concat (filter nonempty (map trim l))) = squash (concat l).
Proof.
  induction l as [|p l IH]; [reflexivity|]. simpl.
  destruct (nonempty (trim p)) eqn:E; simpl; rewrite !squash_app, IH.
  - now rewrite squash_trim.
  - destruct (squash p) eqn:S; [reflexivity|].
    assert (H : squash p <> []) by (rewrite S; discriminate).
    apply nonempty_trim in H. congruence.
Qed.

Lemma is_newline_ws (c : ascii) : is_newline c = true -> is_ws c = true.
Proof.
  unfold is_newline, is_ws. intros H. apply N.eqb_eq in H. now rewrite H.
Qed.

Lemma split_paragraphs_step (pending : jsstring) (c d : ascii) (rest : jsstring) :
  split_paragraphs pending (c :: d :: rest)
  = if is_newline c && is_newline d then pending :: split_paragraphs [] rest
    else split_paragraphs (pending ++ [c]) (d :: rest).
Proof. reflexivity. Qed.

Lemma split_paragraphs_squash (n : nat) : forall pending text,
  length text <= n ->
  squash (concat (split_paragraphs pending text)) = squash (pending ++ text).
Proof.
  induction n as [|n IH]; intros pending text Hn.
  - destruct text; [|simpl in Hn; lia]. simpl. now rewrite !app_nil_r.
  - destruct text as [|c [|d rest]].
    + simpl. now rewrite !app_nil_r.
    + simpl. now rewrite app_nil_r.
    + rewrite split_paragraphs_step. simpl in Hn.
      destruct (is_newline c && is_newline d) eqn:E.
      * apply andb_prop in E. destruct E as [Ec Ed].
        apply is_newline_ws in Ec, Ed.
        cbn [concat]. rewrite !squash_app, IH by lia.
        simpl. now rewrite Ec, Ed.
      * rewrite IH by (simpl; lia). now rewrite <- app_assoc.
Qed.

Lemma paragraphs_of_squash (content : jsstring) :
  squash (concat (paragraphs_of content)) = squash content.
Proof.
  unfold paragraphs_of.
  now rewrite squash_concat_filter, (split_paragraphs_squash (length content)).
Qed.

Lemma sentence_matches_step (pending : jsstring) (c : ascii) (rest : jsstring) :
  sentence_matches pending (c :: rest)
  = if is_terminator c then
      match rest with
      | [] => [pending ++ [c]]
      | d :: rest' =>
          if is_ws d then (pending ++ [c; d]) :: sentence_matches [] rest'
          else sentence_matches (pending ++ [c]) rest
      end
    else sentence_matches (pending ++ [c]) rest.
Proof. reflexivity. Qed.

Lemma sentence_matches_concat (n : nat) : forall pending text,
  length text <= n -> concat (sentence_matches pending text) = pending ++ text.
Proof.
  induction n as [|n IH]; intros pending text Hn.
  - destruct text; [|simpl in Hn; lia]. destruct pending; simpl; now rewrite ?app_nil_r.
  - destruct text as [|c rest].
    + destruct pending; simpl; now rewrite ?app_nil_r.
    + rewrite sentence_matches_step. simpl in Hn.
      destruct (is_terminator c).
      * destruct rest as [|d rest']; [simpl; now rewrite app_nil_r|].
        simpl in Hn. destruct (is_ws d).
        -- cbn [concat]. rewrite IH by lia. now rewrite <- app_assoc.
        -- rewrite IH by (simpl; lia). now rewrite <- app_assoc.
      * rewrite IH by lia. now rewrite <- app_assoc.
Qed.

Lemma splitBySentences_squash (text : jsstring) :
  squash (concat (splitBySentences text)) = squash text.
Proof.
  unfold splitBySentences.
  now rewrite squash_concat_map_trim, (sentence_matches_concat (length text)).
Qed.

Lemma splitBySentences_nonempty (text : jsstring) :
  Forall (fun s => s <> []) (splitBySentences text).
Proof.
  unfold splitBySentences. apply Forall_forall. intros s Hs.
  apply filter_In in Hs. destruct Hs as [_ H]. now destruct s.
Qed.

Lemma slices_concat (k : nat) : forall fuel text,
  0 < k -> length text <= fuel -> concat (slices fuel k text) = text.
Proof.
  induction fuel as [|fuel IH]; intros text Hk Hf.
  - destruct text; [reflexivity|simpl in Hf; lia].
  - destruct text as [|c rest]; [reflexivity|].
    cbn [slices concat]. rewrite IH; [apply firstn_skipn|assumption|].
    rewrite length_skipn. simpl length in *. lia.
Qed.

Lemma slices_length (k : nat) : forall fuel text,
  Forall (fun s => length s <= k) (slices fuel k text).
Proof.
  induction fuel as [|fuel IH]; intros text; [constructor|].
  destruct text as [|c rest]; [constructor|].
  cbn [slices]. constructor; [|apply IH].
  rewrite length_firstn. lia.
Qed.

Lemma charLimit_positive (maxTokens : nat) : 0 < charLimit maxTokens.
Proof. unfold charLimit. lia. Qed.

Lemma charLimit_tokens (maxTokens : nat) (s : jsstring) :
  0 < maxTokens -> length s <= charLimit maxTokens -> estimateTokens s <= maxTokens.
Proof.
  unfold charLimit, estimateTokens. intros Hm Hs.
  assert (H : 4 * maxTokens * 9 / 10 <= 4 * maxTokens).
  { apply Nat.Div0.div_le_upper_bound. lia. }
  assert (H' : length s + 3 < 4 * (maxTokens + 1)) by lia.
  apply Nat.Div0.div_lt_upper_bound in H'. lia.
Qed.

Lemma contents_push (chunk : Chunk) (st : Parts) (s : jsstring) :
  contents (push chunk st s) = contents st ++ s.
Proof.
  unfold contents, push. cbn [subChunks].
  rewrite map_app, concat_app. simpl. now rewrite app_nil_r.
Qed.

Lemma good_push (chunk : Chunk) (maxTokens : nat) (st : Parts) (s : jsstring) :
  good chunk maxTokens st -> estimateTokens s <= maxTokens ->
  good chunk maxTokens (push chunk st s).
Proof.
  intros H Hs. unfold good, push. cbn [subChunks].
  apply Forall_app. split; [exact H|]. repeat constructor. exact Hs.
Qed.

Lemma subChunks_push (chunk : Chunk) (st : Parts) (s : jsstring) :
  subChunks (push chunk st s) <> [].
Proof. unfold push. cbn [subChunks]. now destruct (subChunks st). Qed.

Lemma push_all (chunk : Chunk) (maxTokens : nat) (l : list jsstring) : forall st,
  good chunk maxTokens st ->
  Forall (fun s => estimateTokens s <= maxTokens) l ->
  good chunk maxTokens (fold_left (push chunk) l st)
  /\ contents (fold_left (push chunk) l st) = contents st ++ concat l
  /\ (subChunks st <> [] \/ l <> [] -> subChunks (fold_left (push chunk) l st) <> []).
Proof.
  induction l as [|s l IH]; intros st Hg Hl.
  - simpl. rewrite app_nil_r. repeat split; [assumption|]. now intros [H|H].
  - inversion Hl as [|? ? Hs Hl']; subst. cbn [fold_left concat].
    destruct (IH (push chunk st s) (good_push _ _ _ _ Hg Hs) Hl') as (G & C & P).
    repeat split; [exact G| |].
    + now rewrite C, contents_push, <- app_assoc.
    + intros _. apply P. left. apply subChunks_push.
Qed.

Lemma hardSlice_tokens (text : jsstring) (maxTokens : nat) :
  0 < maxTokens ->
  Forall (fun s => estimateTokens s <= maxTokens) (hardSliceByCharacters text maxTokens).
Proof.
  intros Hm. unfold hardSliceByCharacters.
  eapply Forall_impl; [|apply slices_length].
  intros s Hs. now apply charLimit_tokens.
Qed.

Lemma hardSlice_concat (text : jsstring) (maxTokens : nat) :
  concat (hardSliceByCharacters text maxTokens) = text.
Proof.
  unfold hardSliceByCharacters. apply slices_concat; [apply charLimit_positive|lia].
Qed.

Lemma hardSlice_nonempty (text : jsstring) (maxTokens : nat) :
  text <> [] -> hardSliceByCharacters text maxTokens <> [].
Proof.
  unfold hardSliceByCharacters. destruct text as [|c rest]; [congruence|]. discriminate.
Qed.

Lemma squash_join (sep a b : jsstring) :
  squash sep = [] -> squash (join sep a b) = squash a ++ squash b.
Proof.
  intros H. unfold join. rewrite !squash_app.
  destruct (nonempty a); [now rewrite H|reflexivity].
Qed.

Lemma nonempty_false (s : jsstring) : nonempty s = false -> s = [].
Proof. now destruct s. Qed.

(** Pushing the sentence buffer when it is not empty. *)
Lemma flush_sentences (chunk : Chunk) (maxTokens : nat) (st : Parts) (buffer : jsstring) :
  good chunk maxTokens st -> estimateTokens buffer <= maxTokens ->
  let st' := if nonempty buffer then push chunk st buffer else st in
  good chunk maxTokens st'
  /\ contents st' = contents st ++ buffer
  /\ (subChunks st <> [] \/ buffer <> [] -> subChunks st' <> []).
Proof.
  intros Hg Hb. destruct (nonempty buffer) eqn:E; cbn zeta.
  - repeat split.
    + now apply good_push.
    + apply contents_push.
    + intros _. apply subChunks_push.
  - apply nonempty_false in E. subst. rewrite app_nil_r.
    split; [assumption|]. split; [reflexivity|]. intros [H|H]; [exact H|congruence].
Qed.

Lemma pack_sentences_spec (chunk : Chunk) (maxTokens : nat) (sentences : list jsstring) :
  0 < maxTokens ->
  forall st buffer,
    good chunk maxTokens st -> estimateTokens buffer <= maxTokens ->
    Forall (fun s => s <> []) sentences ->
    good chunk maxTokens (fst (pack_sentences chunk maxTokens sentences st buffer))
    /\ estimateTokens (snd (pack_sentences chunk maxTokens sentences st buffer)) <= maxTokens
    /\ squash (contents (fst (pack_sentences chunk maxTokens sentences st buffer))
               ++ snd (pack_sentences chunk maxTokens sentences st buffer))
       = squash (contents st ++ buffer ++ concat sentences)
    /\ (subChunks st <> [] \/ buffer <> [] \/ sentences <> [] ->
        subChunks (fst (pack_sentences chunk maxTokens sentences st buffer)) <> []
        \/ snd (pack_sentences chunk maxTokens sentences st buffer) <> []).
Proof.
  intros Hm. induction sentences as [|sentence rest IH]; intros st buffer Hg Hb Hs.
  - simpl. rewrite app_nil_r. repeat split; try assumption. intros [H|[H|H]]; tauto.
  - inversion Hs as [|? ? Hne Hs']; subst. cbn [pack_sentences concat].
    destruct (Nat.ltb_spec maxTokens (estimateTokens (join (lit " ") buffer sentence)))
      as [Hover|Hfit].
    + destruct (flush_sentences chunk maxTokens st buffer Hg Hb) as (G1 & C1 & P1).
      destruct (Nat.ltb_spec maxTokens (estimateTokens sentence)) as [Hbig|Hsmall].
      * destruct (push_all chunk maxTokens (hardSliceByCharacters sentence maxTokens) _ G1
                    (hardSlice_tokens sentence maxTokens Hm)) as (G2 & C2 & P2).
        destruct (IH _ [] G2 ltac:(unfold estimateTokens; simpl; lia) Hs') as (G & B & C & P).
        repeat split; [exact G|exact B| |].
        -- rewrite C, C2, C1, hardSlice_concat. simpl. now rewrite <- !app_assoc.
        -- intros _. apply P. left. apply P2. right. now apply hardSlice_nonempty.
      * destruct (IH _ sentence G1 Hsmall Hs') as (G & B & C & P).
        repeat split; [exact G|exact B| |].
        -- rewrite C, C1. now rewrite <- !app_assoc.
        -- intros _. apply P. right. now left.
    + destruct (IH st _ Hg Hfit Hs') as (G & B & C & P).
      repeat split; [exact G|exact B| |].
      * rewrite C. rewrite !squash_app, squash_join by reflexivity.
        now rewrite <- ?app_assoc.
      * intros _. apply P. right. left. unfold join.
        destruct buffer; [|discriminate]. simpl. exact Hne.
Qed.

Lemma pushBufferIfAny_spec (chunk : Chunk) (maxTokens : nat) (st : Parts) (buffer : jsstring) :
  good chunk maxTokens st -> estimateTokens buffer <= maxTokens ->
  good chunk maxTokens (fst (pushBufferIfAny chunk st buffer))
  /\ estimateTokens (snd (pushBufferIfAny chunk st buffer)) <= maxTokens
  /\ squash (contents (fst (pushBufferIfAny chunk st buffer))) = squash (contents st ++ buffer)
  /\ squash (snd (pushBufferIfAny chunk st buffer)) = []
  /\ (subChunks st <> [] \/ squash buffer <> [] ->
      subChunks (fst (pushBufferIfAny chunk st buffer)) <> []).
Proof.
  intros Hg Hb. unfold pushBufferIfAny.
  destruct (Nat.eqb_spec (length (trim buffer)) 0) as [E|E]; cbn [fst snd].
  - apply length_zero_iff_nil, trim_empty in E.
    rewrite squash_app, E, app_nil_r. repeat split; try assumption.
    intros [H|H]; [exact H|congruence].
  - repeat split.
    + now apply good_push.
    + unfold estimateTokens. simpl. lia.
    + now rewrite contents_push.
    + intros _. apply subChunks_push.
Qed.

Lemma pack_paragraphs_spec (chunk : Chunk) (maxTokens : nat) (paragraphs : list jsstring) :
  0 < maxTokens ->
  forall st buffer,
    good chunk maxTokens st -> estimateTokens buffer <= maxTokens ->
    Forall (fun p => squash p <> []) paragraphs ->
    good chunk maxTokens (fst (pack_paragraphs chunk maxTokens paragraphs st buffer))
    /\ estimateTokens (snd (pack_paragraphs chunk maxTokens paragraphs st buffer)) <= maxTokens
    /\ squash (contents (fst (pack_paragraphs chunk maxTokens paragraphs st buffer))
               ++ snd (pack_paragraphs chunk maxTokens paragraphs st buffer))
       = squash (contents st ++ buffer ++ concat paragraphs)
    /\ (subChunks st <> [] \/ squash buffer <> [] \/ paragraphs <> [] ->
        subChunks (fst (pack_paragraphs chunk maxTokens paragraphs st buffer)) <> []
        \/ squash (snd (pack_paragraphs chunk maxTokens paragraphs st buffer)) <> []).
Proof.
  intros Hm. induction paragraphs as [|raw rest IH]; intros st buffer Hg Hb Hp.
  - simpl. rewrite app_nil_r. repeat split; try assumption. intros [H|[H|H]]; tauto.
  - inversion Hp as [|? ? Hraw Hp']; subst. cbn [pack_paragraphs concat].
    destruct (pushBufferIfAny_spec chunk maxTokens st buffer Hg Hb) as (G1 & B1 & C1 & W1 & P1).
    destruct (pushBufferIfAny chunk st buffer) as [st1 buffer1]. cbn [fst snd] in *.
    destruct (Nat.ltb_spec maxTokens (estimateTokens (trim raw))) as [Hbig|Hsmall].
    + destruct (pack_sentences_spec chunk maxTokens (splitBySentences (trim raw)) Hm st1 []
                  G1 ltac:(unfold estimateTokens; simpl; lia)
                  (splitBySentences_nonempty (trim raw))) as (G2 & B2 & C2 & P2).
      destruct (pack_sentences chunk maxTokens (splitBySentences (trim raw)) st1 [])
        as [st2 sentenceBuffer]. cbn [fst snd] in *.
      destruct (flush_sentences chunk maxTokens st2 sentenceBuffer G2 B2) as (G3 & C3 & P3).
      cbn zeta in G3, C3, P3.
      set (st3 := if nonempty sentenceBuffer then push chunk st2 sentenceBuffer else st2) in *.
      assert (Hs : splitBySentences (trim raw) <> []).
      { intros E. pose proof (splitBySentences_squash (trim raw)) as Q.
        rewrite E, squash_trim in Q. simpl in Q. congruence. }
      destruct (IH st3 buffer1 G3 B1 Hp') as (G & B & C & P).
      repeat split; [exact G|exact B| |].
      * rewrite C, !squash_app, C3, C2. rewrite app_nil_l.
        rewrite !squash_app, C1, W1, splitBySentences_squash, squash_trim, !squash_app.
        rewrite app_nil_l. now rewrite <- ?app_assoc.
      * intros _. apply P. left. apply P3, P2. right. right. exact Hs.
    + destruct (Nat.ltb_spec maxTokens
                  (estimateTokens (join [newline; newline] buffer (trim raw)))) as [Hover|Hfit].
      * destruct (IH st1 (trim raw) G1 Hsmall Hp') as (G & B & C & P).
        repeat split; [exact G|exact B| |].
        -- rewrite C, !squash_app, C1, squash_trim, !squash_app. now rewrite <- ?app_assoc.
        -- intros _. apply P. right. left. now rewrite squash_trim.
      * destruct (IH st _ Hg Hfit Hp') as (G & B & C & P).
        repeat split; [exact G|exact B| |].
        -- rewrite C, !squash_app, squash_join, squash_trim by reflexivity.
           now rewrite <- ?app_assoc.
        -- intros _. apply P. right. left.
           rewrite squash_join, squash_trim by reflexivity.
           destruct (squash buffer); [exact Hraw|discriminate].
Qed.

Lemma paragraphs_of_nonblank (content : jsstring) :
  Forall (fun p => squash p <> []) (paragraphs_of content).
Proof.
  unfold paragraphs_of. apply Forall_forall. intros p Hp.
  apply filter_In in Hp. destruct Hp as [_ H]. now apply nonempty_trim.
Qed.

Lemma splitLargeChunk_collected (chunk : Chunk) (maxTokens : nat) :
  splitLargeChunk chunk maxTokens
  = if estimateTokens (fullContent chunk) <=? maxTokens then [chunk]
    else match subChunks (collected chunk maxTokens) with
         | [] => [chunk]
         | _ :: _ => subChunks (collected chunk maxTokens)
         end.
Proof.
  unfold splitLargeChunk, collected.
  destruct (estimateTokens (fullContent chunk) <=? maxTokens); [reflexivity|].
  destruct (pack_paragraphs _ _ _ _ _) as [st buffer]. cbn [fst snd].
  now destruct (pushBufferIfAny chunk st buffer).
Qed.

Lemma collected_spec (chunk : Chunk) (maxTokens : nat) :
  0 < maxTokens ->
  good chunk maxTokens (collected chunk maxTokens)
  /\ squash (contents (collected chunk maxTokens)) = squash (fullContent chunk)
  /\ (paragraphs_of (fullContent chunk) <> [] -> subChunks (collected chunk maxTokens) <> []).
Proof.
  intros Hm. unfold collected.
  destruct (pack_paragraphs_spec chunk maxTokens (paragraphs_of (fullContent chunk)) Hm
              {| subChunks := []; partIndex := 0 |} []
              (Forall_nil _) ltac:(unfold estimateTokens; simpl; lia)
              (paragraphs_of_nonblank _)) as (G & B & C & P).
  destruct (pack_paragraphs _ _ _ _ _) as [st buffer]. cbn [fst snd] in *.
  destruct (pushBufferIfAny_spec chunk maxTokens st buffer G B) as (G1 & _ & C1 & _ & P1).
  repeat split; [exact G1| |].
  - rewrite C1, C. simpl. apply paragraphs_of_squash.
  - intros H. apply P1, P. right. right. exact H.
Qed.

End SplitterLemmas.

(** *** Conservation of the content *)

Section ConservationLemmas.
Import Js Embedder SplitterSpec PartsSpec ConservationSpec.

Lemma trimStart_app_keep (a b : jsstring) :
  trimStart a <> [] -> trimStart (a ++ b) = trimStart a ++ b.
Proof.
  induction a as [|c a IH]; cbn [trimStart app]; [congruence|].
  destruct (is_ws c); [exact IH|reflexivity].
Qed.

Lemma trimStart_app_skip (a b : jsstring) :
  trimStart a = [] -> trimStart (a ++ b) = trimStart b.
Proof.
  induction a as [|c a IH]; cbn [trimStart app]; [reflexivity|].
  destruct (is_ws c); [exact IH|discriminate].
Qed.

Lemma trimEnd_app_keep (a b : jsstring) :
  trimEnd b <> [] -> trimEnd (a ++ b) = a ++ trimEnd b.
Proof.
  unfold trimEnd. intros H. rewrite rev_app_distr, trimStart_app_keep.
  - now rewrite rev_app_distr, rev_involutive.
  - intros E. rewrite E in H. now apply H.
Qed.

Lemma trimEnd_app_skip (a b : jsstring) :
  trimEnd b = [] -> trimEnd (a ++ b) = trimEnd a.
Proof.
  unfold trimEnd. intros H. rewrite rev_app_distr, trimStart_app_skip; [reflexivity|].
  apply (f_equal (@rev ascii)) in H. now rewrite rev_involutive in H.
Qed.

Lemma trimEnd_snoc (a : jsstring) (c : ascii) :
  is_ws c = false -> trimEnd (a ++ [c]) = a ++ [c].
Proof.
  intros H. unfold trimEnd. rewrite rev_app_distr. cbn [rev app trimStart]. rewrite H.
  change (c :: rev a) with ([c] ++ rev a). now rewrite rev_app_distr, rev_involutive.
Qed.

Lemma trimStart_snoc (a : jsstring) (c : ascii) :
  is_ws c = false -> trimStart (a ++ [c]) = trimStart a ++ [c].
Proof.
  intros H. induction a as [|d a IH]; cbn [app trimStart].
  - now rewrite H.
  - destruct (is_ws d); [exact IH|reflexivity].
Qed.

Lemma trimEnd_cons (c : ascii) (s : jsstring) :
  is_ws c = false -> trimEnd (c :: s) = c :: trimEnd s.
Proof.
  intros H. unfold trimEnd. cbn [rev]. rewrite trimStart_snoc by assumption.
  rewrite rev_app_distr. reflexivity.
Qed.

Lemma terminator_not_ws (c : ascii) : is_terminator c = true -> is_ws c = false.
Proof.
  destruct c as [[] [] [] [] [] [] [] []]; vm_compute; congruence.
Qed.

(** A match of the regular expression that ends with a terminator and a
    whitespace is trimmed to a text that ends with the terminator. *)
Lemma trim_closed (p : jsstring) (c d : ascii) :
  is_terminator c = true -> is_ws d = true -> ends_sentence (trim (p ++ [c; d])).
Proof.
  intros Hc Hd. pose proof (terminator_not_ws c Hc) as Wc.
  assert (E : exists y, trimStart (p ++ [c; d]) = y ++ [c; d]).
  { destruct (trimStart p) as [|x y] eqn:T.
    - exists []. rewrite trimStart_app_skip by assumption. cbn [trimStart app]. now rewrite Wc.
    - exists (x :: y). rewrite trimStart_app_keep by congruence. now rewrite T. }
  destruct E as [y E]. unfold trim. rewrite E.
  exists y, c. split; [|assumption].
  change (y ++ [c; d]) with (y ++ [c] ++ [d]). rewrite app_assoc.
  rewrite trimEnd_app_skip.
  - now apply trimEnd_snoc.
  - unfold trimEnd. cbn [rev app trimStart]. now rewrite Hd.
Qed.

Lemma blank_app (a b : jsstring) : blank (a ++ b) <-> blank a /\ blank b.
Proof.
  unfold blank. rewrite squash_app. split.
  - intros H. now apply app_eq_nil in H.
  - intros [-> ->]. reflexivity.
Qed.

Lemma blank_nil : blank [].
Proof. reflexivity. Qed.

Lemma trimStart_split (s : jsstring) : exists l, s = l ++ trimStart s /\ blank l.
Proof.
  induction s as [|c s (l & E & B)]; [now exists []|].
  cbn [trimStart]. destruct (is_ws c) eqn:W.
  - exists (c :: l). split; [cbn [app]; now rewrite <- E|].
    unfold blank in *. cbn. now rewrite W.
  - now exists [].
Qed.

Lemma trimEnd_split (s : jsstring) : exists r, s = trimEnd s ++ r /\ blank r.
Proof.
  destruct (trimStart_split (rev s)) as (l & E & B).
  exists (rev l). split.
  - unfold trimEnd. rewrite <- rev_app_distr, <- E. now rewrite rev_involutive.
  - unfold blank in *. now rewrite squash_rev, B.
Qed.

(** A text is its trimmed text between whitespace. *)
Lemma trim_split (s : jsstring) :
  exists l r, s = l ++ trim s ++ r /\ blank l /\ blank r.
Proof.
  destruct (trimStart_split s) as (l & E & B).
  destruct (trimEnd_split (trimStart s)) as (r & E' & B').
  exists l, r. unfold trim. now rewrite <- E', <- E.
Qed.

Lemma blank_trim (s : jsstring) : nonempty (trim s) = false -> blank s.
Proof.
  intros H. apply nonempty_false in H. now apply trim_empty.
Qed.

Lemma ends_sentence_app (a b : jsstring) : ends_sentence b -> ends_sentence (a ++ b).
Proof.
  intros (s' & c & -> & Hc). exists (a ++ s'), c. now rewrite <- app_assoc.
Qed.

(** A match that ends with a terminator and a whitespace: its trimmed
    text ends with the terminator, and whitespace follows it. *)
Lemma match_split (p : jsstring) (c d : ascii) :
  is_terminator c = true -> is_ws d = true ->
  exists l r, p ++ [c; d] = l ++ trim (p ++ [c; d]) ++ r
              /\ blank l /\ blank r /\ r <> [] /\ ends_sentence (trim (p ++ [c; d])).
Proof.
  intros Hc Hd.
  destruct (trim_split (p ++ [c; d])) as (l & r & E & Bl & Br).
  pose proof (trim_closed p c d Hc Hd) as S.
  exists l, r. repeat split; try assumption.
  intros ->. destruct S as (s' & c' & S & Hc'). rewrite S, app_nil_r in E.
  change (p ++ [c; d]) with (p ++ [c] ++ [d]) in E. rewrite !app_assoc in E.
  apply app_inj_tail in E. destruct E as [_ <-].
  apply terminator_not_ws in Hc'. congruence.
Qed.

Lemma is_newline_eq (c : ascii) : is_newline c = true -> c = newline.
Proof.
  unfold is_newline, newline. intros H. apply N.eqb_eq in H.
  rewrite <- H. symmetry. apply ascii_N_embedding.
Qed.

(** One piece of a text, after whitespace. *)
Lemma piece_spaced (gap : jsstring -> jsstring -> Prop) (before : option jsstring)
  (G p : jsstring) :
  blank G ->
  (forall b l, before = Some b -> blank l -> gap b (G ++ l)) ->
  spaced gap before (G ++ p) (if nonempty (trim p) then [trim p] else []).
Proof.
  intros BG Hgap. destruct (nonempty (trim p)) eqn:N.
  - destruct (trim_split p) as (l & r & E & Bl & Br).
    cbn [spaced]. exists (G ++ l), r. split; [|split; [|split]].
    + rewrite E at 1. now rewrite <- !app_assoc.
    + now apply blank_app.
    + destruct before as [b|]; [now apply Hgap|exact I].
    + exact Br.
  - cbn [spaced]. apply blank_app. split; [exact BG|now apply blank_trim].
Qed.

(** The paragraphs of a text, trimmed, are in the text in order, with
    whitespace that holds a blank line between them. *)
Lemma split_paragraphs_spaced (n : nat) : forall pending text before G,
  length text <= n -> blank G ->
  (before <> None -> exists a b, G = a ++ [newline; newline] ++ b) ->
  spaced between_paragraphs before (G ++ pending ++ text)
    (map trim (filter (fun p => nonempty (trim p)) (split_paragraphs pending text))).
Proof.
  assert (One : forall before G p,
             blank G -> (before <> None -> exists a b, G = a ++ [newline; newline] ++ b) ->
             spaced between_paragraphs before (G ++ p)
               (map trim (filter (fun p => nonempty (trim p)) [p]))).
  { intros before G p BG HG. cbn [filter].
    pose proof (piece_spaced between_paragraphs before G p BG) as P.
    destruct (nonempty (trim p)); apply P; intros b l -> Bl;
      (split; [now apply blank_app|]);
      (destruct HG as (x & y & ->); [discriminate|]);
      exists x, (y ++ l); now rewrite <- !app_assoc. }
  induction n as [|n IH]; intros pending text before G Hn BG HG.
  - destruct text; [|simpl in Hn; lia]. cbn [split_paragraphs]. rewrite app_nil_r.
    now apply One.
  - destruct text as [|c [|d rest]].
    + cbn [split_paragraphs]. rewrite app_nil_r. now apply One.
    + cbn [split_paragraphs]. now apply One.
    + rewrite split_paragraphs_step. simpl in Hn.
      destruct (is_newline c && is_newline d) eqn:E.
      * apply andb_prop in E. destruct E as [Ec Ed].
        pose proof (is_newline_ws c Ec) as Wc. pose proof (is_newline_ws d Ed) as Wd.
        apply is_newline_eq in Ec, Ed. subst c d.
        cbn [filter]. destruct (nonempty (trim pending)) eqn:N.
        -- destruct (trim_split pending) as (l & r & Ep & Bl & Br).
           cbn [map spaced].
           exists (G ++ l), (r ++ [newline; newline] ++ rest). split; [|split; [|split]].
           ++ rewrite Ep at 1. now rewrite <- !app_assoc.
           ++ now apply blank_app.
           ++ destruct before as [b|]; [|exact I]. split; [now apply blank_app|].
              destruct HG as (x & y & ->); [discriminate|].
              exists x, (y ++ l). now rewrite <- !app_assoc.
           ++ specialize (IH [] rest (Some (trim pending)) (r ++ [newline; newline])).
              rewrite <- app_assoc in IH. cbn [app] in IH. apply IH; [lia| |].
              ** apply blank_app. split; [exact Br|]. reflexivity.
              ** intros _. now exists r, [].
        -- specialize (IH [] rest before (G ++ pending ++ [newline; newline])).
           rewrite <- !app_assoc in IH. cbn [app] in IH. apply IH; [lia| |].
           ++ apply blank_app. split; [exact BG|]. apply blank_app.
              split; [now apply blank_trim|]. reflexivity.
           ++ intros _. exists (G ++ pending), []. now rewrite <- !app_assoc.
      * specialize (IH (pending ++ [c]) (d :: rest) before G).
        rewrite <- app_assoc in IH. apply IH; [simpl; lia|exact BG|exact HG].
Qed.

Lemma paragraphs_spaced (content : jsstring) :
  spaced between_paragraphs None content (map trim (paragraphs_of content)).
Proof.
  unfold paragraphs_of.
  apply (split_paragraphs_spaced (length content) [] content None []);
    [lia|reflexivity|congruence].
Qed.

(** The sentences of a text are in the text in order; all but the last
    end with a terminator and are followed by whitespace. *)
Lemma sentence_matches_spaced (n : nat) : forall pending text before G,
  length text <= n -> blank G ->
  (forall b, before = Some b -> ends_sentence b /\ G <> []) ->
  spaced between_sentences before (G ++ pending ++ text)
    (filter nonempty (map trim (sentence_matches pending text))).
Proof.
  assert (One : forall before G p,
             blank G -> (forall b, before = Some b -> ends_sentence b /\ G <> []) ->
             spaced between_sentences before (G ++ p)
               (filter nonempty (map trim [p]))).
  { intros before G p BG HG. cbn [map filter].
    pose proof (piece_spaced between_sentences before G p BG) as P.
    destruct (nonempty (trim p)); apply P; intros b l E Bl;
      destruct (HG b E) as [Hb Hne]; (split; [exact Hb|]);
      destruct G; [congruence|discriminate|congruence|discriminate]. }
  induction n as [|n IH]; intros pending text before G Hn BG HG.
  - destruct text; [|simpl in Hn; lia]. rewrite app_nil_r.
    destruct pending as [|x pending]; [exact (proj2 (blank_app G []) (conj BG blank_nil))|].
    now apply One.
  - destruct text as [|c rest].
    + rewrite app_nil_r.
      destruct pending as [|x pending]; [exact (proj2 (blank_app G []) (conj BG blank_nil))|].
      now apply One.
    + rewrite sentence_matches_step. simpl in Hn.
      assert (Next : spaced between_sentences before (G ++ pending ++ c :: rest)
                       (filter nonempty (map trim (sentence_matches (pending ++ [c]) rest)))).
      { specialize (IH (pending ++ [c]) rest before G).
        rewrite <- app_assoc in IH. apply IH; [lia|exact BG|exact HG]. }
      destruct (is_terminator c) eqn:Tc; [|exact Next].
      destruct rest as [|d rest'].
      * exact (One before G (pending ++ [c]) BG HG).
      * destruct (is_ws d) eqn:Wd; [|exact Next].
        destruct (match_split pending c d Tc Wd) as (l & r & E & Bl & Br & Hr & S).
        assert (N : nonempty (trim (pending ++ [c; d])) = true).
        { destruct S as (s' & c' & -> & _). unfold nonempty. rewrite length_app. simpl.
          now rewrite Nat.add_1_r. }
        cbn [map filter]. rewrite N. cbn [spaced].
        exists (G ++ l), (r ++ rest'). split; [|split; [|split]].
        -- change (c :: d :: rest') with ([c; d] ++ rest').
           remember (trim (pending ++ [c; d])) as t.
           rewrite (app_assoc pending), E. now rewrite <- !app_assoc.
        -- now apply blank_app.
        -- destruct before as [b|]; [|exact I]. destruct (HG b eq_refl) as [Hb Hne].
           split; [exact Hb|]. destruct G; [congruence|discriminate].
        -- specialize (IH [] rest' (Some (trim (pending ++ [c; d]))) r).
           cbn [app] in IH. apply IH; [simpl in Hn; lia|exact Br|].
           intros b [= <-]. now split.
Qed.

Lemma splitBySentences_spaced (text : jsstring) :
  spaced between_sentences None text (splitBySentences text).
Proof.
  unfold splitBySentences.
  apply (sentence_matches_spaced (length text) [] text None []);
    [lia|reflexivity|congruence].
Qed.

Lemma conserved_blank (text w : jsstring) (children : list jsstring) :
  conserved text children -> blank w -> conserved (text ++ w) children.
Proof.
  intros H Bw. induction H as [w0 B0|w0 piece rest child children B0 R H IH].
  - constructor. now apply blank_app.
  - rewrite <- !app_assoc. now constructor.
Qed.

Lemma conserved_snoc (text piece child : jsstring) (children : list jsstring) :
  conserved text children -> rewritten piece child ->
  conserved (text ++ piece) (children ++ [child]).
Proof.
  intros H R. induction H as [w0 B0|w0 piece0 rest child0 children B0 R0 H IH].
  - cbn [app]. rewrite <- (app_nil_r piece). constructor; [exact B0|exact R|].
    constructor. exact blank_nil.
  - rewrite <- !app_assoc. cbn [app]. now constructor.
Qed.

Lemma conserved_all (l : list jsstring) : forall text children,
  conserved text children -> conserved (text ++ concat l) (children ++ l).
Proof.
  induction l as [|s l IH]; intros text children H.
  - cbn [concat]. now rewrite !app_nil_r.
  - cbn [concat]. rewrite app_assoc.
    change (children ++ s :: l) with (children ++ [s] ++ l). rewrite app_assoc.
    apply IH. apply conserved_snoc; [exact H|constructor].
Qed.

Lemma conserved_alone (content : jsstring) : conserved content [content].
Proof.
  rewrite <- (app_nil_r content) at 1. change (content ++ []) with ([] ++ content ++ []).
  constructor; [exact blank_nil|constructor|constructor; exact blank_nil].
Qed.

(** What [conserved] gives at least: the non-whitespace characters. *)
Lemma rewritten_squash (piece child : jsstring) :
  rewritten piece child -> squash child = squash piece.
Proof.
  induction 1 as [a|piece child gap a R IH [B _]|piece child gap a R IH _ B _].
  - reflexivity.
  - rewrite !squash_app, IH, B. reflexivity.
  - rewrite !squash_app, IH, B. reflexivity.
Qed.

Lemma conserved_squash (text : jsstring) (children : list jsstring) :
  conserved text children -> squash (concat children) = squash text.
Proof.
  induction 1 as [w B|w piece rest child children B R H IH].
  - now rewrite B.
  - cbn [concat]. rewrite !squash_app, IH, B, (rewritten_squash _ _ R). reflexivity.
Qed.

Lemma pushed_push (chunk : Chunk) (st : Parts) (s : jsstring) :
  pushed (push chunk st s) = pushed st ++ [s].
Proof. unfold pushed, push. cbn [subChunks]. now rewrite map_app. Qed.

Lemma pushed_push_all (chunk : Chunk) (l : list jsstring) : forall st,
  pushed (fold_left (push chunk) l st) = pushed st ++ l.
Proof.
  induction l as [|s l IH]; intros st; cbn [fold_left]; [now rewrite app_nil_r|].
  rewrite IH, pushed_push, <- app_assoc. reflexivity.
Qed.

(** Pushing the buffer when it is not empty. *)
Lemma conserved_flush (chunk : Chunk) (st : Parts) (buffer done piece : jsstring) :
  conserved done (pushed st) ->
  (buffer = [] /\ piece = [] \/ buffer <> [] /\ rewritten piece buffer) ->
  conserved (done ++ piece) (pushed (if nonempty buffer then push chunk st buffer else st)).
Proof.
  intros H [[-> ->]|[Hne R]].
  - cbn. now rewrite app_nil_r.
  - destruct buffer; [congruence|]. cbn [nonempty length Nat.eqb negb].
    rewrite pushed_push. now apply conserved_snoc.
Qed.

Lemma join_empty (sep b : jsstring) : join sep [] b = b.
Proof. reflexivity. Qed.

Lemma join_nonempty (sep a b : jsstring) : a <> [] -> join sep a b = a ++ sep ++ b.
Proof. intros H. unfold join. destruct a; [congruence|reflexivity]. Qed.

Lemma pack_sentences_conserved (chunk : Chunk) (maxTokens : nat) (sentences : list jsstring) :
  forall st buffer before text done piece,
    Forall (fun s => s <> []) sentences ->
    spaced between_sentences before text sentences ->
    conserved done (pushed st) ->
    (buffer = [] /\ piece = []
     \/ buffer <> [] /\ rewritten piece buffer
        /\ exists b p0, before = Some b /\ piece = p0 ++ b) ->
    exists done' piece' w,
      done ++ piece ++ text = done' ++ piece' ++ w /\ blank w
      /\ conserved done' (pushed (fst (pack_sentences chunk maxTokens sentences st buffer)))
      /\ (snd (pack_sentences chunk maxTokens sentences st buffer) = [] /\ piece' = []
          \/ snd (pack_sentences chunk maxTokens sentences st buffer) <> []
             /\ rewritten piece' (snd (pack_sentences chunk maxTokens sentences st buffer))).
Proof.
  induction sentences as [|a rest IH]; intros st buffer before text done piece Hne S H Inv.
  - cbn [spaced] in S. cbn [pack_sentences fst snd]. exists done, piece, text.
    split; [reflexivity|]. split; [exact S|]. split; [exact H|].
    destruct Inv as [Inv|(N & R & _)]; [now left|now right].
  - inversion Hne as [|? ? Ha Hne']; subst.
    cbn [spaced] in S. destruct S as (g & text' & -> & Bg & Hg & S).
    assert (Flush : conserved (done ++ piece)
                      (pushed (if nonempty buffer then push chunk st buffer else st))).
    { apply conserved_flush; [exact H|].
      destruct Inv as [Inv|(N & R & _)]; [now left|now right]. }
    assert (Fresh : forall st', conserved ((done ++ piece) ++ g) (pushed st') ->
              exists done' piece' w,
                done ++ piece ++ g ++ a ++ text' = done' ++ piece' ++ w /\ blank w
                /\ conserved done' (pushed (fst (pack_sentences chunk maxTokens rest st' a)))
                /\ (snd (pack_sentences chunk maxTokens rest st' a) = [] /\ piece' = []
                    \/ snd (pack_sentences chunk maxTokens rest st' a) <> []
                       /\ rewritten piece' (snd (pack_sentences chunk maxTokens rest st' a)))).
    { intros st' H'.
      destruct (IH st' a (Some a) text' ((done ++ piece) ++ g) a Hne' S H')
        as (done' & piece' & w & E & B & C & D).
      - right. split; [exact Ha|]. split; [constructor|]. now exists a, [].
      - exists done', piece', w. rewrite <- E, <- !app_assoc. now repeat split. }
    cbn [pack_sentences].
    destruct (maxTokens <? estimateTokens (join (lit " ") buffer a)).
    + destruct (maxTokens <? estimateTokens a).
      * destruct (IH (fold_left (push chunk) (hardSliceByCharacters a maxTokens)
                        (if nonempty buffer then push chunk st buffer else st))
                     [] (Some a) text' (((done ++ piece) ++ g) ++ a) [] Hne' S)
          as (done' & piece' & w & E & B & C & D).
        -- rewrite pushed_push_all. rewrite <- (hardSlice_concat a maxTokens) at 1.
           apply conserved_all. now apply conserved_blank.
        -- now left.
        -- exists done', piece', w. rewrite <- E, <- !app_assoc. now repeat split.
      * apply Fresh. now apply conserved_blank.
    + destruct Inv as [[-> ->]|(N & R & b & p0 & -> & ->)].
      * rewrite join_empty. cbn [nonempty length Nat.eqb negb] in Flush.
        apply (Fresh st). now apply conserved_blank.
      * rewrite join_nonempty by exact N. destruct Hg as [Hb Hgne].
        destruct (IH st (buffer ++ lit " " ++ a) (Some a) text' done ((p0 ++ b) ++ g ++ a)
                    Hne' S H) as (done' & piece' & w & E & B & C & D).
        -- right. split; [now destruct buffer|]. split.
           ++ apply rewritten_sentence; [exact R|now apply ends_sentence_app|exact Bg|exact Hgne].
           ++ exists a, ((p0 ++ b) ++ g). now rewrite <- !app_assoc.
        -- exists done', piece', w. rewrite <- E, <- !app_assoc. now repeat split.
Qed.

Lemma pushBufferIfAny_conserved (chunk : Chunk) (st : Parts) (buffer done piece : jsstring) :
  conserved done (pushed st) ->
  (buffer = [] /\ piece = [] \/ squash buffer <> [] /\ rewritten piece buffer) ->
  conserved (done ++ piece) (pushed (fst (pushBufferIfAny chunk st buffer)))
  /\ (squash buffer <> [] -> snd (pushBufferIfAny chunk st buffer) = []).
Proof.
  intros H Inv. unfold pushBufferIfAny.
  destruct (Nat.eqb_spec (length (trim buffer)) 0) as [E|E]; cbn [fst snd].
  - apply length_zero_iff_nil, trim_empty in E.
    destruct Inv as [[-> ->]|[N _]]; [|congruence].
    rewrite app_nil_r. split; [exact H|congruence].
  - destruct Inv as [[-> ->]|[N R]]; [now contradiction E|].
    rewrite pushed_push. split; [now apply conserved_snoc|reflexivity].
Qed.

Lemma pack_paragraphs_conserved (chunk : Chunk) (maxTokens : nat) (paragraphs : list jsstring) :
  forall st buffer before text done piece,
    Forall (fun p => squash p <> []) paragraphs ->
    spaced between_paragraphs before text (map trim paragraphs) ->
    conserved done (pushed st) ->
    (buffer = [] /\ piece = []
     \/ squash buffer <> [] /\ rewritten piece buffer /\ before <> None) ->
    exists done' piece' w,
      done ++ piece ++ text = done' ++ piece' ++ w /\ blank w
      /\ conserved done' (pushed (fst (pack_paragraphs chunk maxTokens paragraphs st buffer)))
      /\ (snd (pack_paragraphs chunk maxTokens paragraphs st buffer) = [] /\ piece' = []
          \/ squash (snd (pack_paragraphs chunk maxTokens paragraphs st buffer)) <> []
             /\ rewritten piece' (snd (pack_paragraphs chunk maxTokens paragraphs st buffer))).
Proof.
  induction paragraphs as [|raw rest IH]; intros st buffer before text done piece Hne S H Inv.
  - cbn [map spaced] in S. cbn [pack_paragraphs fst snd]. exists done, piece, text.
    split; [reflexivity|]. split; [exact S|]. split; [exact H|].
    destruct Inv as [Inv|(N & R & _)]; [now left|now right].
  - inversion Hne as [|? ? Hraw Hne']; subst.
    cbn [map spaced] in S. destruct S as (g & text' & -> & Bg & Hg & S).
    assert (Hp : squash (trim raw) <> []) by now rewrite squash_trim.
    assert (Inv' : buffer = [] /\ piece = [] \/ squash buffer <> [] /\ rewritten piece buffer).
    { destruct Inv as [Inv|(N & R & _)]; [now left|now right]. }
    destruct (pushBufferIfAny_conserved chunk st buffer done piece H Inv') as [Flush Reset].
    assert (Fresh : forall st', conserved ((done ++ piece) ++ g) (pushed st') ->
              exists done' piece' w,
                done ++ piece ++ g ++ trim raw ++ text' = done' ++ piece' ++ w /\ blank w
                /\ conserved done'
                     (pushed (fst (pack_paragraphs chunk maxTokens rest st' (trim raw))))
                /\ (snd (pack_paragraphs chunk maxTokens rest st' (trim raw)) = [] /\ piece' = []
                    \/ squash (snd (pack_paragraphs chunk maxTokens rest st' (trim raw))) <> []
                       /\ rewritten piece'
                            (snd (pack_paragraphs chunk maxTokens rest st' (trim raw))))).
    { intros st' H'.
      destruct (IH st' (trim raw) (Some (trim raw)) text' ((done ++ piece) ++ g) (trim raw)
                  Hne' S H') as (done' & piece' & w & E & B & C & D).
      - right. split; [exact Hp|]. split; [constructor|discriminate].
      - exists done', piece', w. rewrite <- E, <- !app_assoc. now repeat split. }
    cbn [pack_paragraphs].
    destruct (maxTokens <? estimateTokens (trim raw)).
    + destruct (pushBufferIfAny chunk st buffer) as [st1 buffer1] eqn:P. cbn [fst snd] in *.
      assert (B1 : buffer1 = []).
      { destruct Inv' as [[-> _]|[N _]]; [|now apply Reset].
        unfold pushBufferIfAny in P. cbn in P. now injection P as _ <-. }
      subst buffer1.
      destruct (pack_sentences_conserved chunk maxTokens (splitBySentences (trim raw))
                  st1 [] None (trim raw) ((done ++ piece) ++ g) []
                  (splitBySentences_nonempty (trim raw)) (splitBySentences_spaced (trim raw)))
        as (done2 & piece2 & w2 & E2 & B2 & C2 & D2).
      { now apply conserved_blank. }
      { now left. }
      destruct (pack_sentences chunk maxTokens (splitBySentences (trim raw)) st1 [])
        as [st2 sentenceBuffer]. cbn [fst snd] in *.
      pose proof (conserved_flush chunk st2 sentenceBuffer done2 piece2 C2 D2) as C3.
      destruct (IH (if nonempty sentenceBuffer then push chunk st2 sentenceBuffer else st2)
                  [] (Some (trim raw)) text' ((done2 ++ piece2) ++ w2) [] Hne' S)
        as (done' & piece' & w & E & B & C & D).
      { now apply conserved_blank. }
      { now left. }
      exists done', piece', w. split; [|now repeat split].
      rewrite <- E. cbn [app]. rewrite <- (app_assoc done2 piece2 w2), <- E2. cbn [app].
      now rewrite <- !app_assoc.
    + destruct (maxTokens <? estimateTokens (join [newline; newline] buffer (trim raw))).
      * destruct (pushBufferIfAny chunk st buffer) as [st1 buffer1]. cbn [fst snd] in *.
        apply Fresh. now apply conserved_blank.
      * destruct Inv as [[-> ->]|(N & R & Hb)].
        -- rewrite join_empty. apply (Fresh st). rewrite app_nil_r. now apply conserved_blank.
        -- assert (Nb : buffer <> []) by (intros ->; now apply N).
           rewrite join_nonempty by exact Nb.
           destruct before as [b|]; [|congruence].
           destruct (IH st (buffer ++ [newline; newline] ++ trim raw) (Some (trim raw)) text'
                       done (piece ++ g ++ trim raw) Hne' S H)
             as (done' & piece' & w & E & B & C & D).
           ++ right. split; [|split; [|discriminate]].
              ** rewrite !squash_app. intros E. apply app_eq_nil in E. now destruct E.
              ** apply rewritten_paragraph; [exact R|exact Hg].
           ++ exists done', piece', w. rewrite <- E, <- !app_assoc. now repeat split.
Qed.

(** The sub-chunks [splitLargeChunk] collects reproduce the content. *)
Lemma collected_conserved (chunk : Chunk) (maxTokens : nat) :
  conserved (fullContent chunk) (pushed (collected chunk maxTokens)).
Proof.
  unfold collected.
  destruct (pack_paragraphs_conserved chunk maxTokens (paragraphs_of (fullContent chunk))
              {| subChunks := []; partIndex := 0 |} [] None (fullContent chunk) [] []
              (paragraphs_of_nonblank _) (paragraphs_spaced _))
    as (done & piece & w & E & B & C & D).
  { constructor. exact blank_nil. }
  { now left. }
  destruct (pack_paragraphs _ _ _ _ _) as [st buffer]. cbn [fst snd app] in *.
  rewrite E, app_assoc. apply conserved_blank; [|exact B].
  apply pushBufferIfAny_conserved; assumption.
Qed.

Lemma splitLargeChunk_conserved (chunk : Chunk) (maxTokens : nat) :
  conserved (fullContent chunk) (map fullContent (splitLargeChunk chunk maxTokens)).
Proof.
  rewrite splitLargeChunk_collected.
  destruct (estimateTokens (fullContent chunk) <=? maxTokens); [apply conserved_alone|].
  pose proof (collected_conserved chunk maxTokens) as C. unfold pushed in C.
  destruct (subChunks (collected chunk maxTokens)); [apply conserved_alone|exact C].
Qed.

End ConservationLemmas.

Section SplitterTheorems.
Import Js Embedder SplitterSpec.

Lemma collected_blank (chunk : Chunk) (maxTokens : nat) :
  paragraphs_of (fullContent chunk) = [] -> subChunks (collected chunk maxTokens) = [].
Proof. unfold collected. intros ->. reflexivity. Qed.

Lemma splitLargeChunk_alone (chunk : Chunk) (maxTokens : nat) :
  paragraphs_of (fullContent chunk) = [] -> splitLargeChunk chunk maxTokens = [chunk].
Proof.
  intros Hp. rewrite splitLargeChunk_collected, (collected_blank chunk maxTokens Hp).
  now destruct (estimateTokens (fullContent chunk) <=? maxTokens).
Qed.

Lemma good_weaken (chunk : Chunk) (maxTokens : nat) (st : Parts) :
  good chunk maxTokens st ->
  Forall (fun c => pageName c = pageName chunk /\ href c = href chunk) (subChunks st)
  /\ Forall (fun c => estimateTokens (fullContent c) <= maxTokens) (subChunks st).
Proof.
  unfold good. intros H. split; (eapply Forall_impl; [|exact H]); cbv beta; tauto.
Qed.

(** C4, as the code has it.  For a positive budget, the children of
    [splitLargeChunk] have the page name and the href of the parent.
    Their contents reproduce the parent's content up to whitespace at
    boundaries: the content is one piece for each child, in order, with
    whitespace or nothing around the pieces, and a child is its piece
    but for the whitespace between two paragraphs, written as two line
    feeds, and the whitespace after a sentence, written as one space;
    so the contents, one after the other, hold the same non-whitespace
    characters in the same order as the parent's content.  Each child
    is estimated at no more than the budget, as soon as the parent's
    content has a paragraph that is not blank; a parent without such a
    paragraph, like a parent within the budget, comes back alone and
    unchanged. *)
Theorem splitLargeChunk_children (chunk : Chunk) (maxTokens : nat) :
  0 < maxTokens ->
  Forall (fun c => pageName c = pageName chunk /\ href c = href chunk)
         (splitLargeChunk chunk maxTokens)
  /\ ConservationSpec.conserved (fullContent chunk)
       (map fullContent (splitLargeChunk chunk maxTokens))
  /\ squash (concat (map fullContent (splitLargeChunk chunk maxTokens)))
     = squash (fullContent chunk)
  /\ (paragraphs_of (fullContent chunk) <> [] ->
      Forall (fun c => estimateTokens (fullContent c) <= maxTokens)
             (splitLargeChunk chunk maxTokens))
  /\ (paragraphs_of (fullContent chunk) = [] -> splitLargeChunk chunk maxTokens = [chunk])
  /\ (estimateTokens (fullContent chunk) <= maxTokens ->
      splitLargeChunk chunk maxTokens = [chunk]).
Proof.
  intros Hm. split; [|split; [apply splitLargeChunk_conserved|]]; revert Hm.
  - intros Hm. rewrite splitLargeChunk_collected.
    destruct (collected_spec chunk maxTokens Hm) as (G & _ & _).
    destruct (good_weaken _ _ _ G) as [Gm _].
    destruct (estimateTokens (fullContent chunk) <=? maxTokens); [now repeat constructor|].
    destruct (subChunks (collected chunk maxTokens)); [now repeat constructor|exact Gm].
  - intros Hm. rewrite splitLargeChunk_collected.
    destruct (collected_spec chunk maxTokens Hm) as (G & C & P).
    destruct (good_weaken _ _ _ G) as [Gm Gb].
    destruct (Nat.leb_spec (estimateTokens (fullContent chunk)) maxTokens) as [Hfit|Hover].
    + repeat split; auto. simpl. now rewrite app_nil_r.
    + unfold contents in C. repeat split.
      * destruct (subChunks (collected chunk maxTokens)); [simpl; now rewrite app_nil_r|exact C].
      * intros Hp. specialize (P Hp).
        destruct (subChunks (collected chunk maxTokens)); [congruence|exact Gb].
      * intros Hp. now rewrite (collected_blank chunk maxTokens Hp).
      * lia.
Qed.

Lemma splitLargeChunk_children_witness :
  Forall (fun c => pageName c = lit "Orbit" /\ href c = lit "orbit.html")
         (splitLargeChunk (section_chunk two_paragraphs) 4)
  /\ ConservationSpec.conserved two_paragraphs
       (map fullContent (splitLargeChunk (section_chunk two_paragraphs) 4))
  /\ squash (concat (map fullContent (splitLargeChunk (section_chunk two_paragraphs) 4)))
     = squash two_paragraphs
  /\ (paragraphs_of two_paragraphs <> [] ->
      Forall (fun c => estimateTokens (fullContent c) <= 4)
             (splitLargeChunk (section_chunk two_paragraphs) 4))
  /\ (paragraphs_of two_paragraphs = [] ->
      splitLargeChunk (section_chunk two_paragraphs) 4 = [section_chunk two_paragraphs])
  /\ (estimateTokens two_paragraphs <= 4 ->
      splitLargeChunk (section_chunk two_paragraphs) 4 = [section_chunk two_paragraphs]).
Proof. apply (splitLargeChunk_children (section_chunk two_paragraphs) 4). lia. Defined.

(** The whitespace the splitter rewrites.  With a budget of 4 tokens the
    first paragraph is cut into its sentences, put together again with
    one space, and the two others are joined with two line feeds; with
    a budget of 8 the first two paragraphs are joined, the three spaces
    between the sentences being kept and the three line feeds and two
    spaces between the paragraphs becoming two line feeds. *)
Example splitLargeChunk_spaced_out :
  map (fun c => string_of_list_ascii (fullContent c))
      (splitLargeChunk (section_chunk ConservationSpec.spaced_out) 4)
  = map string_of_list_ascii
      [ lit "One two. Three!"; lit "Four five" ++ [newline; newline] ++ lit "Six." ]
  /\ map (fun c => string_of_list_ascii (fullContent c))
         (splitLargeChunk (section_chunk ConservationSpec.spaced_out) 8)
     = map string_of_list_ascii
         [ lit "One two.   Three!" ++ [newline; newline] ++ lit "Four five"; lit "Six." ].
Proof. split; vm_compute; reflexivity. Qed.

Example splitLargeChunk_two_paragraphs :
  map (fun c => (string_of_list_ascii (id c), string_of_list_ascii (fullContent c)))
      (splitLargeChunk (section_chunk two_paragraphs) 4)
  = [ ("orbit#propagators_part_0", "Hello world.");
      ("orbit#propagators_part_1", "This is it!");
      ("orbit#propagators_part_2", "Second paragraph") ]%string.
Proof. vm_compute. reflexivity. Qed.

(** 1,000 characters without a paragraph break, split with a budget of
    10 tokens: several children, each within the budget, whose contents
    put together are the content of the parent. *)
Example splitLargeChunk_long_chunk :
  length (splitLargeChunk long_chunk 10) = 28
  /\ conserves long_chunk 10 (splitLargeChunk long_chunk 10) = true.
Proof. split; vm_compute; reflexivity. Qed.

(** The slice length in binary64, for the budget 1000. *)
Example charLimit_binary64 :
  (4 * 1000 * 0x1.ccccccccccccdp-1 =? 3600)%float = true
  /\ charLimit (N.to_nat 1000) = N.to_nat 3600.
Proof. split; vm_compute; reflexivity. Qed.

(** C4 as stated fails: a parent of eight spaces, estimated at 2 tokens,
    comes back unchanged from a split with budget 1, so its only child
    is over the budget, and is not a single character. *)
Lemma splitLargeChunk_blank_over_budget :
  splitLargeChunk blank8 1 = [blank8]
  /\ ~ Forall (fun c => estimateTokens (fullContent c) <= 1 \/ length (fullContent c) = 1)
              (splitLargeChunk blank8 1).
Proof.
  split; [vm_compute; reflexivity|].
  intros H. inversion H as [|? ? [Hc|Hc] _]; subst; vm_compute in Hc; [lia|discriminate].
Qed.

(** C10.  A chunk over the budget whose content has no paragraph that is
    not blank comes back from [splitLargeChunk] alone and unchanged, so
    what is returned is still over the budget. *)
Theorem splitLargeChunk_no_paragraph (chunk : Chunk) (maxTokens : nat) :
  maxTokens < estimateTokens (fullContent chunk) ->
  paragraphs_of (fullContent chunk) = [] ->
  splitLargeChunk chunk maxTokens = [chunk]
  /\ Forall (fun c => maxTokens < estimateTokens (fullContent c))
            (splitLargeChunk chunk maxTokens).
Proof.
  intros Hover Hp.
  pose proof (splitLargeChunk_alone chunk maxTokens Hp) as E.
  split; [exact E|]. rewrite E. constructor; [exact Hover|constructor].
Qed.

Lemma splitLargeChunk_no_paragraph_witness :
  splitLargeChunk blank_lines 2 = [blank_lines]
  /\ Forall (fun c => 2 < estimateTokens (fullContent c)) (splitLargeChunk blank_lines 2).
Proof.
  apply (splitLargeChunk_no_paragraph blank_lines 2).
  - vm_compute. lia.
  - reflexivity.
Defined.

(** Content without any non-whitespace character has no paragraph that
    is not blank. *)
Lemma paragraphs_of_blank (content : jsstring) :
  squash content = [] -> paragraphs_of content = [].
Proof.
  intros H. pose proof (paragraphs_of_squash content) as Q.
  pose proof (paragraphs_of_nonblank content) as N.
  destruct (paragraphs_of content) as [|p l]; [reflexivity|].
  inversion N as [|? ? Hp _]; subst. simpl in Q. rewrite squash_app, H in Q.
  destruct (squash p); [congruence|discriminate].
Qed.

Lemma squash_newlines (n : nat) : squash (repeat newline n) = [].
Proof. induction n as [|n IH]; [reflexivity|exact IH]. Qed.

End SplitterTheorems.

(** ** The embedding batcher *)

Section BatcherLemmas.
Import Js Embedder SplitterSpec BatcherSpec.

Variable embedBatch : list jsstring -> option (list (list float)).

Lemma tokens_app (b : list Chunk) (c : Chunk) : tokens (b ++ [c]) = tokens b + tokensOf c.
Proof. unfold tokens. rewrite map_app, list_sum_app. simpl. lia. Qed.

Lemma packed_nil : packed [].
Proof. intros before chunk after H. now destruct before. Qed.

Lemma packed_snoc (b : list Chunk) (c : Chunk) :
  packed b ->
  (b <> [] -> length b < MAX_BATCH_SIZE /\ tokens b + tokensOf c <= MAX_TOKENS_PER_BATCH) ->
  packed (b ++ [c]).
Proof.
  intros Hb Hc before chunk after E Hne.
  induction after as [|x after' _] using rev_ind.
  - apply app_inj_tail in E. destruct E as [<- <-]. now apply Hc.
  - rewrite app_comm_cons, app_assoc in E. apply app_inj_tail in E.
    destruct E as [E _]. now apply (Hb before chunk after').
Qed.

Lemma overLimits_true (st : Batching) (n : nat) :
  overLimits st n = true -> currentBatch st <> [].
Proof.
  unfold overLimits. intros H E. rewrite E in H. simpl in H.
  now vm_compute in H.
Qed.

Lemma overLimits_false (st : Batching) (n : nat) :
  overLimits st n = false ->
  length (currentBatch st) < MAX_BATCH_SIZE
  /\ (currentBatch st <> [] -> currentBatchTokens st + n <= MAX_TOKENS_PER_BATCH).
Proof.
  unfold overLimits. intros H. apply orb_false_elim in H. destruct H as [H1 H2].
  apply Nat.leb_gt in H1. split; [exact H1|]. intros Hne.
  apply andb_false_elim in H2. destruct H2 as [H2|H2].
  - apply Nat.ltb_ge in H2. destruct (currentBatch st); [congruence|simpl in H2; lia].
  - now apply Nat.ltb_ge in H2.
Qed.

Lemma processBatch_sound (st : Batching) :
  sound st -> currentBatch st <> [] ->
  sound (fst (processBatch embedBatch st))
  /\ (snd (processBatch embedBatch st) = true ->
      currentBatch (fst (processBatch embedBatch st)) = []).
Proof.
  intros (T & P & H) Hne. unfold processBatch.
  destruct (embedBatch _) as [embeddings|]; cbn [fst snd].
  - split; [|reflexivity]. split; [reflexivity|]. split; [apply packed_nil|].
    cbn [handed]. apply Forall_app. split; [exact H|]. constructor; [now split|constructor].
  - split; [|discriminate]. split; [exact T|]. split; [exact P|].
    cbn [handed]. apply Forall_app. split; [exact H|]. constructor; [now split|constructor].
Qed.

Lemma batchLoop_sound (fuel : nat) : forall pending st,
  sound st -> sound (fst (batchLoop embedBatch fuel pending st)).
Proof.
  induction fuel as [|fuel IH]; intros pending st Hs; [exact Hs|].
  cbn [batchLoop]. destruct pending as [|chunk rest].
  - destruct (Nat.ltb_spec 0 (length (currentBatch st))) as [Hl|Hl]; [|exact Hs].
    destruct (processBatch_sound st Hs) as [S1 _].
    { destruct (currentBatch st); [simpl in Hl; lia|discriminate]. }
    now destruct (processBatch embedBatch st).
  - set (n := estimateTokens (fullContent chunk)).
    assert (Hstep : forall st1, sound st1 ->
              (currentBatch st1 <> [] ->
               length (currentBatch st1) < MAX_BATCH_SIZE
               /\ currentBatchTokens st1 + n <= MAX_TOKENS_PER_BATCH) ->
              sound (fst (if MAX_TOKENS_PER_INPUT <? n
                          then batchLoop embedBatch fuel
                                 (splitLargeChunk chunk resplitBudget
                                  ++ rest) st1
                          else batchLoop embedBatch fuel rest
                                 {| currentBatch := currentBatch st1 ++ [chunk];
                                    currentBatchTokens := currentBatchTokens st1 + n;
                                    embeddedChunks := embeddedChunks st1;
                                    handed := handed st1 |}))).
    { intros st1 (T1 & P1 & H1) Hfit.
      destruct (MAX_TOKENS_PER_INPUT <? n); apply IH; [now split|].
      split; [|split]; cbn [currentBatch currentBatchTokens handed].
      - rewrite tokens_app, T1. reflexivity.
      - apply packed_snoc; [exact P1|]. intros Hne. rewrite <- T1. now apply Hfit.
      - exact H1. }
    destruct (overLimits st n) eqn:Eo.
    + destruct (processBatch_sound st Hs (overLimits_true st n Eo)) as [S1 E1].
      destruct (processBatch embedBatch st) as [st1 ok]. cbn [fst snd] in *.
      destruct ok; cbn [negb]; [|exact S1].
      apply Hstep; [exact S1|]. intros Hne. now rewrite E1 in Hne.
    + cbn [negb]. apply Hstep; [exact Hs|].
      intros Hne. destruct (overLimits_false st n Eo) as [L F]. auto.
Qed.

Lemma closed_snoc (bs : list (list Chunk)) (b b' : list Chunk) :
  closed (bs ++ [b]) -> closes b b' -> closed (bs ++ [b; b']).
Proof.
  induction bs as [|a bs IH]; intros H Hc.
  - simpl. auto.
  - destruct bs as [|a' bs].
    + simpl in *. tauto.
    + change (closes a a' /\ closed ((a' :: bs) ++ [b])) in H.
      change (closes a a' /\ closed ((a' :: bs) ++ [b; b'])).
      destruct H as [H1 H2]. split; [exact H1|]. now apply IH.
Qed.

Lemma closes_grow (b next : list Chunk) (c : Chunk) :
  next <> [] -> closes b next -> closes b (next ++ [c]).
Proof. destruct next; [congruence|]. intros _ H. exact H. Qed.

Lemma closed_grow (bs : list (list Chunk)) (b : list Chunk) (c : Chunk) :
  b <> [] -> closed (bs ++ [b]) -> closed (bs ++ [b ++ [c]]).
Proof.
  intros Hb. induction bs as [|a bs IH]; intros H.
  - exact I.
  - destruct bs as [|a' bs].
    + simpl in *. destruct H as [H _]. split; [|exact I]. now apply closes_grow.
    + change (closes a a' /\ closed ((a' :: bs) ++ [b])) in H.
      change (closes a a' /\ closed ((a' :: bs) ++ [b ++ [c]])).
      destruct H as [H1 H2]. split; [exact H1|]. now apply IH.
Qed.

Lemma processBatch_handed (st : Batching) :
  handed (fst (processBatch embedBatch st)) = handed st ++ [currentBatch st].
Proof. unfold processBatch. now destruct (embedBatch _). Qed.

Lemma batchLoop_handed (fuel : nat) : forall pending st b,
  In b (handed st) -> In b (handed (fst (batchLoop embedBatch fuel pending st))).
Proof.
  induction fuel as [|fuel IH]; intros pending st b Hb; [exact Hb|].
  cbn [batchLoop]. destruct pending as [|chunk rest].
  - destruct (0 <? length (currentBatch st)); [|exact Hb].
    pose proof (processBatch_handed st) as E.
    destruct (processBatch embedBatch st) as [st1 ok]. cbn [fst] in *.
    rewrite E. apply in_or_app. now left.
  - assert (H1 : In b (handed (fst (if overLimits st (estimateTokens (fullContent chunk))
                                    then processBatch embedBatch st else (st, true))))).
    { destruct (overLimits st _); [|exact Hb].
      rewrite processBatch_handed. apply in_or_app. now left. }
    destruct (if overLimits st _ then processBatch embedBatch st else (st, true)) as [st1 ok].
    cbn [fst] in H1. destruct ok; cbn [negb fst]; [|exact H1].
    destruct (MAX_TOKENS_PER_INPUT <? _); apply IH; exact H1.
Qed.

(** A batch made of one chunk over the batch budget is handed as it is. *)
Lemma batchLoop_alone (fuel : nat) (pending : list Chunk) (st : Batching) (c : Chunk) :
  currentBatch st = [c] -> MAX_TOKENS_PER_BATCH < currentBatchTokens st ->
  snd (batchLoop embedBatch fuel pending st) = Returned ->
  In [c] (handed (fst (batchLoop embedBatch fuel pending st))).
Proof.
  intros Hc Ht. destruct fuel as [|fuel]; [discriminate|].
  cbn [batchLoop]. destruct pending as [|chunk rest].
  - rewrite Hc. cbn [length Nat.ltb Nat.leb].
    pose proof (processBatch_handed st) as E.
    destruct (processBatch embedBatch st) as [st1 ok]. cbn [fst snd] in *.
    intros _. rewrite E, Hc. apply in_or_app. right. now left.
  - assert (Eo : overLimits st (estimateTokens (fullContent chunk)) = true).
    { unfold overLimits. rewrite Hc. cbn [length Nat.ltb Nat.leb andb].
      apply orb_true_iff. right. apply Nat.ltb_lt. lia. }
    rewrite Eo. pose proof (processBatch_handed st) as E.
    destruct (processBatch embedBatch st) as [st1 ok]. cbn [fst] in E.
    destruct ok; cbn [negb]; [|discriminate].
    assert (H1 : In [c] (handed st1)).
    { rewrite E, Hc. apply in_or_app. right. now left. }
    destruct (MAX_TOKENS_PER_INPUT <? _); intros _; apply batchLoop_handed; exact H1.
Qed.

(** The test that closes the current batch before [chunkTokens] more
    tokens are added to it. *)
Lemma closing_sound (st : Batching) (chunkTokens : nat) :
  sound st ->
  sound (fst (if overLimits st chunkTokens then processBatch embedBatch st else (st, true)))
  /\ (snd (if overLimits st chunkTokens then processBatch embedBatch st else (st, true)) = true ->
      currentBatch (fst (if overLimits st chunkTokens
                         then processBatch embedBatch st else (st, true))) <> [] ->
      length (currentBatch (fst (if overLimits st chunkTokens
                                 then processBatch embedBatch st else (st, true))))
      < MAX_BATCH_SIZE
      /\ currentBatchTokens (fst (if overLimits st chunkTokens
                                  then processBatch embedBatch st else (st, true)))
         + chunkTokens <= MAX_TOKENS_PER_BATCH).
Proof.
  intros Hs. destruct (overLimits st chunkTokens) eqn:Eo.
  - destruct (processBatch_sound st Hs (overLimits_true st _ Eo)) as [S1 E1].
    split; [exact S1|]. intros Hok Hne. now rewrite (E1 Hok) in Hne.
  - split; [exact Hs|]. intros _ Hne. cbn [fst].
    destruct (overLimits_false st _ Eo) as [L F]. auto.
Qed.

Lemma batchLoop_single (fuel : nat) : forall pending st c,
  In c pending ->
  MAX_TOKENS_PER_BATCH < tokensOf c -> tokensOf c <= MAX_TOKENS_PER_INPUT ->
  sound st ->
  snd (batchLoop embedBatch fuel pending st) = Returned ->
  In [c] (handed (fst (batchLoop embedBatch fuel pending st))).
Proof.
  induction fuel as [|fuel IH]; intros pending st c Hin Hlo Hhi Hs; [discriminate|].
  destruct pending as [|chunk rest]; [contradiction|].
  cbn [batchLoop]. fold (tokensOf chunk).
  destruct (closing_sound st (tokensOf chunk) Hs) as [S1 F1].
  destruct (if overLimits st (tokensOf chunk) then processBatch embedBatch st else (st, true))
    as [st1 ok]. cbn [fst snd] in S1, F1.
  destruct ok; cbn [negb]; [|discriminate].
  destruct (Nat.ltb_spec MAX_TOKENS_PER_INPUT (tokensOf chunk)) as [Hbig|Hsmall].
  - apply IH; try assumption. apply in_or_app. right.
    destruct Hin as [->|Hin]; [lia|exact Hin].
  - destruct Hin as [->|Hin].
    + destruct (currentBatch st1) as [|d cur] eqn:E.
      * apply batchLoop_alone; cbn [currentBatch currentBatchTokens]; [reflexivity|lia].
      * destruct (F1 eq_refl ltac:(discriminate)) as [_ F]. lia.
    + apply IH; try assumption.
      destruct S1 as (T1 & P1 & G1). split; [|split]; cbn [currentBatch currentBatchTokens handed].
      * now rewrite tokens_app, T1.
      * apply packed_snoc; [exact P1|]. intros Hne. rewrite <- T1. now apply F1.
      * exact G1.
Qed.

Lemma default_per_input : N.to_nat 1000 <= MAX_TOKENS_PER_INPUT.
Proof. apply Nat.leb_le. vm_compute. reflexivity. Qed.

(** Under a positive budget the children of a chunk that has a paragraph
    which is not blank are within the budget. *)
Lemma splitLargeChunk_within (chunk : Chunk) (maxTokens : nat) :
  0 < maxTokens -> paragraphs_of (fullContent chunk) <> [] ->
  Forall (fun c => tokensOf c <= maxTokens) (splitLargeChunk chunk maxTokens).
Proof.
  intros Hm Hp. rewrite splitLargeChunk_collected.
  destruct (Nat.leb_spec (estimateTokens (fullContent chunk)) maxTokens) as [Hfit|Hover].
  - now constructor.
  - destruct (collected_spec chunk maxTokens Hm) as (G & _ & P). specialize (P Hp).
    unfold good in G.
    destruct (subChunks (collected chunk maxTokens)) eqn:E; [congruence|].
    eapply Forall_impl; [|exact G]. cbv beta. unfold tokensOf. tauto.
Qed.

Lemma splitLargeChunk_small (chunk : Chunk) (maxTokens : nat) :
  tokensOf chunk <= maxTokens -> splitLargeChunk chunk maxTokens = [chunk].
Proof.
  intros H. unfold splitLargeChunk. apply Nat.leb_le in H. unfold tokensOf in H. now rewrite H.
Qed.

(** The first pass leaves no chunk over the per-input ceiling, unless a
    chunk over it has no paragraph that is not blank. *)
Lemma processedChunks_bounded (chunks : list Chunk) :
  Forall (fun c => paragraphs_of (fullContent c) <> []
                   \/ tokensOf c <= MAX_TOKENS_PER_INPUT) chunks ->
  Forall (fun c => tokensOf c <= MAX_TOKENS_PER_INPUT) (processedChunks chunks).
Proof.
  induction 1 as [|c chunks Hc _ IH]; [constructor|].
  unfold processedChunks. cbn [flat_map]. apply Forall_app. split; [|exact IH].
  unfold splitLargeChunk_default.
  destruct (Nat.le_gt_cases (tokensOf c) (N.to_nat 1000)) as [Hs|Hb].
  - rewrite splitLargeChunk_small by assumption. constructor; [|constructor].
    pose proof default_per_input. lia.
  - destruct Hc as [Hc|Hc].
    + eapply Forall_impl; [|apply splitLargeChunk_within; [lia|exact Hc]].
      cbv beta. intros a Ha. pose proof default_per_input. lia.
    + rewrite splitLargeChunk_collected.
      destruct (estimateTokens (fullContent c) <=? N.to_nat 1000); [now constructor|].
      destruct (subChunks (collected c (N.to_nat 1000))) eqn:E; [now constructor|].
      destruct (list_eq_dec (list_eq_dec ascii_dec) (paragraphs_of (fullContent c)) []) as [Hp|Hp].
      * rewrite (collected_blank c (N.to_nat 1000) Hp) in E. discriminate.
      * destruct (collected_spec c (N.to_nat 1000) ltac:(lia)) as (G & _ & _).
        unfold good in G. rewrite E in G.
        eapply Forall_impl; [|exact G]. cbv beta. unfold tokensOf.
        intros a (_ & _ & Ha). pose proof default_per_input. lia.
Qed.

(** The pre-pass keeps the chunks that are not over the per-input
    ceiling. *)
Lemma normalizedChunks_keeps (chunks : list Chunk) (c : Chunk) :
  In c (processedChunks chunks) -> tokensOf c <= MAX_TOKENS_PER_INPUT ->
  In c (normalizedChunks chunks).
Proof.
  intros Hin Hc. unfold normalizedChunks. apply in_flat_map. exists c. split; [exact Hin|].
  apply Nat.ltb_ge in Hc. unfold tokensOf in Hc. rewrite Hc. now left.
Qed.

Lemma normalizedChunks_bounded (chunks : list Chunk) :
  Forall (fun c => tokensOf c <= MAX_TOKENS_PER_INPUT) (processedChunks chunks) ->
  normalizedChunks chunks = processedChunks chunks.
Proof.
  unfold normalizedChunks. induction 1 as [|c l Hc _ IH]; [reflexivity|].
  cbn [flat_map]. rewrite IH. apply Nat.ltb_ge in Hc. unfold tokensOf in Hc. now rewrite Hc.
Qed.

Lemma processedChunks_small (chunks : list Chunk) :
  Forall (fun c => tokensOf c <= N.to_nat 1000) chunks -> processedChunks chunks = chunks.
Proof.
  unfold processedChunks. induction 1 as [|c l Hc _ IH]; [reflexivity|].
  cbn [flat_map]. rewrite IH. unfold splitLargeChunk_default.
  now rewrite splitLargeChunk_small.
Qed.

Lemma tokens_units (b : list Chunk) :
  Forall (fun c => tokensOf c = 1) b -> tokens b = length b.
Proof.
  unfold tokens. induction 1 as [|c b Hc _ IH]; [reflexivity|].
  cbn [map length]. change (tokensOf c + list_sum (map tokensOf b) = S (length b)).
  now rewrite Hc, IH.
Qed.

Lemma packed_length (b : list Chunk) : packed b -> length b <= MAX_BATCH_SIZE.
Proof.
  intros P. induction b as [|x b _] using rev_ind; [simpl; lia|].
  destruct b as [|y b]; [simpl; unfold MAX_BATCH_SIZE; lia|].
  destruct (P (y :: b) x [] eq_refl ltac:(discriminate)) as [L _].
  rewrite length_app. simpl in *. lia.
Qed.

(** Fifty-one chunks of one token each, dealt into batches that are
    packed and closed, make a batch of 50 and a batch of 1. *)
Lemma fifty_and_one (batches : list (list Chunk)) :
  length (concat batches) = 51 ->
  Forall (fun c => tokensOf c = 1) (concat batches) ->
  Forall (fun b => b <> [] /\ packed b) batches ->
  closed batches ->
  map (@length Chunk) batches = [50; 1].
Proof.
  intros Hlen Hone Hb Hc.
  destruct batches as [|b1 rest]; [discriminate|].
  inversion Hb as [|? ? [N1 P1] Hrest]; subst.
  pose proof (packed_length b1 P1) as L1. unfold MAX_BATCH_SIZE in L1.
  cbn [concat] in Hlen, Hone. rewrite length_app in Hlen.
  apply Forall_app in Hone. destruct Hone as [O1 Orest].
  destruct rest as [|b2 rest]; [simpl in Hlen; lia|].
  destruct Hc as [Hc _]. inversion Hrest as [|? ? [N2 P2] Hrest']; subst.
  destruct b2 as [|x b2]; [contradiction|].
  cbn [concat] in Orest. inversion Orest as [|? ? Ox _]; subst.
  cbn [closes] in Hc. rewrite (tokens_units b1 O1), Ox in Hc.
  assert (B : 51 <= MAX_TOKENS_PER_BATCH) by (apply Nat.leb_le; vm_compute; reflexivity).
  unfold MAX_BATCH_SIZE in Hc.
  assert (E1 : length b1 = 50) by lia.
  cbn [concat] in Hlen. rewrite length_app in Hlen. cbn [length] in Hlen.
  assert (E2 : length b2 = 0) by lia.
  assert (E3 : length (concat rest) = 0) by lia.
  destruct rest as [|b3 rest].
  - cbn [map length]. now rewrite E1, E2.
  - inversion Hrest' as [|? ? [N3 _] _]; subst.
    cbn [concat] in E3. rewrite length_app in E3.
    destruct b3; [contradiction|simpl in E3; lia].
Qed.

Hypothesis embedBatch_succeeds : forall texts, embedBatch texts <> None.

Lemma processBatch_succeeds (st : Batching) :
  exists embeddings,
    processBatch embedBatch st
    = ({| currentBatch := [];
          currentBatchTokens := 0;
          embeddedChunks := embeddedChunks st ++ attach (currentBatch st) embeddings;
          handed := handed st ++ [currentBatch st] |}, true).
Proof.
  unfold processBatch. destruct (embedBatch _) as [embeddings|] eqn:E.
  - now exists embeddings.
  - now apply embedBatch_succeeds in E.
Qed.

Lemma batchLoop_returns (pending : list Chunk) : forall st,
  Forall (fun c => tokensOf c <= MAX_TOKENS_PER_INPUT) pending ->
  sound st -> chained st ->
  snd (batchLoop embedBatch (S (length pending)) pending st) = Returned
  /\ concat (handed (fst (batchLoop embedBatch (S (length pending)) pending st)))
     = concat (handed st) ++ currentBatch st ++ pending
  /\ closed (handed (fst (batchLoop embedBatch (S (length pending)) pending st))).
Proof.
  induction pending as [|chunk rest IH]; intros st Hp Hs Hc.
  - cbn [length batchLoop]. unfold chained in Hc.
    destruct (currentBatch st) as [|c cur] eqn:E.
    + cbn. rewrite Hc. now repeat split.
    + cbn [length Nat.ltb Nat.leb]. destruct (processBatch_succeeds st) as [embeddings ->].
      cbn [fst snd handed]. rewrite E, concat_app. cbn [concat]. rewrite !app_nil_r.
      now repeat split.
  - inversion Hp as [|? ? Hchunk Hrest]; subst.
    change (batchLoop embedBatch (S (length (chunk :: rest))) (chunk :: rest) st)
      with (let chunkTokens := estimateTokens (fullContent chunk) in
            let '(st1, ok) :=
              if overLimits st chunkTokens then processBatch embedBatch st else (st, true) in
            if negb ok then (st1, Thrown)
            else if MAX_TOKENS_PER_INPUT <? chunkTokens then
              batchLoop embedBatch (S (length rest))
                (splitLargeChunk chunk resplitBudget ++ rest) st1
            else
              batchLoop embedBatch (S (length rest)) rest
                {| currentBatch := currentBatch st1 ++ [chunk];
                   currentBatchTokens := currentBatchTokens st1 + chunkTokens;
                   embeddedChunks := embeddedChunks st1;
                   handed := handed st1 |}).
    cbv zeta. fold (tokensOf chunk).
    assert (Hno : (MAX_TOKENS_PER_INPUT <? tokensOf chunk) = false) by now apply Nat.ltb_ge.
    destruct Hs as (T & P & H).
    destruct (overLimits st (tokensOf chunk)) eqn:Eo.
    + destruct (processBatch_succeeds st) as [embeddings ->]. cbn [negb]. rewrite Hno.
      cbn [currentBatch currentBatchTokens embeddedChunks handed].
      pose proof (overLimits_true st _ Eo) as Hne.
      edestruct (IH {| currentBatch := [] ++ [chunk];
                       currentBatchTokens := 0 + tokensOf chunk;
                       embeddedChunks := embeddedChunks st ++ attach (currentBatch st) embeddings;
                       handed := handed st ++ [currentBatch st] |} Hrest) as (R & C & K).
      * split; [|split]; cbn [currentBatch currentBatchTokens handed].
        -- unfold tokens. simpl. lia.
        -- apply packed_snoc; [apply packed_nil|congruence].
        -- apply Forall_app. split; [exact H|]. constructor; [now split|constructor].
      * unfold chained. cbn [currentBatch handed app].
        rewrite <- app_assoc. apply closed_snoc.
        -- unfold chained in Hc. destruct (currentBatch st); [congruence|exact Hc].
        -- unfold overLimits in Eo. rewrite T in Eo. cbn [closes].
           apply orb_prop in Eo. destruct Eo as [Eo|Eo].
           ++ left. now apply Nat.leb_le.
           ++ right. apply andb_prop in Eo. now apply Nat.ltb_lt.
      * cbn [currentBatch handed] in C. split; [exact R|]. split; [|exact K].
        rewrite C, concat_app. cbn [concat app]. now rewrite app_nil_r, <- !app_assoc.
    + cbn [negb]. rewrite Hno.
      destruct (overLimits_false st _ Eo) as [L F].
      edestruct (IH {| currentBatch := currentBatch st ++ [chunk];
                       currentBatchTokens := currentBatchTokens st + tokensOf chunk;
                       embeddedChunks := embeddedChunks st;
                       handed := handed st |} Hrest) as (R & C & K).
      * split; [|split]; cbn [currentBatch currentBatchTokens handed].
        -- now rewrite tokens_app, T.
        -- apply packed_snoc; [exact P|]. intros Hne. rewrite <- T. auto.
        -- exact H.
      * unfold chained in *. cbn [currentBatch handed].
        destruct (currentBatch st) as [|c cur] eqn:E.
        -- rewrite Hc. exact I.
        -- change ((c :: cur) ++ [chunk]) with (c :: (cur ++ [chunk])).
           change (c :: (cur ++ [chunk])) with ((c :: cur) ++ [chunk]).
           destruct ((c :: cur) ++ [chunk]) eqn:E'; [discriminate|]. rewrite <- E'.
           apply closed_grow; [discriminate|exact Hc].
      * cbn [currentBatch handed] in C. split; [exact R|]. split; [|exact K].
        rewrite C. now rewrite <- !app_assoc.
Qed.

End BatcherLemmas.

Section BatcherTheorems.
Import Js Embedder SplitterSpec BatcherSpec.

Lemma start_sound : sound start.
Proof. split; [reflexivity|]. split; [apply packed_nil|constructor]. Qed.

Lemma start_chained : chained start.
Proof. reflexivity. Qed.

Lemma packed_budget (b : list Chunk) :
  b <> [] -> packed b -> tokens b <= MAX_TOKENS_PER_BATCH \/ length b = 1.
Proof.
  intros Hne P. induction b as [|x b _] using rev_ind; [congruence|].
  destruct b as [|y b]; [now right|]. left.
  destruct (P (y :: b) x [] eq_refl ltac:(discriminate)) as [_ T].
  now rewrite tokens_app.
Qed.

(** C5.  Whatever the run, every batch handed to [embedBatch] is not
    empty and each of its chunks but the first joined a batch of fewer
    than [MAX_BATCH_SIZE] chunks that it kept within
    [MAX_TOKENS_PER_BATCH].  When [embedBatch] does not fail and no
    chunk is both blank and over the per-input ceiling, the run returns,
    the batches are the normalized chunks in order, and each batch but
    the last was closed by the chunk that starts the next one, which
    found [MAX_BATCH_SIZE] chunks in it or would have taken it over
    [MAX_TOKENS_PER_BATCH]; so 51 chunks of one token each make two
    batches, of 50 and of 1. *)
Theorem generateEmbeddings_batches
  (embedBatch : list jsstring -> option (list (list float))) (chunks : list Chunk) :
  (forall fuel,
     Forall (fun b => b <> [] /\ packed b)
            (handed (fst (generateEmbeddings embedBatch fuel chunks))))
  /\ ((forall texts, embedBatch texts <> None) ->
      Forall (fun c => paragraphs_of (fullContent c) <> []
                       \/ tokensOf c <= MAX_TOKENS_PER_INPUT) chunks ->
      snd (generateEmbeddings embedBatch (S (length (normalizedChunks chunks))) chunks)
      = Returned
      /\ concat (handed (fst (generateEmbeddings embedBatch
                                (S (length (normalizedChunks chunks))) chunks)))
         = normalizedChunks chunks
      /\ closed (handed (fst (generateEmbeddings embedBatch
                                (S (length (normalizedChunks chunks))) chunks)))
      /\ (length chunks = 51 -> Forall (fun c => tokensOf c = 1) chunks ->
          map (@length Chunk)
              (handed (fst (generateEmbeddings embedBatch
                              (S (length (normalizedChunks chunks))) chunks)))
          = [50; 1])).
Proof.
  split.
  - intros fuel. unfold generateEmbeddings.
    apply (batchLoop_sound embedBatch fuel (normalizedChunks chunks) start start_sound).
  - intros Hok Hchunks.
    pose proof (processedChunks_bounded chunks Hchunks) as Hb.
    assert (Hn : Forall (fun c => tokensOf c <= MAX_TOKENS_PER_INPUT) (normalizedChunks chunks)).
    { now rewrite normalizedChunks_bounded. }
    destruct (batchLoop_returns embedBatch Hok (normalizedChunks chunks) start Hn
                start_sound start_chained) as (R & C & K).
    cbn [handed currentBatch start concat app] in C.
    unfold generateEmbeddings. fold start.
    split; [exact R|]. split; [exact C|]. split; [exact K|].
    intros Hlen Hone.
    assert (E : normalizedChunks chunks = chunks).
    { rewrite normalizedChunks_bounded by assumption. apply processedChunks_small.
      eapply Forall_impl; [|exact Hone]. cbv beta. intros c ->.
      apply Nat.leb_le. vm_compute. reflexivity. }
    apply fifty_and_one; try exact K.
    + now rewrite C, E.
    + now rewrite C, E.
    + apply (batchLoop_sound embedBatch _ (normalizedChunks chunks) start start_sound).
Qed.

Lemma generateEmbeddings_batches_witness :
  (forall fuel,
     Forall (fun b => b <> [] /\ packed b)
            (handed (fst (generateEmbeddings constant_embedding fuel fifty_one))))
  /\ snd (generateEmbeddings constant_embedding (S (length (normalizedChunks fifty_one)))
            fifty_one) = Returned
  /\ concat (handed (fst (generateEmbeddings constant_embedding
                            (S (length (normalizedChunks fifty_one))) fifty_one)))
     = normalizedChunks fifty_one
  /\ closed (handed (fst (generateEmbeddings constant_embedding
                            (S (length (normalizedChunks fifty_one))) fifty_one)))
  /\ map (@length Chunk)
         (handed (fst (generateEmbeddings constant_embedding
                         (S (length (normalizedChunks fifty_one))) fifty_one)))
     = [50; 1].
Proof.
  destruct (generateEmbeddings_batches constant_embedding fifty_one) as [A B].
  split; [exact A|].
  assert (Hone : Forall (fun c => tokensOf c = 1) fifty_one).
  { apply Forall_forall. intros c Hc. apply repeat_spec in Hc. subst. reflexivity. }
  destruct B as (R & C & K & S).
  - intros texts. discriminate.
  - eapply Forall_impl; [|exact Hone]. cbv beta. intros c ->. right.
    apply Nat.leb_le. vm_compute. reflexivity.
  - split; [exact R|]. split; [exact C|]. split; [exact K|].
    apply S; [reflexivity|exact Hone].
Defined.

(** C9.  Every batch handed to [embedBatch] is within
    [MAX_TOKENS_PER_BATCH] or holds a single chunk.  The pre-pass keeps a
    chunk estimated above [MAX_TOKENS_PER_BATCH] and below
    [MAX_TOKENS_PER_INPUT] as it is, and a run that returns has handed
    that chunk alone, as a batch over the batch budget. *)
Theorem batch_budget_or_single
  (embedBatch : list jsstring -> option (list (list float))) (fuel : nat) (chunks : list Chunk) :
  Forall (fun b => tokens b <= MAX_TOKENS_PER_BATCH \/ length b = 1)
         (handed (fst (generateEmbeddings embedBatch fuel chunks)))
  /\ forall c,
       In c (processedChunks chunks) ->
       MAX_TOKENS_PER_BATCH < tokensOf c -> tokensOf c < MAX_TOKENS_PER_INPUT ->
       In c (normalizedChunks chunks)
       /\ (snd (generateEmbeddings embedBatch fuel chunks) = Returned ->
           In [c] (handed (fst (generateEmbeddings embedBatch fuel chunks)))
           /\ MAX_TOKENS_PER_BATCH < tokens [c]).
Proof.
  split.
  - unfold generateEmbeddings.
    pose proof (batchLoop_sound embedBatch fuel (normalizedChunks chunks) start start_sound)
      as (_ & _ & H).
    eapply Forall_impl; [|exact H]. cbv beta. intros b [Hne P]. now apply packed_budget.
  - intros c Hin Hlo Hhi.
    assert (Hn : In c (normalizedChunks chunks)) by (apply normalizedChunks_keeps; [exact Hin|lia]).
    split; [exact Hn|]. intros R. split.
    + unfold generateEmbeddings in *.
      apply (batchLoop_single embedBatch fuel (normalizedChunks chunks) start c Hn Hlo
               ltac:(lia) start_sound R).
    + unfold tokens. simpl. lia.
Qed.

Lemma batch_budget_or_single_witness :
  Forall (fun b => tokens b <= MAX_TOKENS_PER_BATCH \/ length b = 1)
         (handed (fst (generateEmbeddings constant_embedding 2 [blank_page])))
  /\ In blank_page (normalizedChunks [blank_page])
  /\ In [blank_page] (handed (fst (generateEmbeddings constant_embedding 2 [blank_page])))
  /\ MAX_TOKENS_PER_BATCH < tokens [blank_page].
Proof.
  destruct (batch_budget_or_single constant_embedding 2 [blank_page]) as [A B].
  split; [exact A|].
  destruct (B blank_page) as [N S].
  - unfold processedChunks, splitLargeChunk_default. cbn [flat_map].
    rewrite splitLargeChunk_alone by (apply paragraphs_of_blank, squash_newlines).
    now left.
  - apply Nat.ltb_lt. vm_compute. reflexivity.
  - apply Nat.ltb_lt. vm_compute. reflexivity.
  - split; [exact N|]. apply S. vm_compute. reflexivity.
Defined.

End BatcherTheorems.

(** * Further properties

    Properties of the code around the retrieval core: the ranking and
    the cache store beyond what is stated above, the server and its
    search tool, the texts and the ids of the parser, the parts of the
    splitter, the output of the batcher, the retries of the scraper and
    of the embedding requests, and the setup command. *)

(** ** The order of the floats *)

Module Binary64Order.
Import Float64 Float64Order.
Local Open Scope Z_scope.

Lemma compare_ranks_triple (a1 a2 a3 b1 b2 b3 : Z) :
  compare_ranks (a1, a2, a3) (b1, b2, b3)
  = match a1 ?= b1 with
    | Eq => match a2 ?= b2 with Eq => a3 ?= b3 | c => c end
    | c => c
    end.
Proof. reflexivity. Qed.

Lemma SFcompare_rank (x y : spec_float) :
  x <> S754_nan -> y <> S754_nan ->
  SFcompare x y = Some (compare_ranks (rank x) (rank y)).
Proof.
  destruct x as [sx|sx| |sx mx ex], y as [sy|sy| |sy my ey]; intros Hx Hy;
    try congruence; cbn [SFcompare rank];
    try (destruct sx; reflexivity); try (destruct sy; reflexivity);
    try (destruct sx, sy; reflexivity).
  destruct sx, sy; try reflexivity; rewrite compare_ranks_triple, Z.compare_refl; f_equal.
  rewrite Z.compare_opp. rewrite (Z.compare_antisym ex ey).
  destruct (ex ?= ey); cbn [CompOpp]; reflexivity.
Qed.

Lemma compare_ranks_le_trans (a b c : Z * Z * Z) :
  compare_ranks a b <> Gt -> compare_ranks b c <> Gt -> compare_ranks a c <> Gt.
Proof.
  destruct a as [[a1 a2] a3], b as [[b1 b2] b3], c as [[c1 c2] c3].
  rewrite !compare_ranks_triple.
  destruct (Z.compare_spec a1 b1), (Z.compare_spec b1 c1), (Z.compare_spec a1 c1);
    try lia; try congruence;
    destruct (Z.compare_spec a2 b2), (Z.compare_spec b2 c2), (Z.compare_spec a2 c2);
    try lia; try congruence;
    destruct (Z.compare_spec a3 b3), (Z.compare_spec b3 c3), (Z.compare_spec a3 c3);
    try lia; congruence.
Qed.

Lemma compare_ranks_eq (a b : Z * Z * Z) : compare_ranks a b = Eq -> a = b.
Proof.
  destruct a as [[a1 a2] a3], b as [[b1 b2] b3]. rewrite compare_ranks_triple.
  destruct (Z.compare_spec a1 b1); try discriminate.
  destruct (Z.compare_spec a2 b2); try discriminate.
  destruct (Z.compare_spec a3 b3); try discriminate.
  intros _. congruence.
Qed.

Lemma compare_ranks_refl (a : Z * Z * Z) : compare_ranks a a = Eq.
Proof.
  destruct a as [[a1 a2] a3]. now rewrite compare_ranks_triple, !Z.compare_refl.
Qed.

(** The comparisons of the floats, by their places. *)
Lemma leb_rank (x y : float) :
  (x <=? y)%float = true
  <-> not_nan x /\ not_nan y /\ compare_ranks (rank (Prim2SF x)) (rank (Prim2SF y)) <> Gt.
Proof.
  rewrite leb_spec. unfold SFleb, not_nan. split.
  - intros H. assert (Hx : Prim2SF x <> S754_nan) by (intros E; rewrite E in H; discriminate).
    assert (Hy : Prim2SF y <> S754_nan).
    { intros E. rewrite E in H. destruct (Prim2SF x); discriminate. }
    rewrite SFcompare_rank in H by assumption.
    repeat split; try assumption. intros E. rewrite E in H. discriminate.
  - intros (Hx & Hy & H). rewrite SFcompare_rank by assumption.
    destruct (compare_ranks _ _); congruence.
Qed.

Lemma ltb_rank (x y : float) :
  (x <? y)%float = true
  <-> not_nan x /\ not_nan y /\ compare_ranks (rank (Prim2SF x)) (rank (Prim2SF y)) = Lt.
Proof.
  rewrite ltb_spec. unfold SFltb, not_nan. split.
  - intros H. assert (Hx : Prim2SF x <> S754_nan) by (intros E; rewrite E in H; discriminate).
    assert (Hy : Prim2SF y <> S754_nan).
    { intros E. rewrite E in H. destruct (Prim2SF x); discriminate. }
    rewrite SFcompare_rank in H by assumption.
    repeat split; try assumption. destruct (compare_ranks _ _); congruence.
  - intros (Hx & Hy & H). rewrite SFcompare_rank by assumption. now rewrite H.
Qed.

Lemma eqb_rank (x y : float) :
  (x =? y)%float = true
  <-> not_nan x /\ not_nan y /\ rank (Prim2SF x) = rank (Prim2SF y).
Proof.
  rewrite eqb_spec. unfold SFeqb, not_nan. split.
  - intros H. assert (Hx : Prim2SF x <> S754_nan) by (intros E; rewrite E in H; discriminate).
    assert (Hy : Prim2SF y <> S754_nan).
    { intros E. rewrite E in H. destruct (Prim2SF x); discriminate. }
    rewrite SFcompare_rank in H by assumption.
    repeat split; try assumption. apply compare_ranks_eq.
    destruct (compare_ranks _ _); congruence.
  - intros (Hx & Hy & H). rewrite SFcompare_rank by assumption.
    now rewrite H, compare_ranks_refl.
Qed.

Lemma leb_trans (x y z : float) :
  (x <=? y)%float = true -> (y <=? z)%float = true -> (x <=? z)%float = true.
Proof.
  rewrite !leb_rank. intros (Hx & Hy & H1) (_ & Hz & H2).
  repeat split; try assumption. eapply compare_ranks_le_trans; eassumption.
Qed.

(** Two floats one of which is below the other are not equal to a same
    float. *)
Lemma ltb_eqb (x y s : float) :
  (x <? y)%float = true -> (x =? s)%float = true -> (y =? s)%float = false.
Proof.
  rewrite ltb_rank, eqb_rank. intros (Hx & Hy & H) (_ & Hs & E).
  destruct (y =? s)%float eqn:F; [|reflexivity].
  apply eqb_rank in F. destruct F as (_ & _ & F).
  rewrite E, F, compare_ranks_refl in H. discriminate.
Qed.

Lemma xorb_sym (a b : bool) : xorb a b = xorb b a.
Proof. now destruct a, b. Qed.

Lemma mul_comm (x y : float) : (x * y = y * x)%float.
Proof.
  apply Prim2SF_inj. rewrite !mul_spec.
  destruct (Prim2SF x) as [sx|sx| |sx mx ex], (Prim2SF y) as [sy|sy| |sy my ey];
    unfold SF64mul; cbn [SFmul]; rewrite ?(xorb_sym sx sy); try reflexivity.
  now rewrite (Pos.mul_comm mx my), (Z.add_comm ex ey).
Qed.

End Binary64Order.

(** ** The ranking of the search engine *)

Section RankingLemmas.
Import Js Search SearchSpec RankingSpec.
Local Open Scope float_scope.

Lemma before_trans (r1 r2 r3 : SearchResult) : before r1 r2 -> before r2 r3 -> before r1 r3.
Proof. unfold before. intros H1 H2. eapply Binary64Order.leb_trans; eassumption. Qed.

Lemma Sorted_strongly (l : list SearchResult) : Sorted before l -> StronglySorted before l.
Proof. apply Sorted_StronglySorted. intros r1 r2 r3. apply before_trans. Qed.

(** In a list in descending order, what comes first is no lower than
    what comes after. *)
Lemma StronglySorted_split (k : nat) : forall l : list SearchResult,
  StronglySorted before l ->
  forall r r', In r (firstn k l) -> In r' (skipn k l) -> before r r'.
Proof.
  induction k as [|k IH]; intros l Hs r r' Hr Hr'; [contradiction|].
  destruct l as [|a l]; [contradiction|].
  apply StronglySorted_inv in Hs. destruct Hs as [Hs Ha].
  cbn [firstn skipn] in Hr, Hr'. destruct Hr as [<-|Hr].
  - rewrite Forall_forall in Ha. apply Ha.
    rewrite <- (firstn_skipn k l). apply in_or_app. now right.
  - now apply (IH l).
Qed.

Lemma hits_scored (q : list float) (minScore : float) (cs : list SearchChunk) :
  Forall scored (hits q minScore cs).
Proof.
  eapply Forall_impl; [|apply hits_minScore].
  intros r Hr. exact (proj2 (Binary64.leb_not_nan _ _ Hr)).
Qed.

Lemma search_holds (this : SearchEngine) (cs : list SearchChunk)
  (q : list float) (topK : Z) (minScore : float) :
  holds this cs ->
  Forall (fun c => length (embedding c) = length q) cs ->
  search this q topK minScore
  = (Normal (slice0 (sort comparefn (hits q minScore cs)) topK), this).
Proof.
  intros [Hl Hc] Hdim. unfold search. rewrite Hl, Hc. cbn [negb iterate bind].
  now rewrite scan_hits.
Qed.

(** The insertion of [a] passes the results that score more than [a]
    only, so that it changes the order of no two results of equal
    score. *)
Lemma ties_sort_insert (s : float) (a : SearchResult) (l : list SearchResult) :
  scored a -> Forall scored l ->
  ties s (sort_insert comparefn a l) = ties s (a :: l).
Proof.
  intros Ha Hl. induction Hl as [|b l Hb Hl IH]; [reflexivity|].
  cbn [sort_insert]. unfold comparefn at 1. rewrite Binary64.sub_positive by assumption.
  destruct (score a <? score b) eqn:E; [|reflexivity].
  unfold ties in *. cbn [filter] in *. rewrite IH.
  destruct (score a =? s) eqn:Ea; [|reflexivity].
  now rewrite (Binary64Order.ltb_eqb _ _ _ E Ea).
Qed.

Lemma ties_sort (s : float) (l : list SearchResult) :
  Forall scored l -> ties s (sort comparefn l) = ties s l.
Proof.
  induction 1 as [|a l Ha Hl IH]; [reflexivity|].
  cbn [sort]. rewrite ties_sort_insert; [|assumption|].
  - unfold ties in *. cbn [filter]. now rewrite IH.
  - eapply Permutation_Forall; [symmetry; apply sort_Permutation|assumption].
Qed.

Lemma ties_firstn (s : float) (k : nat) (l : list SearchResult) :
  exists later, ties s l = ties s (firstn k l) ++ later.
Proof.
  exists (ties s (skipn k l)). unfold ties.
  now rewrite <- filter_app, firstn_skipn.
Qed.

Lemma slice0_prefix {A : Type} (l : list A) (e : Z) : exists k, slice0 l e = firstn k l.
Proof. unfold slice0. eauto. Qed.

Lemma accumulate_sym (a b : list float) : forall d na nb,
  accumulate b a d nb na
  = let '(d', na', nb') := accumulate a b d na nb in (d', nb', na').
Proof.
  revert b. induction a as [|x a IH]; intros [|y b] d na nb; try reflexivity.
  cbn [accumulate]. rewrite (Binary64Order.mul_comm y x). apply IH.
Qed.

End RankingLemmas.

Section RankingTheorems.
Import Js Search SearchSpec RankingSpec.
Local Open Scope float_scope.

(** X1.  The results of [search] are the best-scoring hits: with the hits
    left out they make up the results pushed by the loop, none of those
    left out scores more than a result, and their number is the least of
    [topK] and the number of hits. *)
Theorem search_best (this : SearchEngine) (cs : list SearchChunk)
  (q : list float) (topK : Z) (minScore : float) :
  holds this cs ->
  Forall (fun c => length (embedding c) = length q) cs ->
  (0 <= topK)%Z ->
  exists results rest,
    search this q topK minScore = (Normal results, this)
    /\ Permutation (results ++ rest) (hits q minScore cs)
    /\ (forall r r', In r results -> In r' rest -> (score r' <=? score r) = true)
    /\ length results = Nat.min (Z.to_nat topK) (length (filter (reaches q minScore) cs)).
Proof.
  intros Hh Hdim Hk.
  set (ranking := sort comparefn (hits q minScore cs)).
  exists (firstn (Z.to_nat topK) ranking), (skipn (Z.to_nat topK) ranking).
  split; [|split; [|split]].
  - rewrite (search_holds this cs q topK minScore Hh Hdim). fold ranking.
    now rewrite slice0_firstn.
  - rewrite firstn_skipn. apply sort_Permutation.
  - intros r r' Hr Hr'.
    apply (StronglySorted_split (Z.to_nat topK) ranking); try assumption.
    apply Sorted_strongly, sort_Sorted, hits_scored.
  - rewrite length_firstn. unfold ranking.
    rewrite (Permutation_length (sort_Permutation _ _)), hits_length.
    now rewrite reaches_cosine.
Qed.

Lemma search_best_witness :
  exists results rest,
    search engine3 query3 2 0.5 = (Normal results, engine3)
    /\ Permutation (results ++ rest) (hits query3 0.5 corpus3)
    /\ (forall r r', In r results -> In r' rest -> (score r' <=? score r) = true)
    /\ length results = Nat.min (Z.to_nat 2) (length (filter (reaches query3 0.5) corpus3)).
Proof.
  apply (search_best engine3 corpus3 query3 2 0.5).
  - split; reflexivity.
  - repeat constructor.
  - lia.
Defined.

(** X2.  Results of equal score come in the order of the corpus: for every
    score, the results that have it are the first hits that have it, in
    the order in which the loop pushed them. *)
Theorem search_ties (this : SearchEngine) (cs : list SearchChunk)
  (q : list float) (topK : Z) (minScore : float) :
  holds this cs ->
  Forall (fun c => length (embedding c) = length q) cs ->
  exists results,
    search this q topK minScore = (Normal results, this)
    /\ forall s, exists later, ties s (hits q minScore cs) = ties s results ++ later.
Proof.
  intros Hh Hdim. rewrite (search_holds this cs q topK minScore Hh Hdim).
  eexists. split; [reflexivity|]. intros s.
  destruct (slice0_prefix (sort comparefn (hits q minScore cs)) topK) as [k ->].
  rewrite <- (ties_sort s (hits q minScore cs)) by apply hits_scored.
  apply ties_firstn.
Qed.

Lemma search_ties_witness :
  exists results,
    search engine_tied query3 10 0.5 = (Normal results, engine_tied)
    /\ forall s, exists later, ties s (hits query3 0.5 tied) = ties s results ++ later.
Proof.
  apply (search_ties engine_tied tied query3 10 0.5).
  - split; reflexivity.
  - repeat constructor.
Defined.

(** The second chunk scores 1 and comes first; the first and the third
    both score 0.6 and keep their order. *)
Example search_tied :
  contents_of (search engine_tied query3 10 0.5) = ["second"; "first"; "third"]%string
  /\ scores (search engine_tied query3 10 0.5)
     = Some [1; 0x1.3333333333333p-1; 0x1.3333333333333p-1].
Proof. split; vm_compute; reflexivity. Qed.

(** X3.  No result has a score that is not a number, and a threshold that is
    not a number lets no chunk through. *)
Theorem search_nan (this : SearchEngine) (cs : list SearchChunk)
  (q : list float) (topK : Z) (minScore : float) :
  holds this cs ->
  Forall (fun c => length (embedding c) = length q) cs ->
  (exists results,
     search this q topK minScore = (Normal results, this)
     /\ Forall (fun r => PrimFloat.is_nan (score r) = false) results)
  /\ search this q topK nan = (Normal [], this).
Proof.
  intros Hh Hdim. split.
  - rewrite (search_holds this cs q topK minScore Hh Hdim).
    eexists. split; [reflexivity|].
    destruct (slice0_prefix (sort comparefn (hits q minScore cs)) topK) as [k ->].
    apply Forall_forall. intros r Hr.
    assert (Hs : scored r).
    { pose proof (hits_scored q minScore cs) as H. rewrite Forall_forall in H. apply H.
      apply (Permutation_in _ (sort_Permutation comparefn _)).
      rewrite <- (firstn_skipn k). apply in_or_app. now left. }
    unfold scored, Float64.not_nan in Hs. unfold PrimFloat.is_nan.
    rewrite eqb_spec. unfold SFeqb.
    destruct (Prim2SF (score r)) as [s|s| |s m e] eqn:E; try congruence; cbn [SFcompare].
    + reflexivity.
    + now destruct s.
    + destruct s; rewrite Z.compare_refl, Pos.compare_cont_spec, Pos.compare_refl; reflexivity.
  - rewrite (search_holds this cs q topK nan Hh Hdim).
    assert (E : hits q nan cs = []).
    { clear. induction cs as [|c cs IH]; [reflexivity|]. cbn [hits flat_map].
      fold (hits q nan cs). rewrite IH.
      replace (nan <=? cosine q (embedding c)) with false; [reflexivity|].
      symmetry. rewrite leb_spec. reflexivity. }
    rewrite E. cbn [sort]. unfold slice0. now rewrite firstn_nil.
Qed.

Lemma search_nan_witness :
  (exists results,
     search engine3 query3 10 0.5 = (Normal results, engine3)
     /\ Forall (fun r => PrimFloat.is_nan (score r) = false) results)
  /\ search engine3 query3 10 nan = (Normal [], engine3).
Proof.
  apply (search_nan engine3 corpus3 query3 10 0.5).
  - split; reflexivity.
  - repeat constructor.
Defined.

(** X4.  [search] does not reject a [topK] that is not positive: with 0 it
    returns no result, and with a negative [topK] it returns the ranking
    without its last [- topK] results. *)
Theorem search_topK_nonpositive (this : SearchEngine) (cs : list SearchChunk)
  (q : list float) (topK : Z) (minScore : float) :
  holds this cs ->
  Forall (fun c => length (embedding c) = length q) cs ->
  (topK <= 0)%Z ->
  exists results dropped,
    search this q topK minScore = (Normal results, this)
    /\ Permutation (results ++ dropped) (hits q minScore cs)
    /\ (forall r r', In r results -> In r' dropped -> (score r' <=? score r) = true)
    /\ (topK = 0%Z -> results = [])
    /\ (topK < 0 ->
        Z.of_nat (length results)
        = Z.max (Z.of_nat (length (filter (reaches q minScore) cs)) + topK) 0)%Z.
Proof.
  intros Hh Hdim Hk.
  set (ranking := sort comparefn (hits q minScore cs)).
  assert (Hlen : length ranking = length (filter (reaches q minScore) cs)).
  { unfold ranking. rewrite (Permutation_length (sort_Permutation _ _)), hits_length.
    now rewrite reaches_cosine. }
  rewrite (search_holds this cs q topK minScore Hh Hdim). fold ranking.
  unfold slice0.
  set (k := Z.to_nat (if (topK <? 0)%Z then Z.max (Z.of_nat (length ranking) + topK) 0
                      else Z.min topK (Z.of_nat (length ranking)))).
  exists (firstn k ranking), (skipn k ranking).
  split; [reflexivity|]. split; [|split; [|split]].
  - rewrite firstn_skipn. apply sort_Permutation.
  - intros r r' Hr Hr'. apply (StronglySorted_split k ranking); try assumption.
    apply Sorted_strongly, sort_Sorted, hits_scored.
  - intros E. assert (Z : k = 0%nat) by (unfold k; rewrite E; cbn; lia).
    now rewrite Z.
  - intros Hneg. rewrite length_firstn. unfold k.
    destruct (Z.ltb_spec topK 0); lia.
Qed.

Lemma search_topK_nonpositive_witness :
  exists results dropped,
    search engine3 query3 (-1) 0.5 = (Normal results, engine3)
    /\ Permutation (results ++ dropped) (hits query3 0.5 corpus3)
    /\ (forall r r', In r results -> In r' dropped -> (score r' <=? score r) = true)
    /\ ((-1)%Z = 0%Z -> results = [])
    /\ ((-1 < 0)%Z ->
        Z.of_nat (length results)
        = Z.max (Z.of_nat (length (filter (reaches query3 0.5) corpus3)) + -1) 0)%Z.
Proof.
  apply (search_topK_nonpositive engine3 corpus3 query3 (-1) 0.5).
  - split; reflexivity.
  - repeat constructor.
  - lia.
Defined.

(** With [topK] at -1 the lower of the two hits is left out. *)
Example search_minus_one :
  scores (search engine3 query3 10 0.5) = Some [1; 0x1.6a09e667f3bccp-1]
  /\ scores (search engine3 query3 (-1) 0.5) = Some [1]
  /\ scores (search engine3 query3 0 0.5) = Some [].
Proof. repeat split; vm_compute; reflexivity. Qed.

(** X5.  The similarity of two vectors does not depend on their order, the
    failure on vectors of different lengths included. *)
Theorem cosineSimilarity_sym (a b : list float) :
  cosineSimilarity a b = cosineSimilarity b a.
Proof.
  unfold cosineSimilarity. rewrite (Nat.eqb_sym (length b) (length a)).
  destruct (Nat.eqb (length a) (length b)); [|reflexivity]. cbn [negb].
  rewrite (accumulate_sym a b 0 0 0).
  destruct (accumulate a b 0 0 0) as [[d na] nb].
  rewrite (orb_comm (nb =? 0) (na =? 0)), (Binary64Order.mul_comm (sqrt nb) (sqrt na)).
  reflexivity.
Qed.

End RankingTheorems.

(** ** The cache store: validation, clearing, footprint *)

Section CacheStoreLemmas.
Import Js Cache CacheSpec ValidationSpec.

Lemma checkChunk_checked (chunk : value) : checkChunk chunk = Normal tt <-> checked chunk.
Proof.
  unfold checked, checkChunk. split.
  - destruct chunk as [| |b|x|s|items|fields]; cbn [get bind truthy negb orb];
      try discriminate.
    intros H. exists fields. split; [reflexivity|].
    destruct (truthy (lookup "id" fields)); [|discriminate].
    destruct (truthy (lookup "pageName" fields)); [|discriminate].
    destruct (truthy (lookup "href" fields)); [|discriminate].
    destruct (truthy (lookup "fullContent" fields)); [|discriminate].
    destruct (truthy (lookup "embedding" fields)); [|discriminate].
    cbn [negb orb] in H.
    destruct (isArray (lookup "embedding" fields)); [|discriminate].
    now repeat split.
  - intros (fields & -> & Hi & Hp & Hh & Hf & He). cbn [get bind].
    rewrite Hi, Hp, Hh, Hf, He. cbn [negb orb].
    destruct (lookup "embedding" fields); try discriminate. reflexivity.
Qed.

Lemma checkChunks_checked (items : list value) :
  checkChunks items = Normal tt <-> Forall checked items.
Proof.
  induction items as [|chunk items IH]; cbn [checkChunks].
  - split; [constructor|reflexivity].
  - split.
    + intros H. destruct (checkChunk chunk) as [[]|e|] eqn:E; try discriminate.
      constructor; [now apply checkChunk_checked|now apply IH].
    + intros H. inversion H as [|? ? Hc Hr]; subst.
      apply checkChunk_checked in Hc. rewrite Hc. cbn [bind]. now apply IH.
Qed.

Lemma readCache_checked (file : content) (cs : value) :
  readCache file = Normal cs
  <-> exists document items timestamp,
        file = Json document /\ get document "chunks" = Normal (Arr items)
        /\ get document "timestamp" = Normal timestamp /\ convertible timestamp = true
        /\ cs = Arr items /\ Forall checked items.
Proof.
  unfold readCache. split.
  - destruct file as [document|]; [|discriminate]. cbn [parse bind].
    destruct (get document "chunks") as [v|e|] eqn:G; try discriminate. cbn [bind].
    destruct v as [| |b|x|s|items|fields]; cbn [truthy isArray negb orb];
      try discriminate;
      try (destruct b; discriminate);
      try (destruct (negb _); discriminate).
    destruct (get document "timestamp") as [timestamp|e|] eqn:T; try discriminate.
    cbn [bind]. destruct (convertible timestamp) eqn:P; [|discriminate].
    cbn [negb iterate bind].
    destruct (checkChunks items) as [[]|e|] eqn:C; try discriminate.
    cbn [bind]. intros H. injection H as <-.
    exists document, items, timestamp. repeat split; try assumption.
    now apply checkChunks_checked.
  - intros (document & items & timestamp & -> & G & T & P & -> & H). cbn [parse bind].
    rewrite G. cbn [bind truthy isArray negb orb]. rewrite T. cbn [bind]. rewrite P.
    cbn [negb iterate bind].
    apply checkChunks_checked in H. now rewrite H.
Qed.

(** The temporary file of [saveCache] is not the cache file. *)
Lemma tempPath_beside (env : Process) :
  same_file (cwd env) (getCachePath env ++ ".tmp") (getCachePath env) = false.
Proof.
  pose proof cache_names as Hf.
  destruct (getCachePath_file env) as (a & Ha & E1 & E2).
  destruct (location_file (cwd env) a (lit "embeddings.json") []) as (l & L & L');
    [exact Ha|discriminate|apply (Hf []); now left|apply (Hf []); now left|].
  unfold same_file. rewrite E2, E1.
  rewrite L, (L' (lit ".tmp")); [|apply Hf; now right|apply Hf; now right].
  destruct (list_eq_dec _ _ _) as [H|H]; [|now rewrite andb_false_r].
  apply app_inj_tail in H. destruct H as [_ H]. discriminate.
Qed.

Lemma clearCache_file (env : Process) (fs : FileSystem) :
  clearCache env fs (getCachePath env) = None.
Proof.
  unfold clearCache. destruct (fs (getCachePath env)) eqn:E; [|exact E].
  unfold unlinkSync. now rewrite cachePath_file.
Qed.

Lemma clearCache_others (env : Process) (fs : FileSystem) (p : string) :
  same_file (cwd env) p (getCachePath env) = false -> clearCache env fs p = fs p.
Proof.
  intros Hp. unfold clearCache. destruct (fs (getCachePath env)); [|reflexivity].
  unfold unlinkSync. now rewrite Hp.
Qed.

End CacheStoreLemmas.

Section CacheStoreTheorems.
Import Js Cache CacheSpec ValidationSpec.
Local Open Scope float_scope.

(** X6.  [loadCache] returns chunks exactly when the cache file holds a
    JSON document whose [chunks] is an array of chunks that pass the
    checks and whose [timestamp], which is logged before the checks,
    can be converted to a string; what it returns is that array.  In
    every other case it returns [null]. *)
Theorem loadCache_checked (env : Process) (fs : FileSystem) (cs : value) :
  loadCache env fs = Some cs
  <-> exists document items timestamp,
        fs (getCachePath env) = Some (Json document)
        /\ get document "chunks" = Normal (Arr items)
        /\ get document "timestamp" = Normal timestamp
        /\ convertible timestamp = true
        /\ cs = Arr items
        /\ Forall checked items.
Proof.
  unfold loadCache. split.
  - destruct (fs (getCachePath env)) as [file|]; [|discriminate].
    destruct (readCache file) as [v|e|] eqn:R; try discriminate.
    intros H. injection H as <-.
    apply readCache_checked in R.
    destruct R as (document & items & timestamp & -> & G & T & P & -> & H).
    now exists document, items, timestamp.
  - intros (document & items & timestamp & -> & G & T & P & -> & H).
    assert (R : readCache (Json document) = Normal (Arr items)).
    { apply readCache_checked. now exists document, items, timestamp. }
    now rewrite R.
Qed.

(** A timestamp that cannot be converted to a string makes [loadCache]
    return [null] on chunks that pass the checks: an object with a
    property [toString], alone or in an array.  An object without one,
    and any string or number, is logged and the chunks are returned. *)
Example loadCache_timestamp :
  loadCache env0 (cache_of (Obj [ ("timestamp"%string, hidden_toString);
                                  ("chunks"%string, Arr [odd_chunk]) ])) = None
  /\ loadCache env0 (cache_of (Obj [ ("timestamp"%string, Arr [Null; Arr [hidden_toString]]);
                                     ("chunks"%string, Arr [odd_chunk]) ])) = None
  /\ loadCache env0 (cache_of (Obj [ ("timestamp"%string, Obj [("valueOf"%string, Null)]);
                                     ("chunks"%string, Arr [odd_chunk]) ]))
     = Some (Arr [odd_chunk])
  /\ loadCache env0 (cache_of (Obj [ ("timestamp"%string, Number 5);
                                     ("chunks"%string, Arr [odd_chunk]) ]))
     = Some (Arr [odd_chunk]).
Proof. repeat split; reflexivity. Qed.

(** The checks look at no more than that: a chunk whose [id] is a number,
    whose [href] is a boolean and whose vector holds a string is
    returned by [loadCache]. *)
Example loadCache_odd_chunk :
  loadCache env0 (cache_of (Obj [ ("chunks"%string, Arr [odd_chunk]) ])) = Some (Arr [odd_chunk]).
Proof. reflexivity. Qed.

(** X7.  After [clearCache] there is no cache file, whatever there was:
    no file is seen at the cache path, nor, when there was one, at any
    path that denotes the same file; [loadCache] returns [null] and
    [getCacheInfo] reports no file.  Every path that denotes another
    file shows what it showed, and clearing again changes nothing. *)
Theorem clearCache_clears (env : Process) (fs : FileSystem) (bytes : nat) :
  clearCache env fs (getCachePath env) = None
  /\ (fs (getCachePath env) <> None ->
      forall p, same_file (cwd env) p (getCachePath env) = true -> clearCache env fs p = None)
  /\ (forall p, same_file (cwd env) p (getCachePath env) = false ->
                clearCache env fs p = fs p)
  /\ loadCache env (clearCache env fs) = None
  /\ getCacheInfo env bytes (clearCache env fs)
     = {| exists_ := false; path := getCachePath env; size := None; timestamp := Undefined |}
  /\ (forall p, clearCache env (clearCache env fs) p = clearCache env fs p).
Proof.
  pose proof (clearCache_file env fs) as H1.
  split; [exact H1|]. split; [|split; [|split; [|split]]].
  - intros Hfile p Hp. unfold clearCache.
    destruct (fs (getCachePath env)); [|congruence]. unfold unlinkSync. now rewrite Hp.
  - intros p Hp. now apply clearCache_others.
  - unfold loadCache. now rewrite H1.
  - unfold getCacheInfo. now rewrite H1.
  - intros p. unfold clearCache at 1. now rewrite H1.
Qed.

(** With [CACHE_DIR] at [./data] the cache path is [data/embeddings.json],
    and clearing removes what is seen at the other spellings of that
    path, the absolute one included; the file beside it stays. *)
Example clearCache_dot_data :
  getCachePath env_dot = "data/embeddings.json"%string
  /\ map (clearCache env_dot everywhere)
         ["data/embeddings.json"; "./data/embeddings.json"; "data//embeddings.json";
          "/srv/app/data/embeddings.json"; "data/./embeddings.json"]%string
     = [None; None; None; None; None]
  /\ map (clearCache env_dot everywhere)
         ["data/notes.txt"; "embeddings.json"; "/srv/data/embeddings.json";
          "data/embeddings.json.tmp"]%string
     = [Some Garbage; Some Garbage; Some Garbage; Some Garbage].
Proof. repeat split; vm_compute; reflexivity. Qed.

(** X8.  [saveCache] leaves no temporary file behind: nothing is seen at
    the temporary path nor at any path that denotes the same file.
    Every path that denotes neither the cache file nor the temporary
    file shows what it showed.  At the cache path, and at every path
    that denotes the same file, there is then a document with the
    timestamp, the version and the chunks as JSON writes them. *)
Theorem saveCache_footprint (env : Process) (now : jsstring)
  (cs : list Embedder.EmbeddedChunk) (fs : FileSystem) :
  (forall p, same_file (cwd env) p (getCachePath env ++ ".tmp") = true ->
             saveCache env now cs fs p = None)
  /\ (forall p, same_file (cwd env) p (getCachePath env) = false ->
                same_file (cwd env) p (getCachePath env ++ ".tmp") = false ->
                saveCache env now cs fs p = fs p)
  /\ exists document,
       (forall p, same_file (cwd env) p (getCachePath env) = true ->
                  saveCache env now cs fs p = Some (Json document))
       /\ get document "timestamp" = Normal (Str now)
       /\ get document "version" = Normal (Str (lit "1.0"))
       /\ get document "chunks" = Normal (Arr (map stored cs)).
Proof.
  split; [|split].
  - intros p Hp. unfold saveCache, renameSync.
    rewrite (same_file_trans _ _ _ _ Hp), tempPath_beside. now rewrite Hp.
  - intros p H1 H2. unfold saveCache, renameSync, writeFileSync. now rewrite H1, H2.
  - destruct (saveCache_file env now cs fs) as [t E].
    exists (Obj [ ("timestamp"%string, Str now);
                  ("version"%string, Str (lit "1.0"));
                  ("chunks"%string, Arr (map stored cs));
                  ("totalChunks"%string, t) ]).
    split; [|now repeat split].
    intros p Hp. rewrite <- E. unfold saveCache, renameSync.
    now rewrite Hp, cachePath_file.
Qed.

(** With [CACHE_DIR] at [./data] the cache is written to
    [data/embeddings.json], where every spelling of that path finds it. *)
Example saveCache_dot_data :
  map (fun p => match saveCache env_dot timestamp0 [] (fun _ => None) p with
                | Some _ => true
                | None => false
                end)
      ["data/embeddings.json"; "./data/embeddings.json"; "/srv/app/data/embeddings.json";
       "data/embeddings.json.tmp"; "./data/embeddings.json.tmp"; "data/notes.txt"]%string
  = [true; true; true; false; false; false].
Proof. vm_compute. reflexivity. Qed.

(** X9.  [getCacheInfo] reports a file exactly when there is one at the cache
    path, so whenever [loadCache] returns chunks; a file that is not
    JSON is reported without timestamp; and after [saveCache] the file
    is reported at the cache path with the timestamp that was saved. *)
Theorem getCacheInfo_reports (env : Process) (fs : FileSystem) (bytes : nat) :
  (exists_ (getCacheInfo env bytes fs) = true <-> fs (getCachePath env) <> None)
  /\ (loadCache env fs <> None -> exists_ (getCacheInfo env bytes fs) = true)
  /\ (fs (getCachePath env) = Some Garbage ->
      timestamp (getCacheInfo env bytes fs) = Undefined)
  /\ (forall now cs,
        exists_ (getCacheInfo env bytes (saveCache env now cs fs)) = true
        /\ path (getCacheInfo env bytes (saveCache env now cs fs)) = getCachePath env
        /\ timestamp (getCacheInfo env bytes (saveCache env now cs fs)) = Str now).
Proof.
  split; [|split; [|split]].
  - unfold getCacheInfo. destruct (fs (getCachePath env)); cbn [exists_]; split; congruence.
  - unfold getCacheInfo, loadCache. destruct (fs (getCachePath env)); cbn [exists_]; congruence.
  - unfold getCacheInfo. intros ->. reflexivity.
  - intros now cs. unfold getCacheInfo. destruct (saveCache_file env now cs fs) as [t ->].
    now repeat split.
Qed.

(** The path reported is the one [path.join] makes: with [CACHE_DIR] at
    [./data] it is [data/embeddings.json], with [data/] as well, and
    with [cache/../data/] too. *)
Example getCacheInfo_dot_data :
  map (fun dir => path (getCacheInfo {| CACHE_DIR := Some dir; HOME := None; cwd := "/srv/app" |}
                          1024 no_cache))
      ["./data"; "data/"; "cache/../data/"; "/var//cache/."; "~/cache"]%string
  = ["data/embeddings.json"; "data/embeddings.json"; "data/embeddings.json";
     "/var/cache/embeddings.json"; "cache/embeddings.json"]%string
  /\ path (getCacheInfo {| CACHE_DIR := None; HOME := None; cwd := "/srv/app" |} 1024 no_cache)
     = "/srv/app/data/embeddings.json"%string.
Proof. split; vm_compute; reflexivity. Qed.

(** The size is given in megabytes with two decimals, and the timestamp
    is read from a document that [loadCache] rejects. *)
Example getCacheInfo_stamped :
  getCacheInfo env0 (N.to_nat 1572864) stamped
  = {| exists_ := true;
       path := "data/embeddings.json";
       size := Some (Normal (lit "1.50 MB"));
       timestamp := Str timestamp0 |}
  /\ loadCache env0 stamped = None.
Proof. split; vm_compute; reflexivity. Qed.

End CacheStoreTheorems.

(** ** The server: the cache it loads and the tool it serves *)

Section ServerLemmas.
Import Js Search SearchSpec RankingSpec.
Local Open Scope float_scope.

Lemma jsonify_finite (v : list float) :
  Forall (fun x => PrimFloat.is_finite x = true) v ->
  map jsonify_number v = map Number (map (fun x => if PrimFloat.is_zero x then 0 else x) v).
Proof.
  induction 1 as [|x v Hx _ IH]; [reflexivity|].
  cbn [map]. rewrite IH. f_equal. unfold jsonify_number. rewrite Hx.
  now destruct (PrimFloat.is_zero x).
Qed.

Lemma stored_reloaded (c : Embedder.EmbeddedChunk) :
  Forall (fun x => PrimFloat.is_finite x = true) (Embedder.embedding c) ->
  CacheSpec.stored c = chunk_value (reloaded c).
Proof.
  intros H. unfold CacheSpec.stored, chunk_value, reloaded.
  cbn [id pageName href fullContent embedding]. now rewrite jsonify_finite.
Qed.

(** What the loop of [search] can throw. *)
Lemma similarity_throws (a : list float) (b : value) (e : exn) :
  similarity a b = Throw e -> e = TypeError \/ e = Error "Vectors must have the same length".
Proof.
  assert (C : forall v, cosineSimilarity a v = Throw e ->
                        e = Error "Vectors must have the same length").
  { intros v. unfold cosineSimilarity. destruct (negb _); [congruence|].
    destruct (accumulate a v 0 0 0) as [[d na] nb].
    destruct ((na =? 0) || (nb =? 0)); discriminate. }
  destruct b as [| |b|x|s|items|fields]; cbn [similarity]; try (intros H; injection H; auto).
  - destruct (negb _); [intros H; injection H; auto|]. destruct s; discriminate.
  - destruct (numbers items); [intros H; right; now apply (C l)|].
    destruct (negb _); [intros H; injection H; auto|discriminate].
  - destruct (lookup "length" fields); try discriminate. intros H; injection H; auto.
Qed.

Lemma scan_throws (q : list float) (minScore : float) (cs : list value) (e : exn) :
  scan q minScore cs = Throw e -> e = TypeError \/ e = Error "Vectors must have the same length".
Proof.
  induction cs as [|c cs IH]; cbn [scan]; [discriminate|].
  destruct (get c "embedding") as [v|e'|] eqn:G; cbn [bind]; try discriminate.
  - destruct (similarity q v) as [s|e'|] eqn:S; cbn [bind]; try discriminate.
    + destruct (scan q minScore cs) as [r|e'|]; cbn [bind]; try discriminate.
      intros H. injection H as <-. now apply IH.
    + intros H. injection H as <-. now apply (similarity_throws q v).
  - intros H. injection H as <-. destruct c; try discriminate; cbn [get] in G;
      injection G as <-; now left.
Qed.

Lemma cacheDir_getCacheDir (env : Cache.Process) :
  (forall dir, Cache.CACHE_DIR env = Some dir -> String.prefix "~/" dir = false) ->
  Index.cacheDir env = Cache.getCacheDir env.
Proof.
  intros H. unfold Index.cacheDir, Cache.getCacheDir.
  destruct (Cache.CACHE_DIR env) as [dir|]; [|reflexivity].
  destruct (String.eqb dir ""); [reflexivity|].
  unfold Cache.expandTildeInPath. now rewrite (H dir eq_refl).
Qed.

Lemma cacheDir_nonempty (env : Cache.Process) : Index.cacheDir env <> ""%string.
Proof.
  assert (J : path_join (Cache.cwd env) "data" <> ""%string).
  { destruct (path_join_file (Cache.cwd env) (lit "dat") "a"%char) as (a & E & _).
    - repeat (constructor; [reflexivity|]). constructor.
    - repeat split; reflexivity.
    - change (string_of_list_ascii (lit "dat" ++ ["a"%char])) with "data"%string in E.
      intros H. rewrite H in E. destruct a; discriminate. }
  unfold Index.cacheDir. destruct (Cache.CACHE_DIR env) as [dir|]; [|exact J].
  destruct (String.eqb dir "") eqn:D; [exact J|]. now apply String.eqb_neq.
Qed.

Lemma searchEngine_cacheDir (env : Cache.Process) :
  cacheDir (Index.searchEngine env) = Index.cacheDir env.
Proof.
  unfold Index.searchEngine, new. cbn [cacheDir].
  pose proof (cacheDir_nonempty env) as N. apply String.eqb_neq in N. now rewrite N.
Qed.

End ServerLemmas.

Section ServerTheorems.
Import Js Search SearchSpec RankingSpec.
Local Open Scope float_scope.

(** X10.  The server reads what the setup wrote.  When [CACHE_DIR] does not
    start with a tilde, the engine of the server loads the file that
    [saveCache] wrote for the same process: it then holds the chunks
    saved, a negative zero being read back as zero, and [getStats]
    counts them. *)
Theorem server_loads_saved (env : Cache.Process) (now : jsstring)
  (cs : list Embedder.EmbeddedChunk) (fs : FileSystem) :
  (forall dir, Cache.CACHE_DIR env = Some dir -> String.prefix "~/" dir = false) ->
  Forall (fun c => Forall (fun x => PrimFloat.is_finite x = true) (Embedder.embedding c)) cs ->
  exists engine,
    loadCache (Cache.saveCache env now cs fs) (Index.searchEngine env) = (Normal tt, engine)
    /\ holds engine (map reloaded cs)
    /\ getStats engine
       = Normal {| totalChunks := Number (number_of_nat (length cs)); isLoaded' := true |}.
Proof.
  intros Hdir Hfin. unfold loadCache.
  rewrite searchEngine_cacheDir, (cacheDir_getCacheDir env Hdir).
  fold Cache.CACHE_FILENAME. fold (Cache.getCachePath env).
  destruct (saveCache_file env now cs fs) as [t ->].
  cbn [parse bind get lookup String.eqb Ascii.eqb Bool.eqb].
  assert (E : map CacheSpec.stored cs = map chunk_value (map reloaded cs)).
  { rewrite map_map. induction Hfin as [|c cs Hc _ IH]; [reflexivity|].
    cbn [map]. now rewrite IH, stored_reloaded. }
  eexists. split; [reflexivity|]. split.
  - split; [reflexivity|]. cbn [chunks]. now rewrite E.
  - unfold getStats. cbn [chunks isLoaded length_of bind]. now rewrite length_map.
Qed.

Lemma server_loads_saved_witness :
  exists engine,
    loadCache (Cache.saveCache CacheSpec.env0 CacheSpec.timestamp0
                 [CacheSpec.embedded "Intro" [1; -0; 0.5]] no_files)
      (Index.searchEngine CacheSpec.env0)
    = (Normal tt, engine)
    /\ holds engine (map reloaded [CacheSpec.embedded "Intro" [1; -0; 0.5]])
    /\ getStats engine
       = Normal {| totalChunks :=
                     Number (number_of_nat (length [CacheSpec.embedded "Intro" [1; -0; 0.5]]));
                   isLoaded' := true |}.
Proof.
  apply (server_loads_saved CacheSpec.env0 CacheSpec.timestamp0
           [CacheSpec.embedded "Intro" [1; -0; 0.5]] no_files).
  - intros dir E. injection E as <-. reflexivity.
  - repeat constructor.
Defined.

(** With a [CACHE_DIR] that starts with a tilde the setup expands it and
    the server does not: the server does not find the file the setup
    wrote. *)
Example server_tilde :
  Cache.getCachePath ValidationSpec.env_home = "/home/u/cache/embeddings.json"%string
  /\ Index.main ValidationSpec.env_home
       (Cache.saveCache ValidationSpec.env_home CacheSpec.timestamp0 [] no_files) true
     = Normal (Index.Exit 1).
Proof. split; vm_compute; reflexivity. Qed.

(** What [main] does, by the cache file. *)
Lemma main_cases (env : Cache.Process) (fs : FileSystem) (connects : bool) :
  Index.main env fs connects
  = match fs (path_join (Index.cacheDir env) "embeddings.json") with
    | Some (Json document) =>
        match get document "chunks" with
        | Normal cs =>
            match length_of cs with
            | Normal n =>
                if primitive n then
                  Normal (if connects
                          then Index.Running {| chunks := cs; isLoaded := true;
                                                cacheDir := Index.cacheDir env |}
                          else Index.Exit 1)
                else Unmodelled
            | Throw _ => Normal (Index.Exit 1)
            | Unmodelled => Unmodelled
            end
        | Throw _ => Normal (Index.Exit 1)
        | Unmodelled => Unmodelled
        end
    | Some Garbage | None => Normal (Index.Exit 1)
    end.
Proof.
  unfold Index.main, loadCache. rewrite searchEngine_cacheDir.
  destruct (fs (path_join (Index.cacheDir env) "embeddings.json")) as [[document|]|];
    cbn [parse bind]; try reflexivity.
  destruct (get document "chunks") as [cs|e|]; cbn [bind]; try reflexivity.
  unfold getStats. cbn [chunks isLoaded cacheDir].
  destruct (length_of cs) as [n|e|]; cbn [bind totalChunks]; try reflexivity.
  unfold interpolate. now destruct (primitive n).
Qed.

Lemma length_of_defined (cs : value) :
  (exists n, length_of cs = Normal n) <-> cs <> Undefined /\ cs <> Null.
Proof.
  destruct cs; cbn [length_of]; split;
    try (intros [n H]; discriminate);
    try (intros [H1 H2]; congruence);
    try (intros _; split; discriminate);
    try (intros _; eexists; reflexivity).
Qed.

(** X11.  [main] leaves the server running exactly when the cache file holds
    a JSON document whose [chunks] is neither [undefined] nor [null],
    its [length] is not an object, and the transport connects; the
    engine is then loaded with whatever [chunks] is, so that a query on
    it does not fail for want of a load.  When [chunks] is an object
    whose [length] is an object, the log of the number of chunks is
    left undescribed.  In every other case the process exits with code
    1: the server does not start on a cache without [chunks], which the
    engine alone would load. *)
Theorem main_running (env : Cache.Process) (fs : FileSystem) (connects : bool) :
  (forall engine,
     Index.main env fs connects = Normal (Index.Running engine)
     <-> exists document cs n,
           fs (path_join (Index.cacheDir env) "embeddings.json") = Some (Json document)
           /\ get document "chunks" = Normal cs
           /\ cs <> Undefined /\ cs <> Null
           /\ length_of cs = Normal n /\ primitive n = true
           /\ connects = true
           /\ engine = {| chunks := cs; isLoaded := true; cacheDir := Index.cacheDir env |})
  /\ (forall engine q topK minScore,
        Index.main env fs connects = Normal (Index.Running engine) ->
        getStats engine <> Throw TypeError
        /\ fst (search engine q topK minScore)
           <> Throw (Error "Search engine not loaded. Call loadCache() first."))
  /\ ((exists engine, Index.main env fs connects = Normal (Index.Running engine))
      \/ Index.main env fs connects = Normal (Index.Exit 1)
      \/ (Index.main env fs connects = Unmodelled
          /\ exists document fields,
               fs (path_join (Index.cacheDir env) "embeddings.json") = Some (Json document)
               /\ get document "chunks" = Normal (Obj fields)
               /\ primitive (lookup "length" fields) = false)).
Proof.
  assert (R : forall engine,
     Index.main env fs connects = Normal (Index.Running engine)
     <-> exists document cs n,
           fs (path_join (Index.cacheDir env) "embeddings.json") = Some (Json document)
           /\ get document "chunks" = Normal cs
           /\ cs <> Undefined /\ cs <> Null
           /\ length_of cs = Normal n /\ primitive n = true
           /\ connects = true
           /\ engine = {| chunks := cs; isLoaded := true; cacheDir := Index.cacheDir env |}).
  { intros engine. rewrite main_cases. split.
    - destruct (fs (path_join (Index.cacheDir env) "embeddings.json")) as [[document|]|];
        try discriminate.
      destruct (get document "chunks") as [cs|e|] eqn:G; try discriminate.
      destruct (length_of cs) as [n|e|] eqn:L; try discriminate.
      destruct (primitive n) eqn:P; try discriminate.
      destruct connects; try discriminate.
      intros H. inversion H; subst. exists document, cs, n.
      destruct (proj1 (length_of_defined cs)) as [N1 N2]; [now exists n|].
      repeat split; assumption.
    - intros (document & cs & n & -> & -> & _ & _ & -> & -> & -> & ->). reflexivity. }
  split; [exact R|]. split.
  - intros engine q topK minScore H. apply R in H.
    destruct H as (document & cs & n & _ & _ & N1 & N2 & L & _ & _ & ->).
    split.
    + unfold getStats. cbn [chunks isLoaded]. rewrite L. discriminate.
    + unfold search. cbn [isLoaded negb fst chunks].
      destruct cs; cbn [iterate bind]; try discriminate.
      * destruct (scan q minScore _) as [r|e|] eqn:S; cbn [bind]; try discriminate.
        intros E. injection E as ->. apply scan_throws in S. destruct S; discriminate.
      * destruct (scan q minScore _) as [r|e|] eqn:S; cbn [bind]; try discriminate.
        intros E. injection E as ->. apply scan_throws in S. destruct S; discriminate.
  - rewrite main_cases.
    destruct (fs (path_join (Index.cacheDir env) "embeddings.json")) as [[document|]|];
      try (right; left; reflexivity).
    destruct (get document "chunks") as [cs|e|] eqn:G; try (right; left; reflexivity).
    + destruct (length_of cs) as [n|e|] eqn:L; try (right; left; reflexivity).
      * destruct (primitive n) eqn:P.
        -- destruct connects; [left; eexists; reflexivity|right; left; reflexivity].
        -- right; right. split; [reflexivity|].
           destruct cs; cbn [length_of] in L; try discriminate; injection L as <-;
             try discriminate.
           now exists document, fields.
      * destruct cs; discriminate.
    + destruct document; discriminate.
Qed.

(** A cache without [chunks] is loaded by the engine and stops the
    server. *)
Example main_no_chunks :
  fst (loadCache CacheSpec.no_chunks_cache (Index.searchEngine CacheSpec.env0)) = Normal tt
  /\ Index.main CacheSpec.env0 CacheSpec.no_chunks_cache true = Normal (Index.Exit 1).
Proof. split; reflexivity. Qed.

End ServerTheorems.

(** ** The search tool *)

Section ToolLemmas.
Import Js Search SearchSpec GmatDocs ToolSpec.
Local Open Scope float_scope.

Lemma search_mismatch (this : SearchEngine) (cs : list SearchChunk)
  (q : list float) (topK : Z) (minScore : float) :
  holds this cs ->
  Exists (fun c => length (embedding c) <> length q) cs ->
  search this q topK minScore = (Throw (Error "Vectors must have the same length"), this).
Proof.
  intros [Hl Hc] Hex. unfold search. rewrite Hl, Hc. cbn [negb iterate bind].
  now rewrite scan_mismatch.
Qed.

End ToolLemmas.

Section ToolTheorems.
Import Js Search SearchSpec GmatDocs ToolSpec.
Local Open Scope float_scope.

Variable embed : jsstring -> completion (list float).

(** X12.  [handleSearchDocs] throws nothing: what the request of the embedding
    or the search throws comes back as a text.  A failure of the API is
    reported with its message, a query before the load and a query of
    another dimension than the corpus with the message of the engine. *)
Theorem handleSearchDocs_catches (args : Args) (searchEngine : SearchEngine) :
  (forall e, handleSearchDocs embed args searchEngine <> Throw e)
  /\ (forall message,
        embed (query args) = Throw (Error message) ->
        handleSearchDocs embed args searchEngine
        = Normal (lit "Error searching documentation: " ++ lit message))
  /\ (forall v,
        embed (query args) = Normal v -> isLoaded searchEngine = false ->
        handleSearchDocs embed args searchEngine
        = Normal (lit ("Error searching documentation: "
                       ++ "Search engine not loaded. Call loadCache() first.")))
  /\ (forall v cs,
        embed (query args) = Normal v -> holds searchEngine cs ->
        Exists (fun c => length (embedding c) <> length v) cs ->
        handleSearchDocs embed args searchEngine
        = Normal (lit "Error searching documentation: Vectors must have the same length")).
Proof.
  split; [|split; [|split]].
  - intros e. unfold handleSearchDocs.
    destruct (searchDocs embed args searchEngine) as [t|[m| |]|]; discriminate.
  - intros message H. unfold handleSearchDocs, searchDocs. now rewrite H.
  - intros v H Hl. unfold handleSearchDocs, searchDocs. rewrite H. cbn [bind].
    unfold search. now rewrite Hl.
  - intros v cs H Hh Hex. unfold handleSearchDocs, searchDocs. rewrite H. cbn [bind].
    now rewrite (search_mismatch searchEngine cs v _ _ Hh Hex).
Qed.

(** X13.  When no chunk reaches the threshold, and when [topK] is 0, which
    the handler does not refuse, the answer is that nothing was found. *)
Theorem handleSearchDocs_not_found (args : Args) (searchEngine : SearchEngine)
  (cs : list SearchChunk) (v : list float) :
  embed (query args) = Normal v ->
  holds searchEngine cs ->
  Forall (fun c => length (embedding c) = length v) cs ->
  topK args = Some 0%Z
  \/ filter (reaches v (default 0x1.999999999999ap-4 (minScore args))) cs = [] ->
  handleSearchDocs embed args searchEngine = Normal (notFound (query args)).
Proof.
  intros H Hh Hdim Hnone. unfold handleSearchDocs, searchDocs. rewrite H. cbn [bind].
  rewrite (search_holds searchEngine cs v _ _ Hh Hdim). cbn [fst bind].
  assert (E : slice0 (sort comparefn
                        (hits v (default 0x1.999999999999ap-4 (minScore args)) cs))
                (default 10%Z (topK args)) = []).
  { destruct Hnone as [->|Hn].
    - cbn [default]. unfold slice0. cbn [Z.ltb Z.compare].
      rewrite Z.min_l by lia. reflexivity.
    - assert (L : hits v (default 0x1.999999999999ap-4 (minScore args)) cs = []).
      { apply length_zero_iff_nil. rewrite hits_length, <- reaches_cosine by assumption.
        now rewrite Hn. }
      rewrite L. cbn [sort]. unfold slice0. apply firstn_nil. }
  now rewrite E.
Qed.

End ToolTheorems.

Section ToolExamples.
Import Js Search SearchSpec GmatDocs ToolSpec.
Local Open Scope float_scope.

Lemma handleSearchDocs_not_found_witness :
  handleSearchDocs embed_east {| query := lit "orbit"; topK := Some 0%Z; minScore := None |}
    engine3
  = Normal (notFound (lit "orbit")).
Proof.
  apply (handleSearchDocs_not_found embed_east
           {| query := lit "orbit"; topK := Some 0%Z; minScore := None |} engine3 corpus3 query3).
  - reflexivity.
  - split; reflexivity.
  - repeat constructor.
  - now left.
Defined.

(** X14.  The handler of the server and the handler of the tools module give
    the same answer to every request. *)
Theorem callTool_handleGmatDocsTool (embed : jsstring -> completion (list float))
  (name : jsstring) (args : Args) (searchEngine : SearchEngine) :
  Index.callTool embed name args searchEngine
  = handleGmatDocsTool embed name args searchEngine.
Proof.
  unfold Index.callTool, handleGmatDocsTool.
  destruct (same name (lit "searchDocs")); [|reflexivity]. cbn [negb].
  unfold handleSearchDocs, searchDocs.
  destruct (embed (query args)) as [v|e|]; cbn [bind]; try reflexivity.
  destruct (fst (search searchEngine v _ _)) as [results|e|]; cbn [bind]; try reflexivity.
  now destruct results.
Qed.

(** The answer to a query that one chunk matches, and the answers before
    the load and when the API fails. *)
Example handleSearchDocs_text :
  handleSearchDocs embed_east {| query := lit "orbit"; topK := Some 1%Z; minScore := None |}
    engine3
  = Normal (lit "Found 1 relevant section for: " ++ [quote] ++ lit "orbit" ++ [quote]
            ++ [newline; newline]
            ++ lit "## Result 1 (Score: 1.000)" ++ [newline]
            ++ lit "**Page**: A" ++ [newline]
            ++ lit "**Source**: a.html" ++ [newline]
            ++ lit "**Content**:" ++ [newline] ++ lit "east" ++ [newline; newline]
            ++ lit "---")
  /\ text_of (handleSearchDocs embed_east (ask "orbit") engine0)
     = Some ("Error searching documentation: "
             ++ "Search engine not loaded. Call loadCache() first.")%string
  /\ text_of (handleSearchDocs embed_down (ask "orbit") engine3)
     = Some "Error searching documentation: Connection error."%string.
Proof. repeat split; vm_compute; reflexivity. Qed.

End ToolExamples.

(** ** The texts of the parser *)

Section TextLemmas.
Import Js TextSpec.

Lemma trimEnd_word (w : jsstring) : Forall (fun c => is_ws c = false) w -> trimEnd w = w.
Proof.
  intros H. destruct w as [|c w] using rev_ind; [reflexivity|].
  apply Forall_app in H. destruct H as [_ H]. inversion H; subst. now apply trimEnd_snoc.
Qed.

Lemma trimStart_word (w : jsstring) : Forall (fun c => is_ws c = false) w -> trimStart w = w.
Proof. intros H. destruct H as [|c w Hc _]; [reflexivity|]. cbn [trimStart]. now rewrite Hc. Qed.

Lemma words_word (pending s : jsstring) :
  Forall (fun c => is_ws c = false) pending -> Forall word (words pending s).
Proof.
  revert pending. induction s as [|c s IH]; intros pending Hp; cbn [words].
  - destruct pending; [constructor|].
    constructor; [split; [discriminate|assumption]|constructor].
  - destruct (is_ws c) eqn:E.
    + destruct pending; [now apply IH|].
      constructor; [split; [discriminate|assumption]|now apply IH].
    + apply IH. apply Forall_app. split; [assumption|]. now repeat constructor.
Qed.

Lemma unwords_nonempty (ws : list jsstring) : Forall word ws -> ws <> [] -> unwords ws <> [].
Proof.
  intros H Hne. destruct H as [|w rest [Hw _] _]; [congruence|].
  cbn [unwords]. destruct rest; [assumption|]. destruct w; [congruence|discriminate].
Qed.

Lemma unwords_cons (w : jsstring) (rest : list jsstring) :
  rest <> [] -> unwords (w :: rest) = w ++ " "%char :: unwords rest.
Proof. destruct rest; [congruence|reflexivity]. Qed.

(** After whitespace, the replacement of the runs of whitespace starts
    with a character that is not whitespace. *)
Lemma replaceSpaces_true_head (s : jsstring) :
  trimStart (replaceSpaces [" "%char] true s) = replaceSpaces [" "%char] true s.
Proof.
  induction s as [|c s IH]; [reflexivity|]. cbn [replaceSpaces].
  destruct (is_ws c) eqn:E; [exact IH|]. cbn [trimStart]. now rewrite E.
Qed.

Lemma replaceSpaces_trimStart (s : jsstring) :
  trimStart (replaceSpaces [" "%char] false s) = replaceSpaces [" "%char] true s.
Proof.
  destruct s as [|c s]; [reflexivity|]. cbn [replaceSpaces].
  destruct (is_ws c) eqn:E.
  - cbn [app trimStart]. apply replaceSpaces_true_head.
  - cbn [trimStart]. now rewrite E.
Qed.

(** The text whose runs of whitespace are replaced by one space, less
    the whitespace at its end, is made of the words of the text. *)
Lemma replaceSpaces_words (s : jsstring) :
  (forall pending,
     pending <> [] -> Forall (fun c => is_ws c = false) pending ->
     trimEnd (pending ++ replaceSpaces [" "%char] false s) = unwords (words pending s))
  /\ trimEnd (replaceSpaces [" "%char] true s) = unwords (words [] s).
Proof.
  induction s as [|c s [IHp IHt]].
  - split; [|reflexivity]. intros pending Hne Hp. cbn [replaceSpaces words].
    rewrite app_nil_r. destruct pending; [congruence|]. now apply trimEnd_word.
  - split.
    + intros pending Hne Hp. cbn [replaceSpaces words]. destruct (is_ws c) eqn:E.
      * destruct pending as [|d pending]; [congruence|].
        destruct (words [] s) as [|w ws] eqn:W.
        -- cbn [unwords] in *. rewrite app_assoc, trimEnd_app_skip by exact IHt.
           rewrite trimEnd_app_skip by reflexivity. now apply trimEnd_word.
        -- assert (N : trimEnd (replaceSpaces [" "%char] true s) <> []).
           { rewrite IHt. apply unwords_nonempty; [|discriminate].
             rewrite <- W. apply words_word. constructor. }
           rewrite unwords_cons by discriminate.
           rewrite trimEnd_app_keep.
           ++ rewrite trimEnd_app_keep by exact N. now rewrite IHt.
           ++ rewrite trimEnd_app_keep by exact N. discriminate.
      * change (pending ++ c :: replaceSpaces [" "%char] false s)
          with (pending ++ [c] ++ replaceSpaces [" "%char] false s).
        rewrite app_assoc. apply IHp; [now destruct pending|].
        apply Forall_app. split; [assumption|]. now repeat constructor.
    + cbn [replaceSpaces words]. destruct (is_ws c) eqn:E.
      * exact IHt.
      * change (c :: replaceSpaces [" "%char] false s)
          with ([c] ++ replaceSpaces [" "%char] false s).
        apply IHp; [discriminate|]. now repeat constructor.
Qed.

Lemma replaceSpaces_no_newline (b : bool) (s : jsstring) :
  Forall (fun c => is_newline c = false) (replaceSpaces [" "%char] b s).
Proof.
  revert b. induction s as [|c s IH]; intros b; cbn [replaceSpaces]; [constructor|].
  destruct (is_ws c) eqn:E.
  - apply Forall_app. split; [|apply IH]. destruct b; repeat constructor.
  - constructor; [|apply IH]. destruct (is_newline c) eqn:N; [|reflexivity].
    apply is_newline_ws in N. congruence.
Qed.

Lemma collapseBlankLines_no_newline (s : jsstring) :
  Forall (fun c => is_newline c = false) s -> collapseBlankLines None s = s.
Proof.
  induction 1 as [|c s Hc _ IH]; [reflexivity|].
  cbn [collapseBlankLines]. now rewrite Hc, IH.
Qed.

Lemma words_app_word (w : jsstring) : forall pending s,
  Forall (fun c => is_ws c = false) w -> words pending (w ++ s) = words (pending ++ w) s.
Proof.
  induction w as [|c w IH]; intros pending s H.
  - now rewrite app_nil_r.
  - inversion H as [|? ? Hc Hw]; subst. cbn [app words]. rewrite Hc.
    rewrite IH by assumption. now rewrite <- app_assoc.
Qed.

Lemma words_unwords (ws : list jsstring) : Forall word ws -> words [] (unwords ws) = ws.
Proof.
  induction 1 as [|w rest [Hne Hw] Hrest IH]; [reflexivity|].
  destruct rest as [|w' rest].
  - cbn [unwords]. rewrite <- (app_nil_r w) at 1. rewrite words_app_word by assumption.
    cbn [app words]. now destruct w.
  - rewrite unwords_cons by discriminate. rewrite words_app_word by assumption.
    cbn [app words is_ws N_of_ascii]. rewrite IH. now destruct w.
Qed.

Lemma words_concat (s : jsstring) : forall pending,
  Forall (fun c => is_ws c = false) pending ->
  concat (words pending s) = pending ++ SplitterSpec.squash s.
Proof.
  induction s as [|c s IH]; intros pending Hp; cbn [words SplitterSpec.squash filter].
  - destruct pending; cbn [concat]; now rewrite ?app_nil_r.
  - destruct (is_ws c) eqn:E; cbn [negb].
    + destruct pending; cbn [concat]; rewrite IH by constructor; reflexivity.
    + rewrite IH; [now rewrite <- app_assoc|].
      apply Forall_app. split; [assumption|]. now repeat constructor.
Qed.

Lemma squash_unwords (ws : list jsstring) :
  Forall word ws -> SplitterSpec.squash (unwords ws) = concat ws.
Proof.
  induction 1 as [|w rest [_ Hw] _ IH]; [reflexivity|].
  assert (Sw : SplitterSpec.squash w = w).
  { clear -Hw. induction Hw as [|c w Hc _ IH]; [reflexivity|].
    cbn [SplitterSpec.squash filter]. rewrite Hc. cbn [negb]. f_equal. exact IH. }
  destruct rest as [|w' rest].
  - cbn [unwords concat]. now rewrite app_nil_r.
  - rewrite unwords_cons by discriminate.
    change (w ++ " "%char :: unwords (w' :: rest)) with (w ++ [" "%char] ++ unwords (w' :: rest)).
    rewrite !squash_app, Sw, IH. reflexivity.
Qed.

Lemma unwords_chars (ws : list jsstring) :
  Forall word ws ->
  Forall (fun c => is_ws c = false \/ c = " "%char) (unwords ws).
Proof.
  induction 1 as [|w rest [_ Hw] _ IH]; [constructor|].
  assert (Cw : Forall (fun c => is_ws c = false \/ c = " "%char) w).
  { eapply Forall_impl; [|exact Hw]. cbv beta. auto. }
  destruct rest as [|w' rest]; [exact Cw|].
  rewrite unwords_cons by discriminate.
  apply Forall_app. split; [exact Cw|]. constructor; [now right|exact IH].
Qed.

Lemma lower_not_capital (c : ascii) :
  is_word (lower c) || is_ws (lower c) || is_hyphen (lower c) = true ->
  is_ws (lower c) = true \/ is_anchor (lower c) = true.
Proof.
  destruct c as [[] [] [] [] [] [] [] []]; vm_compute; intros H;
    first [now left | now right | discriminate].
Qed.

Lemma removeSymbols_lower (s : jsstring) :
  Forall (fun c => is_ws c = true \/ is_anchor c = true) (removeSymbols (toLowerCase s)).
Proof.
  unfold removeSymbols, toLowerCase. induction s as [|c s IH]; [constructor|].
  cbn [map filter].
  destruct (is_word (lower c) || is_ws (lower c) || is_hyphen (lower c)) eqn:E; [|exact IH].
  constructor; [now apply lower_not_capital|exact IH].
Qed.

Lemma replaceSpaces_anchor (b : bool) (s : jsstring) :
  Forall (fun c => is_ws c = true \/ is_anchor c = true) s ->
  Forall (fun c => is_anchor c = true) (replaceSpaces (lit "_") b s).
Proof.
  intros H. revert b. induction H as [|c s Hc _ IH]; intros b; cbn [replaceSpaces];
    [constructor|].
  destruct (is_ws c) eqn:E.
  - apply Forall_app. split; [|apply IH]. destruct b; repeat constructor.
  - constructor; [|apply IH]. destruct Hc; congruence.
Qed.

Lemma startsWith_spec (s pattern : jsstring) :
  startsWith s pattern = true <-> exists rest, s = pattern ++ rest.
Proof.
  revert s. induction pattern as [|p pattern IH]; intros s.
  - split; [intros _; now exists s|now destruct s].
  - destruct s as [|c s]; cbn [startsWith].
    + split; [discriminate|]. intros [rest E]. discriminate.
    + rewrite andb_true_iff, IH. split.
      * intros [E [rest ->]]. apply Ascii.eqb_eq in E. subst. now exists rest.
      * intros [rest E]. injection E as -> ->. split; [apply Ascii.eqb_refl|now exists rest].
Qed.

(** [replace] takes out the first occurrence of the pattern, and leaves
    a text without occurrence as it is. *)
Lemma replace_spec (pattern s : jsstring) :
  (exists before after,
     s = before ++ pattern ++ after /\ replace s pattern [] = before ++ after)
  \/ replace s pattern [] = s.
Proof.
  induction s as [|c s IH]; cbn [replace].
  - destruct (startsWith [] pattern) eqn:E; [|now right].
    apply startsWith_spec in E. destruct E as [rest E].
    symmetry in E. apply app_eq_nil in E. destruct E as [-> ->]. now right.
  - destruct (startsWith (c :: s) pattern) eqn:E.
    + apply startsWith_spec in E. destruct E as [rest E]. left. exists [], rest.
      split; [exact E|]. rewrite E. cbn [app].
      now rewrite skipn_app, skipn_all, Nat.sub_diag.
    + destruct IH as [(before & after & E1 & E2)|E1].
      * left. exists (c :: before), after. cbn [app]. now rewrite <- E1, E2.
      * right. now rewrite E1.
Qed.

Lemma generateChunkId_nonempty (href : jsstring) (index : nat) (heading : option jsstring) :
  Parser.generateChunkId href index heading <> [].
Proof.
  unfold Parser.generateChunkId.
  destruct heading as [[|c h]|]; intros E; apply app_eq_nil in E; destruct E as [_ E];
    discriminate.
Qed.

Lemma split_paragraphs_no_newline (s : jsstring) : forall pending,
  Forall (fun c => is_newline c = false) s ->
  Embedder.split_paragraphs pending s = [pending ++ s].
Proof.
  induction s as [|c s IH]; intros pending H.
  - cbn [Embedder.split_paragraphs]. now rewrite app_nil_r.
  - inversion H as [|? ? Hc Hs]; subst. destruct s as [|d s].
    + reflexivity.
    + rewrite split_paragraphs_step, Hc. cbn [andb].
      rewrite IH by assumption. now rewrite <- app_assoc.
Qed.

Lemma cleanText_unwords (text : jsstring) :
  Parser.cleanText text = unwords (words [] text).
Proof.
  unfold Parser.cleanText. change (lit " ") with [" "%char].
  rewrite collapseBlankLines_no_newline by apply replaceSpaces_no_newline.
  unfold trim. rewrite replaceSpaces_trimStart.
  apply (proj2 (replaceSpaces_words text)).
Qed.

Lemma cleanText_squash (text : jsstring) :
  SplitterSpec.squash (Parser.cleanText text) = SplitterSpec.squash text.
Proof.
  rewrite cleanText_unwords, squash_unwords by (apply words_word; constructor).
  now rewrite words_concat by constructor.
Qed.

Lemma cleanText_chars (text : jsstring) :
  Forall (fun c => is_ws c = false \/ c = " "%char) (Parser.cleanText text).
Proof. rewrite cleanText_unwords. apply unwords_chars, words_word. constructor. Qed.

Lemma cleanText_no_newline (text : jsstring) :
  Forall (fun c => is_newline c = false) (Parser.cleanText text).
Proof.
  eapply Forall_impl; [|apply cleanText_chars]. cbv beta. intros c [H| ->]; [|reflexivity].
  destruct (is_newline c) eqn:N; [|reflexivity]. apply is_newline_ws in N. congruence.
Qed.

Lemma cleanText_blank (text : jsstring) :
  Parser.cleanText text = [] <-> SplitterSpec.squash text = [].
Proof.
  split; intros H.
  - now rewrite <- cleanText_squash, H.
  - rewrite cleanText_unwords.
    pose proof (words_word [] text (Forall_nil _)) as W.
    pose proof (words_concat text [] (Forall_nil _)) as Q. cbn [app] in Q. rewrite H in Q.
    destruct W as [|w rest [Hne _] _]; [reflexivity|].
    cbn [concat] in Q. apply app_eq_nil in Q. destruct Q as [Q _]. congruence.
Qed.

End TextLemmas.

Section TextTheorems.
Import Js TextSpec.

(** X15.  [cleanText] returns the words of the text with one space between
    them: whatever whitespace the text has between two words, line
    feeds included, becomes one space, and the whitespace before the
    first word and after the last is dropped.  So a cleaned text has no
    line feed and no whitespace but single spaces; it has the
    characters of the text that are not whitespace, in order; it is
    empty exactly when the text is blank; and cleaning it again changes
    nothing. *)
Theorem cleanText_clean (text : jsstring) :
  Parser.cleanText text = unwords (words [] text)
  /\ Forall (fun c => is_ws c = false \/ c = " "%char) (Parser.cleanText text)
  /\ Forall (fun c => is_newline c = false) (Parser.cleanText text)
  /\ SplitterSpec.squash (Parser.cleanText text) = SplitterSpec.squash text
  /\ (Parser.cleanText text = [] <-> SplitterSpec.squash text = [])
  /\ Parser.cleanText (Parser.cleanText text) = Parser.cleanText text.
Proof.
  split; [apply cleanText_unwords|].
  split; [apply cleanText_chars|]. split; [apply cleanText_no_newline|].
  split; [apply cleanText_squash|]. split; [apply cleanText_blank|].
  rewrite !cleanText_unwords. rewrite words_unwords; [reflexivity|].
  apply words_word. constructor.
Qed.

(** X16.  The id of a chunk is the href without its first [.html], a [#], and
    either an anchor made of small letters, digits, underscores and
    hyphens only, when the section has a heading, or [chunk_] and the
    index; so it is never empty. *)
Theorem generateChunkId_anchor (href : jsstring) (index : nat) (heading : option jsstring) :
  exists rest,
    Parser.generateChunkId href index heading = Parser.withoutHtml href ++ lit "#" ++ rest
    /\ match heading with
       | Some (_ :: _) => Forall (fun c => is_anchor c = true) rest
       | Some [] | None => rest = lit "chunk_" ++ decimal index
       end
    /\ Parser.generateChunkId href index heading <> [].
Proof.
  pose proof (generateChunkId_nonempty href index heading) as N.
  unfold Parser.generateChunkId in *.
  destruct heading as [[|c h]|]; eexists; (split; [reflexivity|]); (split; [|exact N]);
    try reflexivity.
  unfold Parser.anchor. apply replaceSpaces_anchor, removeSymbols_lower.
Qed.

(** Punctuation goes, capitals become small and each run of whitespace
    becomes one underscore. *)
Example generateChunkId_heading :
  string_of_list_ascii
    (Parser.generateChunkId (lit "Propagator.html") 2 (Some (lit "Fields & Units  (SI)")))
  = "Propagator#fields_units_si"%string
  /\ string_of_list_ascii (Parser.generateChunkId (lit "Propagator.html") 2 (Some []))
     = "Propagator#chunk_2"%string.
Proof. split; vm_compute; reflexivity. Qed.

(** X17.  The name [findPageName] gives a page is the name, not empty, of a
    page of [PAGES] that has the href, or else the href without its
    first [.html], also when the page found has an empty name; it is
    empty for no href but the empty one and [.html]. *)
Theorem findPageName_name (PAGES : list Parser.Page) (href : jsstring) :
  ((exists page,
      In page PAGES /\ Parser.href page = href /\ Parser.name page <> []
      /\ Parser.findPageName PAGES href = Parser.name page)
   \/ Parser.findPageName PAGES href = Parser.withoutHtml href)
  /\ (Parser.findPageName PAGES href = [] -> href = [] \/ href = lit ".html").
Proof.
  assert (W : Parser.withoutHtml href = [] -> href = [] \/ href = lit ".html").
  { unfold Parser.withoutHtml. intros E.
    destruct (replace_spec (lit ".html") href) as [(before & after & E1 & E2)|E1].
    - rewrite E in E2. symmetry in E2. apply app_eq_nil in E2. destruct E2 as [-> ->].
      right. now rewrite E1, app_nil_r.
    - left. now rewrite <- E1. }
  unfold Parser.findPageName.
  destruct (find _ PAGES) as [page|] eqn:F; [|split; [now right|exact W]].
  destruct (Parser.name page) as [|c name] eqn:N; [split; [now right|exact W]|].
  split; [|discriminate]. left. exists page.
  apply find_some in F. destruct F as [Hin Hsame].
  split; [exact Hin|]. split; [|split; [rewrite N; discriminate|now rewrite N]].
  unfold same in Hsame. destruct (list_eq_dec ascii_dec _ _) as [E|E]; [|discriminate].
  congruence.
Qed.

Example findPageName_pages2 :
  map (fun h => string_of_list_ascii (Parser.findPageName pages2 (lit h)))
      ["Propagator.html"; "Untitled.html"; "Other.html.html"]%string
  = ["Propagator"; "Untitled"; "Other.html"]%string.
Proof. vm_compute. reflexivity. Qed.

End TextTheorems.

(** ** The parts of the splitter: sentences, slices, ids *)

Section PartsLemmas.
Import Js Embedder SplitterSpec PartsSpec.

Lemma trimStart_idem (s : jsstring) : trimStart (trimStart s) = trimStart s.
Proof.
  destruct (trimStart_head s) as [->|(c & t & -> & Hc)]; [reflexivity|].
  cbn [trimStart]. now rewrite Hc.
Qed.

Lemma trim_idem (s : jsstring) : trim (trim s) = trim s.
Proof.
  unfold trim at 1.
  assert (E : trimStart (trim s) = trim s).
  { unfold trim. destruct (trimStart_head s) as [->|(c & t & -> & Hc)]; [reflexivity|].
    rewrite trimEnd_cons by assumption. cbn [trimStart]. now rewrite Hc. }
  rewrite E. unfold trim, trimEnd. now rewrite rev_involutive, trimStart_idem.
Qed.

Lemma sentence_matches_closed (n : nat) : forall pending text,
  length text <= n ->
  Forall (fun m => exists p c d, m = p ++ [c; d]
                                 /\ is_terminator c = true /\ is_ws d = true)
         (removelast (sentence_matches pending text)).
Proof.
  induction n as [|n IH]; intros pending text Hn.
  - destruct text; [|simpl in Hn; lia]. destruct pending; constructor.
  - destruct text as [|c rest].
    + destruct pending; constructor.
    + rewrite sentence_matches_step. simpl in Hn.
      destruct (is_terminator c) eqn:Tc.
      * destruct rest as [|d rest']; [constructor|].
        simpl in Hn. destruct (is_ws d) eqn:Wd.
        -- destruct (sentence_matches [] rest') as [|m ms] eqn:M; [constructor|].
           change (removelast ((pending ++ [c; d]) :: m :: ms))
             with ((pending ++ [c; d]) :: removelast (m :: ms)).
           constructor.
           ++ now exists pending, c, d.
           ++ rewrite <- M. apply IH. lia.
        -- apply IH. simpl. lia.
      * apply IH. lia.
Qed.

Lemma parts_end_sentence (ms : list jsstring) :
  Forall (fun m => exists p c d, m = p ++ [c; d]
                                 /\ is_terminator c = true /\ is_ws d = true)
         (removelast ms) ->
  Forall ends_sentence (removelast (filter nonempty (map trim ms))).
Proof.
  induction ms as [|m ms IH]; intros H; [constructor|].
  destruct ms as [|m' ms].
  - cbn [map filter]. destruct (nonempty (trim m)); constructor.
  - change (removelast (m :: m' :: ms)) with (m :: removelast (m' :: ms)) in H.
    inversion H as [|? ? (p & c & d & -> & Hc & Hd) H']; subst.
    specialize (IH H').
    pose proof (trim_closed p c d Hc Hd) as E.
    assert (N : nonempty (trim (p ++ [c; d])) = true).
    { destruct E as (s' & c' & -> & _). unfold nonempty. rewrite length_app. simpl.
      now rewrite Nat.add_comm. }
    remember (m' :: ms) as tail eqn:T. cbn [map filter]. rewrite N.
    destruct (filter nonempty (map trim tail)) as [|x l] eqn:F; [constructor|].
    change (removelast (trim (p ++ [c; d]) :: x :: l))
      with (trim (p ++ [c; d]) :: removelast (x :: l)).
    constructor; assumption.
Qed.

Lemma sentence_matches_whole (text : jsstring) : forall pending,
  Forall (fun c => is_terminator c = false) text ->
  sentence_matches pending text
  = match pending ++ text with
    | [] => []
    | _ :: _ => [pending ++ text]
    end.
Proof.
  induction text as [|c text IH]; intros pending H.
  - cbn [sentence_matches]. rewrite app_nil_r. reflexivity.
  - inversion H as [|? ? Hc Ht]; subst. rewrite sentence_matches_step, Hc, IH by assumption.
    now rewrite <- app_assoc.
Qed.

Lemma slices_nonempty (k : nat) : forall fuel text,
  0 < k -> Forall (fun s => s <> []) (slices fuel k text).
Proof.
  induction fuel as [|fuel IH]; intros text Hk; [constructor|].
  destruct text as [|c rest]; [constructor|].
  cbn [slices]. constructor; [|now apply IH].
  destruct k; [lia|discriminate].
Qed.

Lemma slices_full (k : nat) : forall fuel text,
  Forall (fun s => length s = k) (removelast (slices fuel k text)).
Proof.
  induction fuel as [|fuel IH]; intros text; [constructor|].
  destruct text as [|c rest]; [constructor|].
  cbn [slices].
  destruct (slices fuel k (skipn k (c :: rest))) as [|s l] eqn:S; [constructor|].
  change (removelast (firstn k (c :: rest) :: s :: l))
    with (firstn k (c :: rest) :: removelast (s :: l)).
  constructor; [|rewrite <- S; apply IH].
  rewrite length_firstn. apply Nat.min_l.
  destruct (Nat.le_gt_cases k (length (c :: rest))) as [H|H]; [exact H|].
  rewrite skipn_all2 in S by lia. destruct fuel; discriminate.
Qed.

Lemma slices_count (k : nat) : forall fuel text,
  0 < k -> length text <= fuel ->
  length (slices fuel k text) = (length text + k - 1) / k.
Proof.
  induction fuel as [|fuel IH]; intros text Hk Hf.
  - destruct text; [|simpl in Hf; lia]. cbn [slices length].
    symmetry. apply Nat.div_small. lia.
  - destruct text as [|c rest].
    + cbn [slices length]. symmetry. apply Nat.div_small. lia.
    + cbn [slices]. cbn [length]. rewrite IH; [|assumption|].
      * rewrite length_skipn. cbn [length].
        destruct (Nat.le_gt_cases k (S (length rest))) as [H|H].
        -- replace (S (length rest) + k - 1) with ((S (length rest) - k + k - 1) + 1 * k) by lia.
           rewrite Nat.div_add by lia. lia.
        -- replace (S (length rest) - k) with 0 by lia.
           rewrite (Nat.div_small (0 + k - 1)) by lia.
           replace (S (length rest) + k - 1) with (length rest + 1 * k) by lia.
           rewrite Nat.div_add by lia. rewrite Nat.div_small by lia. reflexivity.
      * rewrite length_skipn. simpl length in *. lia.
Qed.

Lemma decimal_inj (m n : nat) : decimal m = decimal n -> m = n.
Proof.
  unfold decimal, lit. intros H.
  apply (f_equal string_of_list_ascii) in H.
  rewrite !string_of_list_ascii_of_string in H.
  apply (f_equal DecimalString.NilEmpty.uint_of_string) in H.
  rewrite !DecimalString.NilEmpty.usu in H. injection H as H.
  apply (f_equal Nat.of_uint) in H. now rewrite !DecimalNat.Unsigned.of_to in H.
Qed.

Lemma part_id_inj (chunk : Chunk) (m n : nat) : part_id chunk m = part_id chunk n -> m = n.
Proof.
  unfold part_id. intros H. apply app_inv_head in H. apply app_inv_head in H.
  now apply decimal_inj.
Qed.

Lemma NoDup_part_ids (chunk : Chunk) (l : list nat) :
  NoDup l -> NoDup (map (part_id chunk) l).
Proof.
  induction 1 as [|k l Hk _ IH]; [constructor|].
  cbn [map]. constructor; [|exact IH].
  intros H. apply in_map_iff in H. destruct H as (k' & E & Hin).
  apply part_id_inj in E. now subst.
Qed.

Lemma numbered_push (chunk : Chunk) (st : Parts) (s : jsstring) :
  numbered chunk st -> s <> [] -> numbered chunk (push chunk st s).
Proof.
  intros [Hi Hc] Hs. unfold numbered, push. cbn [subChunks partIndex]. split.
  - rewrite map_app, seq_S, map_app, Hi. reflexivity.
  - apply Forall_app. split; [exact Hc|]. now repeat constructor.
Qed.

Lemma numbered_push_all (chunk : Chunk) (l : list jsstring) : forall st,
  numbered chunk st -> Forall (fun s => s <> []) l ->
  numbered chunk (fold_left (push chunk) l st).
Proof.
  induction l as [|s l IH]; intros st Hn Hl; [exact Hn|].
  inversion Hl; subst. cbn [fold_left]. apply IH; [now apply numbered_push|assumption].
Qed.

Lemma numbered_flush (chunk : Chunk) (st : Parts) (buffer : jsstring) :
  numbered chunk st ->
  numbered chunk (if nonempty buffer then push chunk st buffer else st).
Proof.
  intros Hn. destruct (nonempty buffer) eqn:E; [|exact Hn].
  apply numbered_push; [exact Hn|]. now destruct buffer.
Qed.

Lemma numbered_pushBufferIfAny (chunk : Chunk) (st : Parts) (buffer : jsstring) :
  numbered chunk st -> numbered chunk (fst (pushBufferIfAny chunk st buffer)).
Proof.
  intros Hn. unfold pushBufferIfAny.
  destruct (Nat.eqb_spec (length (trim buffer)) 0) as [E|E]; [exact Hn|].
  apply numbered_push; [exact Hn|]. intros ->. now apply E.
Qed.

Lemma numbered_pack_sentences (chunk : Chunk) (maxTokens : nat) (sentences : list jsstring) :
  forall st buffer,
    numbered chunk st ->
    numbered chunk (fst (pack_sentences chunk maxTokens sentences st buffer)).
Proof.
  induction sentences as [|sentence rest IH]; intros st buffer Hn; [exact Hn|].
  cbn [pack_sentences].
  destruct (maxTokens <? estimateTokens (join (lit " ") buffer sentence)); [|now apply IH].
  pose proof (numbered_flush chunk st buffer Hn) as H1.
  destruct (maxTokens <? estimateTokens sentence); [|now apply IH].
  apply IH. apply numbered_push_all; [exact H1|].
  unfold hardSliceByCharacters. apply slices_nonempty, charLimit_positive.
Qed.

Lemma numbered_pack_paragraphs (chunk : Chunk) (maxTokens : nat) (paragraphs : list jsstring) :
  forall st buffer,
    numbered chunk st ->
    numbered chunk (fst (pack_paragraphs chunk maxTokens paragraphs st buffer)).
Proof.
  induction paragraphs as [|raw rest IH]; intros st buffer Hn; [exact Hn|].
  cbn [pack_paragraphs].
  pose proof (numbered_pushBufferIfAny chunk st buffer Hn) as H1.
  destruct (pushBufferIfAny chunk st buffer) as [st1 buffer1]. cbn [fst] in H1.
  destruct (maxTokens <? estimateTokens (trim raw)).
  - pose proof (numbered_pack_sentences chunk maxTokens (splitBySentences (trim raw)) st1 [] H1)
      as H2.
    destruct (pack_sentences chunk maxTokens (splitBySentences (trim raw)) st1 [])
      as [st2 sentenceBuffer]. cbn [fst] in H2.
    apply IH. now apply numbered_flush.
  - destruct (maxTokens <? estimateTokens (join [newline; newline] buffer (trim raw)));
      now apply IH.
Qed.

Lemma numbered_collected (chunk : Chunk) (maxTokens : nat) :
  numbered chunk (collected chunk maxTokens).
Proof.
  unfold collected. apply numbered_pushBufferIfAny, numbered_pack_paragraphs.
  split; [reflexivity|constructor].
Qed.

Lemma numbered_length (chunk : Chunk) (st : Parts) :
  numbered chunk st -> partIndex st = length (subChunks st).
Proof.
  intros [H _]. apply (f_equal (@length jsstring)) in H.
  now rewrite !length_map, length_seq in H.
Qed.

End PartsLemmas.

Section PartsTheorems.
Import Js Embedder SplitterSpec PartsSpec.

(** X18.  The parts [splitBySentences] returns are trimmed and not empty; all
    but the last end with a sentence terminator; one after the other
    they have the characters of the text that are not whitespace; and a
    text without terminator comes back as one part, or none when it is
    blank. *)
Theorem splitBySentences_parts (text : jsstring) :
  Forall (fun s => s <> [] /\ trim s = s) (splitBySentences text)
  /\ Forall ends_sentence (removelast (splitBySentences text))
  /\ squash (concat (splitBySentences text)) = squash text
  /\ (Forall (fun c => is_terminator c = false) text ->
      splitBySentences text = if nonempty (trim text) then [trim text] else []).
Proof.
  split; [|split; [|split]].
  - unfold splitBySentences. apply Forall_forall. intros s Hs.
    apply filter_In in Hs. destruct Hs as [Hin Hne]. split; [now destruct s|].
    apply in_map_iff in Hin. destruct Hin as (m & <- & _). apply trim_idem.
  - unfold splitBySentences. apply parts_end_sentence.
    apply (sentence_matches_closed (length text)). lia.
  - apply splitBySentences_squash.
  - intros H. unfold splitBySentences. rewrite sentence_matches_whole by assumption.
    cbn [app]. destruct text as [|c text]; [reflexivity|]. reflexivity.
Qed.

Example splitBySentences_three :
  map string_of_list_ascii (splitBySentences three_sentences)
  = ["One."; "Two!"; "Is it three?"; "yes"]%string.
Proof. vm_compute. reflexivity. Qed.

(** X19.  [hardSliceByCharacters] cuts the text into slices that put together
    are the text: none is empty, all but the last have the length
    [charLimit], so that their number is the length of the text divided
    by [charLimit] and rounded up, and under a positive budget each is
    within the budget. *)
Theorem hardSliceByCharacters_slices (text : jsstring) (maxTokens : nat) :
  concat (hardSliceByCharacters text maxTokens) = text
  /\ Forall (fun s => s <> [] /\ length s <= charLimit maxTokens)
            (hardSliceByCharacters text maxTokens)
  /\ Forall (fun s => length s = charLimit maxTokens)
            (removelast (hardSliceByCharacters text maxTokens))
  /\ length (hardSliceByCharacters text maxTokens)
     = (length text + charLimit maxTokens - 1) / charLimit maxTokens
  /\ (0 < maxTokens ->
      Forall (fun s => estimateTokens s <= maxTokens) (hardSliceByCharacters text maxTokens)).
Proof.
  pose proof (charLimit_positive maxTokens) as Hk.
  split; [apply hardSlice_concat|]. split; [|split; [|split]].
  - unfold hardSliceByCharacters.
    pose proof (slices_nonempty (charLimit maxTokens) (length text) text Hk) as H1.
    pose proof (slices_length (charLimit maxTokens) (length text) text) as H2.
    rewrite Forall_forall in *. intros s Hs. split; [now apply H1|now apply H2].
  - apply slices_full.
  - unfold hardSliceByCharacters. apply slices_count; [exact Hk|lia].
  - apply hardSlice_tokens.
Qed.

(** X20.  When [splitLargeChunk] splits, the parts it returns are numbered:
    the id of the part of index [k] is the id of the chunk, [_part_] and
    [k], so that no two parts have the same id; and no part has an empty
    content. *)
Theorem splitLargeChunk_ids (chunk : Chunk) (maxTokens : nat) :
  splitLargeChunk chunk maxTokens = [chunk]
  \/ (map id (splitLargeChunk chunk maxTokens)
      = map (part_id chunk) (seq 0 (length (splitLargeChunk chunk maxTokens)))
      /\ NoDup (map id (splitLargeChunk chunk maxTokens))
      /\ Forall (fun c => fullContent c <> []) (splitLargeChunk chunk maxTokens)).
Proof.
  rewrite splitLargeChunk_collected.
  destruct (estimateTokens (fullContent chunk) <=? maxTokens); [now left|].
  pose proof (numbered_collected chunk maxTokens) as Hn.
  pose proof (numbered_length _ _ Hn) as Hl. destruct Hn as [Hi Hc].
  destruct (subChunks (collected chunk maxTokens)) as [|c l] eqn:E; [now left|].
  right. rewrite <- Hl. split; [exact Hi|]. split; [|exact Hc].
  rewrite Hi. apply NoDup_part_ids, seq_NoDup.
Qed.

End PartsTheorems.

(** ** The output of the batcher *)

Section OutputLemmas.
Import Js Embedder SplitterSpec BatcherSpec OutputSpec.

Variable embedBatch : list jsstring -> option (list (list float)).

Lemma attach_chunks (batch : list Chunk) : forall embeddings,
  map fst (attach batch embeddings) = batch.
Proof.
  induction batch as [|c batch IH]; intros embeddings; [reflexivity|].
  cbn [attach map fst]. now rewrite IH.
Qed.

Lemma attach_defined (batch : list Chunk) : forall embeddings,
  length embeddings = length batch ->
  Forall (fun ce => snd ce <> None) (attach batch embeddings).
Proof.
  induction batch as [|c batch IH]; intros embeddings H; [constructor|].
  destruct embeddings as [|e embeddings]; [discriminate|].
  cbn [attach hd_error tl]. constructor; [discriminate|].
  apply IH. simpl in H. lia.
Qed.

Lemma answered_chunks (batches : list (list Chunk)) :
  Forall (accepted embedBatch) batches ->
  map fst (flat_map (answered embedBatch) batches) = concat batches.
Proof.
  induction 1 as [|b batches Hb _ IH]; [reflexivity|].
  change (flat_map (answered embedBatch) (b :: batches))
    with (answered embedBatch b ++ flat_map (answered embedBatch) batches).
  cbn [concat]. rewrite map_app. f_equal; [|exact IH].
  unfold answered, accepted in *. destruct (embedBatch (map fullContent b)); [|congruence].
  apply attach_chunks.
Qed.

Lemma processBatch_collected (st : Batching) :
  collected_all embedBatch st ->
  if snd (processBatch embedBatch st)
  then collected_all embedBatch (fst (processBatch embedBatch st))
  else stopped embedBatch (fst (processBatch embedBatch st)).
Proof.
  intros [Ha He]. unfold processBatch.
  destruct (embedBatch (map fullContent (currentBatch st))) as [embeddings|] eqn:E;
    cbn [fst snd].
  - split; cbn [handed embeddedChunks].
    + apply Forall_app. split; [exact Ha|]. constructor; [|constructor].
      unfold accepted. congruence.
    + rewrite flat_map_app, He. cbn [flat_map]. f_equal.
      rewrite app_nil_r. unfold answered. now rewrite E.
  - exists (handed st), (currentBatch st). cbn [handed embeddedChunks].
    split; [reflexivity|]. split; [exact Ha|]. split; [|exact He].
    unfold accepted. intros H. now apply H.
Qed.

(** Whatever the run, its output is made of the batches accepted, and a
    run that throws has handed the batch refused last. *)
Lemma batchLoop_collected (fuel : nat) : forall pending st,
  collected_all embedBatch st ->
  match snd (batchLoop embedBatch fuel pending st) with
  | Thrown => stopped embedBatch (fst (batchLoop embedBatch fuel pending st))
  | Returned | OutOfFuel => collected_all embedBatch (fst (batchLoop embedBatch fuel pending st))
  end.
Proof.
  induction fuel as [|fuel IH]; intros pending st Hc; [exact Hc|].
  cbn [batchLoop]. destruct pending as [|chunk rest].
  - destruct (0 <? length (currentBatch st)); [|exact Hc].
    pose proof (processBatch_collected st Hc) as H.
    destruct (processBatch embedBatch st) as [st1 ok]. cbn [fst snd] in *.
    now destruct ok.
  - assert (H : let r := if overLimits st (estimateTokens (fullContent chunk))
                         then processBatch embedBatch st else (st, true) in
                if snd r then collected_all embedBatch (fst r)
                else stopped embedBatch (fst r)).
    { destruct (overLimits st _); [now apply processBatch_collected|exact Hc]. }
    cbv zeta in H.
    destruct (if overLimits st _ then processBatch embedBatch st else (st, true)) as [st1 ok].
    cbn [fst snd] in H. destruct ok; cbn [negb]; [|exact H].
    destruct (MAX_TOKENS_PER_INPUT <? _); apply IH; exact H.
Qed.

(** A run that returns without re-splitting has handed the chunks it was
    given, in order. *)
Lemma batchLoop_order (fuel : nat) : forall pending st,
  Forall (fun c => tokensOf c <= MAX_TOKENS_PER_INPUT) pending ->
  snd (batchLoop embedBatch fuel pending st) = Returned ->
  concat (handed (fst (batchLoop embedBatch fuel pending st)))
  = concat (handed st) ++ currentBatch st ++ pending.
Proof.
  induction fuel as [|fuel IH]; intros pending st Hp; [discriminate|].
  cbn [batchLoop]. destruct pending as [|chunk rest].
  - destruct (currentBatch st) as [|c cur] eqn:E; cbn [length Nat.ltb Nat.leb].
    + intros _. cbn [fst]. now rewrite app_nil_r.
    + pose proof (processBatch_handed embedBatch st) as H.
      destruct (processBatch embedBatch st) as [st1 ok]. cbn [fst snd] in *.
      intros _. rewrite H, concat_app, E. cbn [concat]. now rewrite !app_nil_r.
  - inversion Hp as [|? ? Hc Hr]; subst.
    apply Nat.ltb_ge in Hc. unfold tokensOf in Hc.
    destruct (overLimits st (estimateTokens (fullContent chunk))) eqn:Eo.
    + pose proof (processBatch_handed embedBatch st) as H.
      assert (Hcur : snd (processBatch embedBatch st) = true ->
                     currentBatch (fst (processBatch embedBatch st)) = []).
      { unfold processBatch. now destruct (embedBatch _). }
      destruct (processBatch embedBatch st) as [st1 ok]. cbn [fst snd] in *.
      destruct ok; cbn [negb]; [|discriminate]. rewrite Hc.
      intros R. rewrite (IH _ _ Hr R). cbn [handed currentBatch].
      rewrite H, (Hcur eq_refl), concat_app. cbn [concat app].
      now rewrite app_nil_r, <- !app_assoc.
    + cbn [negb]. rewrite Hc. intros R. rewrite (IH _ _ Hr R). cbn [handed currentBatch].
      now rewrite <- !app_assoc.
Qed.

(** Without re-splitting, the chunks handed are chunks the loop was
    given. *)
Lemma batchLoop_members (P : Chunk -> Prop) (fuel : nat) : forall pending st,
  Forall (fun c => tokensOf c <= MAX_TOKENS_PER_INPUT) pending ->
  Forall P pending -> Forall P (currentBatch st) -> Forall (Forall P) (handed st) ->
  Forall (Forall P) (handed (fst (batchLoop embedBatch fuel pending st))).
Proof.
  induction fuel as [|fuel IH]; intros pending st Hp HP Hcur Hh; [exact Hh|].
  assert (Hproc : Forall (Forall P) (handed (fst (processBatch embedBatch st)))
                  /\ Forall P (currentBatch (fst (processBatch embedBatch st)))).
  { rewrite processBatch_handed. split.
    - apply Forall_app. split; [exact Hh|]. now repeat constructor.
    - unfold processBatch. destruct (embedBatch _); cbn [fst currentBatch];
        [constructor|exact Hcur]. }
  cbn [batchLoop]. destruct pending as [|chunk rest].
  - destruct (0 <? length (currentBatch st)); [|exact Hh].
    destruct (processBatch embedBatch st) as [st1 ok]. cbn [fst] in *. apply Hproc.
  - inversion Hp as [|? ? Hc Hr]; subst. inversion HP as [|? ? HPc HPr]; subst.
    apply Nat.ltb_ge in Hc. unfold tokensOf in Hc.
    assert (H1 : let r := if overLimits st (estimateTokens (fullContent chunk))
                          then processBatch embedBatch st else (st, true) in
                 Forall (Forall P) (handed (fst r)) /\ Forall P (currentBatch (fst r))).
    { destruct (overLimits st _); [exact Hproc|now split]. }
    cbv zeta in H1.
    destruct (if overLimits st _ then processBatch embedBatch st else (st, true)) as [st1 ok].
    cbn [fst] in H1. destruct H1 as [H1 H2].
    destruct ok; cbn [negb fst]; [|exact H1]. rewrite Hc.
    apply IH; cbn [currentBatch handed]; try assumption.
    apply Forall_app. split; [exact H2|]. now repeat constructor.
Qed.

Lemma nonblank_paragraphs (content : jsstring) :
  squash content <> [] -> paragraphs_of content <> [].
Proof.
  intros H E. pose proof (paragraphs_of_squash content) as Q. rewrite E in Q.
  now apply H.
Qed.

Lemma processedChunks_default (chunks : list Chunk) :
  Forall (fun c => squash (fullContent c) <> []) chunks ->
  Forall (fun c => tokensOf c <= N.to_nat 1000) (processedChunks chunks).
Proof.
  induction 1 as [|c chunks Hc _ IH]; [constructor|].
  unfold processedChunks. cbn [flat_map]. apply Forall_app. split; [|exact IH].
  unfold splitLargeChunk_default. apply splitLargeChunk_within.
  - apply Nat.ltb_lt. vm_compute. reflexivity.
  - now apply nonblank_paragraphs.
Qed.

End OutputLemmas.

Section OutputTheorems.
Import Js Embedder SplitterSpec BatcherSpec OutputSpec.

(** X21.  The output of a run that returns is made of the batches handed, each
    with the vectors [embedBatch] returned for it: its chunks are the
    chunks handed, in order, which are the normalized chunks when none
    of them is over the per-input ceiling; and when [embedBatch] returns
    as many vectors as it is given texts, every chunk has its vector. *)
Theorem generateEmbeddings_output
  (embedBatch : list jsstring -> option (list (list float))) (fuel : nat) (chunks : list Chunk) :
  snd (generateEmbeddings embedBatch fuel chunks) = Returned ->
  embeddedChunks (fst (generateEmbeddings embedBatch fuel chunks))
  = flat_map (answered embedBatch) (handed (fst (generateEmbeddings embedBatch fuel chunks)))
  /\ Forall (accepted embedBatch) (handed (fst (generateEmbeddings embedBatch fuel chunks)))
  /\ map fst (embeddedChunks (fst (generateEmbeddings embedBatch fuel chunks)))
     = concat (handed (fst (generateEmbeddings embedBatch fuel chunks)))
  /\ (Forall (fun c => tokensOf c <= MAX_TOKENS_PER_INPUT) (normalizedChunks chunks) ->
      map fst (embeddedChunks (fst (generateEmbeddings embedBatch fuel chunks)))
      = normalizedChunks chunks)
  /\ ((forall texts embeddings,
         embedBatch texts = Some embeddings -> length embeddings = length texts) ->
      Forall (fun ce => snd ce <> None)
             (embeddedChunks (fst (generateEmbeddings embedBatch fuel chunks)))).
Proof.
  intros R. unfold generateEmbeddings in *. fold start in *.
  pose proof (batchLoop_collected embedBatch fuel (normalizedChunks chunks) start) as H.
  rewrite R in H. destruct H as [Ha He]; [split; [constructor|reflexivity]|].
  assert (M : map fst (embeddedChunks (fst (batchLoop embedBatch fuel
                                              (normalizedChunks chunks) start)))
              = concat (handed (fst (batchLoop embedBatch fuel
                                       (normalizedChunks chunks) start)))).
  { rewrite He. now apply answered_chunks. }
  split; [exact He|]. split; [exact Ha|]. split; [exact M|]. split.
  - intros Hn. rewrite M. now rewrite (batchLoop_order embedBatch fuel _ start Hn R).
  - intros Hlen. rewrite He. apply Forall_forall. intros ce Hce.
    apply in_flat_map in Hce. destruct Hce as (b & Hb & Hce).
    unfold answered in Hce.
    destruct (embedBatch (map fullContent b)) as [embeddings|] eqn:E; [|contradiction].
    pose proof (attach_defined b embeddings) as D. rewrite Forall_forall in D.
    apply D; [|exact Hce]. rewrite (Hlen _ _ E). apply length_map.
Qed.

Lemma generateEmbeddings_output_witness :
  embeddedChunks (fst (generateEmbeddings constant_embedding 3 two_pages))
  = flat_map (answered constant_embedding)
      (handed (fst (generateEmbeddings constant_embedding 3 two_pages)))
  /\ Forall (accepted constant_embedding)
            (handed (fst (generateEmbeddings constant_embedding 3 two_pages)))
  /\ map fst (embeddedChunks (fst (generateEmbeddings constant_embedding 3 two_pages)))
     = concat (handed (fst (generateEmbeddings constant_embedding 3 two_pages)))
  /\ (Forall (fun c => tokensOf c <= MAX_TOKENS_PER_INPUT) (normalizedChunks two_pages) ->
      map fst (embeddedChunks (fst (generateEmbeddings constant_embedding 3 two_pages)))
      = normalizedChunks two_pages)
  /\ ((forall texts embeddings,
         constant_embedding texts = Some embeddings -> length embeddings = length texts) ->
      Forall (fun ce => snd ce <> None)
             (embeddedChunks (fst (generateEmbeddings constant_embedding 3 two_pages)))).
Proof.
  apply (generateEmbeddings_output constant_embedding 3 two_pages).
  vm_compute. reflexivity.
Defined.

(** X22.  A run throws at the first batch [embedBatch] refuses: that batch is
    the last one handed, the batches before it were accepted, and
    nothing is handed after it. *)
Theorem generateEmbeddings_throws
  (embedBatch : list jsstring -> option (list (list float))) (fuel : nat) (chunks : list Chunk) :
  snd (generateEmbeddings embedBatch fuel chunks) = Thrown ->
  exists before batch,
    handed (fst (generateEmbeddings embedBatch fuel chunks)) = before ++ [batch]
    /\ Forall (accepted embedBatch) before
    /\ embedBatch (map fullContent batch) = None
    /\ embeddedChunks (fst (generateEmbeddings embedBatch fuel chunks))
       = flat_map (answered embedBatch) before.
Proof.
  intros R. unfold generateEmbeddings in *. fold start in *.
  pose proof (batchLoop_collected embedBatch fuel (normalizedChunks chunks) start) as H.
  rewrite R in H. destruct H as (before & batch & H1 & H2 & H3 & H4);
    [split; [constructor|reflexivity]|].
  exists before, batch. repeat split; try assumption.
  unfold accepted in H3. destruct (embedBatch (map fullContent batch)); [|reflexivity].
  exfalso. apply H3. discriminate.
Qed.

Lemma generateEmbeddings_throws_witness :
  exists before batch,
    handed (fst (generateEmbeddings one_at_a_time 3 two_pages)) = before ++ [batch]
    /\ Forall (accepted one_at_a_time) before
    /\ one_at_a_time (map fullContent batch) = None
    /\ embeddedChunks (fst (generateEmbeddings one_at_a_time 3 two_pages))
       = flat_map (answered one_at_a_time) before.
Proof.
  apply (generateEmbeddings_throws one_at_a_time 3 two_pages).
  vm_compute. reflexivity.
Defined.

(** X23.  When no chunk is blank, the first pass leaves no chunk over 1000
    tokens, the pre-pass changes nothing, every batch handed is within
    both limits, and the run returns as soon as [embedBatch] does not
    fail. *)
Theorem generateEmbeddings_nonblank
  (embedBatch : list jsstring -> option (list (list float))) (chunks : list Chunk) :
  Forall (fun c => squash (fullContent c) <> []) chunks ->
  Forall (fun c => tokensOf c <= N.to_nat 1000) (normalizedChunks chunks)
  /\ normalizedChunks chunks = processedChunks chunks
  /\ (forall fuel,
        Forall (fun b => length b <= MAX_BATCH_SIZE /\ tokens b <= MAX_TOKENS_PER_BATCH)
               (handed (fst (generateEmbeddings embedBatch fuel chunks))))
  /\ ((forall texts, embedBatch texts <> None) ->
      snd (generateEmbeddings embedBatch (S (length (normalizedChunks chunks))) chunks)
      = Returned).
Proof.
  intros Hnb.
  pose proof (processedChunks_default chunks Hnb) as Hp.
  assert (H7 : forall l : list Chunk,
             Forall (fun c => tokensOf c <= N.to_nat 1000) l ->
             Forall (fun c => tokensOf c <= MAX_TOKENS_PER_INPUT) l).
  { intros l. apply Forall_impl. intros c Hc. pose proof default_per_input. lia. }
  assert (En : normalizedChunks chunks = processedChunks chunks).
  { apply normalizedChunks_bounded. now apply H7. }
  split; [now rewrite En|]. split; [exact En|]. split.
  - intros fuel. unfold generateEmbeddings. fold start.
    pose proof (batchLoop_sound embedBatch fuel (normalizedChunks chunks) start start_sound)
      as (_ & _ & Hs).
    assert (Hm : Forall (Forall (fun c => tokensOf c <= N.to_nat 1000))
                   (handed (fst (batchLoop embedBatch fuel (normalizedChunks chunks) start)))).
    { apply batchLoop_members; try (rewrite En; now auto); constructor. }
    rewrite Forall_forall in *. intros b Hb.
    destruct (Hs b Hb) as [Hne Hpk]. split; [now apply packed_length|].
    destruct (packed_budget b Hne Hpk) as [T|L]; [exact T|].
    destruct b as [|c [|d b]]; try discriminate.
    specialize (Hm [c] Hb). inversion Hm; subst.
    assert (B : N.to_nat 1000 <= MAX_TOKENS_PER_BATCH)
      by (apply Nat.leb_le; vm_compute; reflexivity).
    change (tokensOf c + 0 <= MAX_TOKENS_PER_BATCH). lia.
  - intros Hok. unfold generateEmbeddings. fold start.
    apply (batchLoop_returns embedBatch Hok (normalizedChunks chunks) start);
      [rewrite En; now apply H7|apply start_sound|apply start_chained].
Qed.

Lemma generateEmbeddings_nonblank_witness :
  Forall (fun c => tokensOf c <= N.to_nat 1000) (normalizedChunks two_pages)
  /\ normalizedChunks two_pages = processedChunks two_pages
  /\ (forall fuel,
        Forall (fun b => length b <= MAX_BATCH_SIZE /\ tokens b <= MAX_TOKENS_PER_BATCH)
               (handed (fst (generateEmbeddings constant_embedding fuel two_pages))))
  /\ ((forall texts, constant_embedding texts <> None) ->
      snd (generateEmbeddings constant_embedding (S (length (normalizedChunks two_pages)))
             two_pages)
      = Returned).
Proof.
  apply (generateEmbeddings_nonblank constant_embedding two_pages).
  repeat constructor; vm_compute; discriminate.
Defined.

End OutputTheorems.

(** ** From the parser to the batcher *)

Section PipelineTheorems.
Import Js Embedder SplitterSpec BatcherSpec TextSpec.

(** X24.  A chunk the parser builds has the href of its page, the name
    [findPageName] gives the page, an id and a content that are not
    empty; its content is not blank and makes one paragraph, so that
    [splitLargeChunk] returns parts within the budget, whatever the
    positive budget. *)
Theorem parser_chunks (PAGES : list Parser.Page) (href : jsstring) (i : nat)
  (headingText markdown : jsstring) (c : Chunk) :
  In c (Parser.sectionChunks PAGES href i headingText markdown)
  \/ In c (Parser.pageChunks PAGES href markdown) ->
  Embedder.href c = href
  /\ pageName c = Parser.findPageName PAGES href
  /\ id c <> []
  /\ fullContent c = Parser.cleanText markdown
  /\ squash (fullContent c) <> []
  /\ paragraphs_of (fullContent c) = [fullContent c]
  /\ forall maxTokens,
       0 < maxTokens ->
       Forall (fun d => estimateTokens (fullContent d) <= maxTokens)
              (splitLargeChunk c maxTokens).
Proof.
  intros H.
  assert (E : exists index heading,
            c = {| id := Parser.generateChunkId href index heading;
                   pageName := Parser.findPageName PAGES href;
                   Embedder.href := href;
                   fullContent := Parser.cleanText markdown |}
            /\ Parser.cleanText markdown <> []).
  { unfold Parser.sectionChunks, Parser.pageChunks in H.
    destruct (0 <? length (Parser.cleanText markdown)) eqn:L.
    - assert (Hne : Parser.cleanText markdown <> [])
        by (intros E; rewrite E in L; discriminate).
      destruct H as [[<-|[]]|[<-|[]]]; eexists _, _; (split; [reflexivity|exact Hne]).
    - destruct H as [[]|[]]. }
  destruct E as (index & heading & -> & Hne). cbn [Embedder.href pageName id fullContent].
  pose proof (cleanText_no_newline markdown) as Hnl.
  assert (Hs : squash (Parser.cleanText markdown) <> []).
  { intros S. apply Hne. apply cleanText_blank. now rewrite <- cleanText_squash. }
  assert (Hp : paragraphs_of (Parser.cleanText markdown) = [Parser.cleanText markdown]).
  { unfold paragraphs_of. rewrite split_paragraphs_no_newline by assumption.
    cbn [app filter]. apply nonempty_trim in Hs. now rewrite Hs. }
  split; [reflexivity|]. split; [reflexivity|].
  split; [apply generateChunkId_nonempty|]. split; [reflexivity|].
  split; [exact Hs|]. split; [exact Hp|].
  intros maxTokens Hm.
  apply (splitLargeChunk_within _ maxTokens Hm). cbn [fullContent]. rewrite Hp. discriminate.
Qed.

Lemma parser_chunks_witness :
  Embedder.href (section_chunk (lit "Orbit propagators")) = lit "orbit.html"
  /\ pageName (section_chunk (lit "Orbit propagators"))
     = Parser.findPageName
         [ {| Parser.name := lit "Orbit"; Parser.href := lit "orbit.html" |} ] (lit "orbit.html")
  /\ id (section_chunk (lit "Orbit propagators")) <> []
  /\ fullContent (section_chunk (lit "Orbit propagators"))
     = Parser.cleanText (lit "  Orbit   propagators ")
  /\ squash (fullContent (section_chunk (lit "Orbit propagators"))) <> []
  /\ paragraphs_of (fullContent (section_chunk (lit "Orbit propagators")))
     = [fullContent (section_chunk (lit "Orbit propagators"))]
  /\ forall maxTokens,
       0 < maxTokens ->
       Forall (fun d => estimateTokens (fullContent d) <= maxTokens)
              (splitLargeChunk (section_chunk (lit "Orbit propagators")) maxTokens).
Proof.
  apply (parser_chunks [ {| Parser.name := lit "Orbit"; Parser.href := lit "orbit.html" |} ]
           (lit "orbit.html") 0 (lit "Propagators") (lit "  Orbit   propagators ")
           (section_chunk (lit "Orbit propagators"))).
  left. left. reflexivity.
Defined.

End PipelineTheorems.

(** ** The scraper *)

Section ScraperLemmas.
Import Js Scraper RetrySpec.

Variable env_BASE_URL : option jsstring.
Variable axios_get : nat -> jsstring -> jsstring + jsstring.

Lemma requests_app (log log' : list event) : requests (log ++ log') = requests log + requests log'.
Proof. unfold requests. now rewrite filter_app, length_app. Qed.

Lemma requests_failures (url : jsstring) (j : nat) : forall attempt,
  requests (failures url attempt j) = j.
Proof.
  induction j as [|j IH]; intros attempt; [reflexivity|].
  cbn [failures]. change (requests (Requested url :: Waited (backoff attempt)
                                    :: failures url (S attempt) j))
    with (S (requests (failures url (S attempt) j))). now rewrite IH.
Qed.

Lemma requests_step (log : list event) (url : jsstring) (ms : N) :
  requests (log ++ [Requested url; Waited ms]) = S (requests log).
Proof. rewrite requests_app. cbn. lia. Qed.

Lemma backoff_short (attempt : nat) : (backoff attempt <= 10000)%N.
Proof. unfold backoff. apply N.le_min_r. Qed.

Lemma failures_short (url : jsstring) (j : nat) : forall attempt,
  Forall short (failures url attempt j).
Proof.
  induction j as [|j IH]; intros attempt; [constructor|].
  cbn [failures]. constructor; [exact I|]. constructor; [apply backoff_short|apply IH].
Qed.

(** The attempts left succeed with the first answer of the server. *)
Lemma attempts_succeed (retries : nat) (href data : jsstring) (j : nat) :
  forall remaining attempt log,
    remaining + attempt = retries + 1 -> j < remaining ->
    (forall i, i < j ->
       exists message, axios_get (requests log + i) (BASE_URL env_BASE_URL ++ href)
                       = inr message) ->
    axios_get (requests log + j) (BASE_URL env_BASE_URL ++ href) = inl data ->
    attempts env_BASE_URL axios_get remaining attempt retries href log
    = (Normal data,
       log ++ failures (BASE_URL env_BASE_URL ++ href) attempt j
       ++ [Requested (BASE_URL env_BASE_URL ++ href)]).
Proof.
  induction j as [|j IH]; intros remaining attempt log Hinv Hj Hfail Hok.
  - destruct remaining as [|remaining]; [lia|]. cbn [attempts failures app].
    rewrite Nat.add_0_r in Hok. now rewrite Hok.
  - destruct remaining as [|remaining]; [lia|]. cbn [attempts].
    destruct (Hfail 0 ltac:(lia)) as [message E]. rewrite Nat.add_0_r in E. rewrite E.
    destruct (Nat.eqb_spec attempt retries) as [->|_]; [lia|].
    rewrite (IH remaining (S attempt)); try lia.
    + cbn [failures]. rewrite <- app_assoc. reflexivity.
    + intros i Hi. rewrite requests_step.
      destruct (Hfail (S i) ltac:(lia)) as [m Em]. exists m.
      now replace (S (requests log) + i) with (requests log + S i) by lia.
    + rewrite requests_step.
      now replace (S (requests log) + j) with (requests log + S j) by lia.
Qed.

(** When the server fails every time, the attempts left end with the
    error of the last one. *)
Lemma attempts_fail (retries : nat) (href : jsstring) :
  forall remaining attempt log,
    remaining + attempt = retries + 1 -> 0 < remaining ->
    (forall i, i < remaining ->
       exists message, axios_get (requests log + i) (BASE_URL env_BASE_URL ++ href)
                       = inr message) ->
    exists message,
      axios_get (requests log + (remaining - 1)) (BASE_URL env_BASE_URL ++ href) = inr message
      /\ attempts env_BASE_URL axios_get remaining attempt retries href log
         = (Throw (error (lit "Failed to scrape " ++ href ++ lit " after " ++ decimal retries
                          ++ lit " attempts: " ++ message)),
            log ++ failures (BASE_URL env_BASE_URL ++ href) attempt (remaining - 1)
            ++ [Requested (BASE_URL env_BASE_URL ++ href)]).
Proof.
  induction remaining as [|remaining IH]; intros attempt log Hinv Hpos Hfail; [lia|].
  cbn [attempts]. destruct (Hfail 0 ltac:(lia)) as [message E].
  rewrite Nat.add_0_r in E. rewrite E.
  destruct (Nat.eqb_spec attempt retries) as [->|Hne].
  - assert (remaining = 0) by lia. subst. exists message. cbn [Nat.sub failures app].
    rewrite Nat.add_0_r. now split.
  - destruct (IH (S attempt) (log ++ [Requested (BASE_URL env_BASE_URL ++ href);
                                       Waited (backoff attempt)])) as [m [Em Ea]];
      try lia.
    + intros i Hi. rewrite requests_step.
      destruct (Hfail (S i) ltac:(lia)) as [m Em]. exists m.
      now replace (S (requests log) + i) with (requests log + S i) by lia.
    + exists m. rewrite requests_step in Em. split.
      * now replace (requests log + (S remaining - 1))
          with (S (requests log) + (remaining - 1)) by lia.
      * rewrite Ea. replace (S remaining - 1) with (S (remaining - 1)) by lia.
        cbn [failures]. now rewrite <- app_assoc.
Qed.

(** Whatever the server does, the attempts left send no more than
    [remaining] requests and wait no more than ten seconds at a time. *)
Lemma attempts_bounded (retries : nat) (href : jsstring) :
  forall remaining attempt log,
    exists events,
      snd (attempts env_BASE_URL axios_get remaining attempt retries href log) = log ++ events
      /\ requests events <= remaining
      /\ Forall short events
      /\ (fst (attempts env_BASE_URL axios_get remaining attempt retries href log)
          = Throw (error (lit "Unreachable code reached in scrapePage for " ++ href)) ->
          remaining + attempt <> retries + 1 \/ remaining = 0)
      /\ (forall data,
            fst (attempts env_BASE_URL axios_get remaining attempt retries href log)
            = Normal data ->
            exists n, axios_get n (BASE_URL env_BASE_URL ++ href) = inl data).
Proof.
  induction remaining as [|remaining IH]; intros attempt log.
  - exists []. cbn [attempts fst snd]. rewrite app_nil_r.
    repeat split; [reflexivity|constructor| |discriminate].
    intros _. now right.
  - cbn [attempts].
    destruct (axios_get (requests log) (BASE_URL env_BASE_URL ++ href)) as [data|message] eqn:E.
    + exists [Requested (BASE_URL env_BASE_URL ++ href)]. cbn [fst snd].
      repeat split; [cbn; lia|repeat constructor|discriminate|].
      intros d H. injection H as <-. eauto.
    + destruct (Nat.eqb_spec attempt retries) as [->|Hne].
      * exists [Requested (BASE_URL env_BASE_URL ++ href)]. cbn [fst snd].
        repeat split; [cbn; lia|repeat constructor| |discriminate].
        intros H. exfalso. unfold error in H. injection H. discriminate.
      * destruct (IH (S attempt) (log ++ [Requested (BASE_URL env_BASE_URL ++ href);
                                          Waited (backoff attempt)]))
          as (events & Es & Er & Ew & Eu & Ed).
        exists ([Requested (BASE_URL env_BASE_URL ++ href); Waited (backoff attempt)] ++ events).
        rewrite Es, <- app_assoc. split; [reflexivity|]. split; [|split; [|split]].
        -- rewrite requests_app. cbn. lia.
        -- apply Forall_app. split; [|exact Ew].
           constructor; [exact I|]. constructor; [apply backoff_short|constructor].
        -- intros H. left. destruct (Eu H) as [H1|H1]; lia.
        -- exact Ed.
Qed.

End ScraperLemmas.

Section ScrapeAllLemmas.
Import Js Scraper RetrySpec.

Variable env_BASE_URL : option jsstring.
Variable axios_get : nat -> jsstring -> jsstring + jsstring.

Lemma subsequence_refl {A : Type} (l : list A) : subsequence l l.
Proof. induction l; constructor; assumption. Qed.

Lemma subsequence_length {A : Type} (l l' : list A) : subsequence l l' -> length l <= length l'.
Proof. induction 1; simpl; lia. Qed.

(** An attempt that is made sends a request. *)
Lemma attempts_requests (retries : nat) (href : jsstring) (remaining : nat) :
  forall attempt log,
    0 < remaining ->
    requests log < requests (snd (attempts env_BASE_URL axios_get remaining attempt retries
                                           href log)).
Proof.
  induction remaining as [|remaining IH]; intros attempt log Hpos; [lia|].
  cbn [attempts].
  destruct (axios_get (requests log) _) as [data|message].
  - cbn [snd]. rewrite requests_app. cbn. lia.
  - destruct (attempt =? retries).
    + cbn [snd]. rewrite requests_app. cbn. lia.
    + destruct remaining as [|remaining'].
      * cbn [attempts snd]. rewrite requests_app. cbn. lia.
      * specialize (IH (S attempt)
                       (log ++ [Requested (BASE_URL env_BASE_URL ++ href);
                                Waited (backoff attempt)])).
        assert (Hlt : 0 < S remaining') by lia. specialize (IH Hlt).
        rewrite requests_app in IH.
        change (requests [Requested (BASE_URL env_BASE_URL ++ href); Waited (backoff attempt)])
          with 1 in IH.
        lia.
Qed.

Lemma scrapePage_bounded_events (href : jsstring) (retries : nat) (log : list event) :
  exists events,
    snd (scrapePage env_BASE_URL axios_get href retries log) = log ++ events
    /\ requests events <= retries
    /\ Forall short events
    /\ (0 < retries ->
        fst (scrapePage env_BASE_URL axios_get href retries log)
        <> Throw (error (lit "Unreachable code reached in scrapePage for " ++ href)))
    /\ (forall data,
          fst (scrapePage env_BASE_URL axios_get href retries log) = Normal data ->
          exists n, axios_get n (BASE_URL env_BASE_URL ++ href) = inl data).
Proof.
  unfold scrapePage.
  destruct (attempts_bounded env_BASE_URL axios_get retries href retries 1 log)
    as (events & Es & Er & Ew & Eu & Ed).
  exists events. repeat split; try assumption.
  intros Hpos H. destruct (Eu H); lia.
Qed.

(** The loop of [scrapeAll] adds to the results pages among those it is
    given, in their order, each with a body the server returned for it,
    and sends no more than three requests for a page. *)
Lemma visit_spec (pages : list Parser.Page) : forall results log,
  exists kept events,
    visit env_BASE_URL axios_get pages results log = (results ++ kept, log ++ events)
    /\ subsequence (map href kept) (map Parser.href pages)
    /\ Forall (fun r => exists n, axios_get n (BASE_URL env_BASE_URL ++ href r) = inl (html r))
              kept
    /\ requests events <= 3 * length pages
    /\ length kept <= requests events
    /\ Forall short events.
Proof.
  induction pages as [|page rest IH]; intros results log.
  - exists [], []. cbn [visit map length]. rewrite !app_nil_r.
    repeat split; try constructor. 
  - cbn [visit].
    destruct (scrapePage_bounded_events (Parser.href page) 3 log)
      as (events & Es & Er & Ew & _ & Ed).
    destruct (scrapePage env_BASE_URL axios_get (Parser.href page) 3 log) as [[data|e|] log']
      eqn:S; cbn [fst snd] in Es, Ed; subst log'.
    + destruct (IH (results ++ [ {| href := Parser.href page; html := data |} ])
                  ((log ++ events) ++ [Waited 500]))
        as (kept & events' & Ev & Hs & Hb & Hr & Hk & Hw).
      exists ({| href := Parser.href page; html := data |} :: kept),
             (events ++ [Waited 500] ++ events').
      rewrite Ev. split; [now rewrite <- !app_assoc|]. split; [|split; [|split; [|split]]].
      * cbn [map href]. now constructor.
      * constructor; [cbn [href html]; now apply Ed|exact Hb].
      * rewrite !requests_app. cbn [length]. change (requests [Waited 500]) with 0. lia.
      * rewrite !requests_app. change (requests [Waited 500]) with 0. cbn [length].
        assert (Hone := attempts_requests 3 (Parser.href page) 3 1 log).
        fold (scrapePage env_BASE_URL axios_get (Parser.href page) 3 log) in Hone.
        rewrite S in Hone. cbn [snd] in Hone. rewrite requests_app in Hone. lia.
      * apply Forall_app. split; [exact Ew|]. constructor; [|exact Hw].
        cbn. lia.
    + destruct (IH results (log ++ events)) as (kept & events' & Ev & Hs & Hb & Hr & Hk & Hw).
      exists kept, (events ++ events'). rewrite Ev.
      split; [now rewrite <- app_assoc|]. split; [|split; [|split; [|split]]].
      * cbn [map]. now constructor.
      * exact Hb.
      * rewrite requests_app. cbn [length]. lia.
      * rewrite requests_app. lia.
      * apply Forall_app. now split.
    + destruct (IH results (log ++ events)) as (kept & events' & Ev & Hs & Hb & Hr & Hk & Hw).
      exists kept, (events ++ events'). rewrite Ev.
      split; [now rewrite <- app_assoc|]. split; [|split; [|split; [|split]]].
      * cbn [map]. now constructor.
      * exact Hb.
      * rewrite requests_app. cbn [length]. lia.
      * rewrite requests_app. lia.
      * apply Forall_app. now split.
Qed.

(** On a server that answers every request, every page is kept, with
    one request for each. *)
Lemma visit_reachable (pages : list Parser.Page) : forall results log,
  (forall n url, exists data, axios_get n url = inl data) ->
  exists kept events,
    visit env_BASE_URL axios_get pages results log = (results ++ kept, log ++ events)
    /\ map href kept = map Parser.href pages
    /\ requests events = length pages.
Proof.
  intros results log Hok. revert results log.
  induction pages as [|page rest IH]; intros results log.
  - exists [], []. cbn [visit]. now rewrite !app_nil_r.
  - cbn [visit]. unfold scrapePage. cbn [attempts].
    destruct (Hok (requests log) (BASE_URL env_BASE_URL ++ Parser.href page)) as [data ->].
    destruct (IH (results ++ [ {| href := Parser.href page; html := data |} ])
                ((log ++ [Requested (BASE_URL env_BASE_URL ++ Parser.href page)])
                 ++ [Waited 500]))
      as (kept & events & Ev & Hh & Hr).
    exists ({| href := Parser.href page; html := data |} :: kept),
           ([Requested (BASE_URL env_BASE_URL ++ Parser.href page)] ++ [Waited 500] ++ events).
    rewrite Ev. split; [now rewrite <- !app_assoc|]. split.
    + cbn [map href]. now rewrite Hh.
    + rewrite !requests_app. cbn [length]. rewrite Hr. reflexivity.
Qed.

(** On a server that fails every request, no page is kept, after three
    requests for each. *)
Lemma visit_unreachable (pages : list Parser.Page) : forall results log,
  (forall n url, exists message, axios_get n url = inr message) ->
  exists events,
    visit env_BASE_URL axios_get pages results log = (results, log ++ events)
    /\ requests events = 3 * length pages.
Proof.
  intros results log Hko. revert results log.
  induction pages as [|page rest IH]; intros results log.
  - exists []. cbn [visit]. now rewrite app_nil_r.
  - cbn [visit].
    destruct (attempts_fail env_BASE_URL axios_get 3 (Parser.href page) 3 1 log)
      as (message & _ & Ea); try lia.
    { intros i _. apply Hko. }
    unfold scrapePage. rewrite Ea.
    destruct (IH results
                (log ++ failures (BASE_URL env_BASE_URL ++ Parser.href page) 1 (3 - 1)
                 ++ [Requested (BASE_URL env_BASE_URL ++ Parser.href page)]))
      as (events & Ev & Hr).
    exists ((failures (BASE_URL env_BASE_URL ++ Parser.href page) 1 (3 - 1)
             ++ [Requested (BASE_URL env_BASE_URL ++ Parser.href page)]) ++ events).
    rewrite Ev. split; [now rewrite <- !app_assoc|].
    rewrite !requests_app, requests_failures, Hr. cbn [length]. cbn. lia.
Qed.

End ScrapeAllLemmas.

Section ScraperTheorems.
Import Js Scraper RetrySpec.

Variable env_BASE_URL : option jsstring.
Variable axios_get : nat -> jsstring -> jsstring + jsstring.

(** X25.  [scrapePage] returns the first answer the server gives within
    [retries] attempts, having waited after each failure; when every
    attempt fails it throws an error with the message of the last
    failure, after [retries] requests; and with no attempt allowed it
    throws without sending any request.  Whatever the server does, it
    sends no more than [retries] requests, waits no more than ten
    seconds at a time, and returns nothing but a body the server sent
    for the page. *)
Theorem scrapePage_outcome (href : jsstring) (retries : nat) (log : list event) :
  (forall j data,
     j < retries ->
     (forall i, i < j ->
        exists message, axios_get (requests log + i) (BASE_URL env_BASE_URL ++ href)
                        = inr message) ->
     axios_get (requests log + j) (BASE_URL env_BASE_URL ++ href) = inl data ->
     scrapePage env_BASE_URL axios_get href retries log
     = (Normal data,
        log ++ failures (BASE_URL env_BASE_URL ++ href) 1 j
        ++ [Requested (BASE_URL env_BASE_URL ++ href)]))
  /\ (0 < retries ->
      (forall i, i < retries ->
         exists message, axios_get (requests log + i) (BASE_URL env_BASE_URL ++ href)
                         = inr message) ->
      exists message,
        axios_get (requests log + (retries - 1)) (BASE_URL env_BASE_URL ++ href) = inr message
        /\ scrapePage env_BASE_URL axios_get href retries log
           = (Throw (error (lit "Failed to scrape " ++ href ++ lit " after " ++ decimal retries
                            ++ lit " attempts: " ++ message)),
              log ++ failures (BASE_URL env_BASE_URL ++ href) 1 (retries - 1)
              ++ [Requested (BASE_URL env_BASE_URL ++ href)]))
  /\ (retries = 0 ->
      scrapePage env_BASE_URL axios_get href retries log
      = (Throw (error (lit "Unreachable code reached in scrapePage for " ++ href)), log))
  /\ (exists events,
        snd (scrapePage env_BASE_URL axios_get href retries log) = log ++ events
        /\ requests events <= retries
        /\ Forall short events
        /\ (forall data,
              fst (scrapePage env_BASE_URL axios_get href retries log) = Normal data ->
              exists n, axios_get n (BASE_URL env_BASE_URL ++ href) = inl data)).
Proof.
  split; [|split; [|split]].
  - intros j data Hj Hfail Hok. unfold scrapePage.
    apply attempts_succeed; try assumption. lia.
  - intros Hpos Hfail. unfold scrapePage. apply attempts_fail; try assumption. lia.
  - intros ->. reflexivity.
  - destruct (scrapePage_bounded_events env_BASE_URL axios_get href retries log)
      as (events & Es & Er & Ew & _ & Ed).
    now exists events.
Qed.

(** X26.  [scrapeAll] goes on after a page that fails.  Its results are pages
    of [PAGES], in the order of [PAGES], each with a body the server
    sent for it; it sends no more than three requests for a page.  When
    the server answers every request all the pages are returned after
    one request each, and when it fails every request none is, after
    three requests each. *)
Theorem scrapeAll_pages (PAGES : list Parser.Page) (log : list event) :
  (exists events,
     snd (scrapeAll env_BASE_URL axios_get PAGES log) = log ++ events
     /\ requests events <= 3 * length PAGES
     /\ length (fst (scrapeAll env_BASE_URL axios_get PAGES log)) <= requests events
     /\ Forall short events)
  /\ subsequence (map href (fst (scrapeAll env_BASE_URL axios_get PAGES log)))
                 (map Parser.href PAGES)
  /\ Forall (fun r => exists n, axios_get n (BASE_URL env_BASE_URL ++ href r) = inl (html r))
            (fst (scrapeAll env_BASE_URL axios_get PAGES log))
  /\ ((forall n url, exists data, axios_get n url = inl data) ->
      map href (fst (scrapeAll env_BASE_URL axios_get PAGES log)) = map Parser.href PAGES
      /\ requests (snd (scrapeAll env_BASE_URL axios_get PAGES log))
         = requests log + length PAGES)
  /\ ((forall n url, exists message, axios_get n url = inr message) ->
      fst (scrapeAll env_BASE_URL axios_get PAGES log) = []
      /\ requests (snd (scrapeAll env_BASE_URL axios_get PAGES log))
         = requests log + 3 * length PAGES).
Proof.
  unfold scrapeAll.
  destruct (visit_spec env_BASE_URL axios_get PAGES [] log)
    as (kept & events & Ev & Hs & Hb & Hr & Hk & Hw).
  split; [|split; [|split; [|split]]].
  - exists events. rewrite Ev. cbn [fst snd app]. now repeat split.
  - now rewrite Ev.
  - now rewrite Ev.
  - intros Hok.
    destruct (visit_reachable env_BASE_URL axios_get PAGES [] log Hok)
      as (kept' & events' & Ev' & Hh & Hr').
    rewrite Ev'. cbn [fst snd app]. split; [exact Hh|]. rewrite requests_app. lia.
  - intros Hko.
    destruct (visit_unreachable env_BASE_URL axios_get PAGES [] log Hko)
      as (events' & Ev' & Hr').
    rewrite Ev'. cbn [fst snd]. split; [reflexivity|]. rewrite requests_app. lia.
Qed.

End ScraperTheorems.

Section ScraperExamples.
Import Js Scraper RetrySpec TextSpec.

(** A page that answers at the third attempt costs three requests and
    two waits, of one and two seconds; a page that never answers makes
    [scrapePage] throw after three requests. *)
Example scrapePage_third_time :
  scrapePage None third_time (lit "Propagator.html") 3 []
  = (Normal (lit "<html></html>"),
     [ Requested (lit "https://documentation.help/gmat/Propagator.html"); Waited 1000;
       Requested (lit "https://documentation.help/gmat/Propagator.html"); Waited 2000;
       Requested (lit "https://documentation.help/gmat/Propagator.html") ])
  /\ fst (scrapePage None unreachable (lit "Propagator.html") 3 [])
     = Throw (Error ("Failed to scrape Propagator.html after 3 attempts: "
                     ++ "getaddrinfo ENOTFOUND"))
  /\ requests (snd (scrapePage None unreachable (lit "Propagator.html") 3 [])) = 3
  /\ scrapePage None reachable (lit "Propagator.html") 0 []
     = (Throw (Error "Unreachable code reached in scrapePage for Propagator.html"), []).
Proof. repeat split; vm_compute; reflexivity. Qed.

Example scrapeAll_pages2 :
  map (fun r => string_of_list_ascii (href r)) (fst (scrapeAll None third_time pages2 []))
  = ["Propagator.html"; "Untitled.html"]%string
  /\ requests (snd (scrapeAll None third_time pages2 [])) = 4
  /\ fst (scrapeAll None unreachable pages2 []) = [].
Proof. repeat split; vm_compute; reflexivity. Qed.

End ScraperExamples.


(** ** The retries of [embedBatch] *)

Section EmbedBatchLemmas.
Import Js Embedder EmbedBatch RetrySpec.

Variable create : nat -> list jsstring -> list (list float) + jsstring.

Lemma calls_app (l l' : list event) : calls (l ++ l') = calls l + calls l'.
Proof. unfold calls. now rewrite filter_app, length_app. Qed.

Lemma calls_refusals (texts : list jsstring) (j : nat) :
  forall attempt, calls (refusals texts attempt j) = j.
Proof.
  induction j as [|j IH]; intros attempt; [reflexivity|].
  cbn [refusals]. change (calls (?a :: ?b :: ?l)) with (calls ([a; b] ++ l)).
  rewrite calls_app, IH. reflexivity.
Qed.

Lemma calls_step (texts : list jsstring) (attempt : nat) (log : list event) :
  calls (log ++ [Called texts; Waited (baseDelay attempt)]) = S (calls log).
Proof. rewrite calls_app. cbn. lia. Qed.

(** The recursion of the source: a failed call at an attempt of number
    [MAX_RETRIES] or more throws, one before it waits and calls
    [embedBatch] with the next number. *)
Lemma embedBatch_unfold (texts : list jsstring) (attempt : nat) (log : list event) :
  embedBatch create texts attempt log
  = match create (calls log) texts with
    | inl embeddings => (Normal embeddings, log ++ [Called texts])
    | inr errorMessage =>
        if MAX_RETRIES <=? attempt then
          (Throw (error (lit "Failed to generate embeddings after " ++ decimal MAX_RETRIES
                         ++ lit " attempts: " ++ errorMessage)),
           log ++ [Called texts])
        else
          embedBatch create texts (S attempt) (log ++ [Called texts; Waited (baseDelay attempt)])
    end.
Proof.
  unfold embedBatch.
  destruct (MAX_RETRIES <=? attempt) eqn:E.
  - apply Nat.leb_le in E. replace (MAX_RETRIES - attempt) with 0 by lia. reflexivity.
  - apply Nat.leb_gt in E. replace (MAX_RETRIES - attempt) with (S (MAX_RETRIES - S attempt))
      by lia.
    reflexivity.
Qed.

Lemma retry_succeed (texts : list jsstring) (embeddings : list (list float)) (j : nat) :
  forall left attempt log,
    j <= left ->
    (forall i, i < j -> exists message, create (calls log + i) texts = inr message) ->
    create (calls log + j) texts = inl embeddings ->
    retry create left texts attempt log
    = (Normal embeddings, log ++ refusals texts attempt j ++ [Called texts]).
Proof.
  induction j as [|j IH]; intros left attempt log Hj Hfail Hok.
  - rewrite Nat.add_0_r in Hok. destruct left; cbn [retry refusals app]; now rewrite Hok.
  - destruct left as [|left]; [lia|]. cbn [retry].
    destruct (Hfail 0) as [message E]; [lia|]. rewrite Nat.add_0_r in E. rewrite E.
    rewrite (IH left (S attempt) (log ++ [Called texts; Waited (baseDelay attempt)])).
    + cbn [refusals]. now rewrite <- app_assoc.
    + lia.
    + intros i Hi. rewrite calls_step. destruct (Hfail (S i)) as [m Em]; [lia|].
      exists m. rewrite <- Em. f_equal. lia.
    + rewrite calls_step. rewrite <- Hok. f_equal. lia.
Qed.

Lemma retry_fail (texts : list jsstring) (left : nat) :
  forall attempt log,
    (forall i, i <= left -> exists message, create (calls log + i) texts = inr message) ->
    exists message,
      create (calls log + left) texts = inr message
      /\ retry create left texts attempt log
         = (Throw (error (lit "Failed to generate embeddings after " ++ decimal MAX_RETRIES
                          ++ lit " attempts: " ++ message)),
            log ++ refusals texts attempt left ++ [Called texts]).
Proof.
  induction left as [|left IH]; intros attempt log Hfail.
  - destruct (Hfail 0) as [message E]; [lia|]. exists message. split; [exact E|].
    rewrite Nat.add_0_r in E. cbn [retry refusals app]. now rewrite E.
  - destruct (Hfail 0) as [m0 E0]; [lia|]. rewrite Nat.add_0_r in E0.
    destruct (IH (S attempt) (log ++ [Called texts; Waited (baseDelay attempt)]))
      as (message & Em & Er).
    { intros i Hi. rewrite calls_step. destruct (Hfail (S i)) as [m Em]; [lia|].
      exists m. rewrite <- Em. f_equal. lia. }
    exists message. split.
    + rewrite <- Em, calls_step. f_equal. lia.
    + cbn [retry]. rewrite E0, Er. cbn [refusals]. now rewrite <- app_assoc.
Qed.

Lemma retry_bounded (texts : list jsstring) (left : nat) :
  forall attempt log,
    exists events,
      snd (retry create left texts attempt log) = log ++ events
      /\ 1 <= calls events <= S left
      /\ (forall embeddings,
            fst (retry create left texts attempt log) = Normal embeddings ->
            exists n, create n texts = inl embeddings)
      /\ fst (retry create left texts attempt log) <> Unmodelled.
Proof.
  induction left as [|left IH]; intros attempt log.
  - cbn [retry]. destruct (create (calls log) texts) as [e|m] eqn:E;
      exists [Called texts]; cbn [fst snd]; (split; [reflexivity|]);
      (split; [cbn; lia|]); (split; [|discriminate]).
    + intros e' [= <-]. now exists (calls log).
    + discriminate.
  - cbn [retry]. destruct (create (calls log) texts) as [e|m] eqn:E.
    + exists [Called texts]. cbn [fst snd]. split; [reflexivity|]. split; [cbn; lia|].
      split; [|discriminate]. intros e' [= <-]. now exists (calls log).
    + destruct (IH (S attempt) (log ++ [Called texts; Waited (baseDelay attempt)]))
        as (events & Es & Ec & Ed & Eu).
      exists ([Called texts; Waited (baseDelay attempt)] ++ events).
      rewrite Es, <- app_assoc. split; [reflexivity|]. split; [|split; assumption].
      rewrite calls_app. change (calls [Called texts; Waited (baseDelay attempt)]) with 1. lia.
Qed.

(** The delays of the attempts one and two. *)
Lemma refusals_first (texts : list jsstring) (j : nat) :
  j <= 2 ->
  refusals texts 1 j
  = firstn (2 * j) [Called texts; Waited 1000; Called texts; Waited 2000].
Proof.
  intros Hj. destruct j as [|[|[|j]]]; try lia; reflexivity.
Qed.

End EmbedBatchLemmas.

Section EmbedBatchTheorems.
Import Js Embedder EmbedBatch RetrySpec.

Variable create : nat -> list jsstring -> list (list float) + jsstring.

(** X27.  [embedBatch] called without an attempt number calls the API at
    most three times.  It returns the embeddings of the first call that
    succeeds, having waited one second (and what is random) after the
    first failure and two seconds after the second: the limit of ten
    seconds is never reached.  When the three calls fail it throws an
    error with the message of the third failure. *)
Theorem embedBatch_outcome (texts : list jsstring) (log : list event) :
  (forall j embeddings,
     j < 3 ->
     (forall i, i < j -> exists message, create (calls log + i) texts = inr message) ->
     create (calls log + j) texts = inl embeddings ->
     embedBatch create texts 1 log
     = (Normal embeddings,
        log ++ firstn (2 * j) [Called texts; Waited 1000; Called texts; Waited 2000]
        ++ [Called texts]))
  /\ ((forall i, i < 3 -> exists message, create (calls log + i) texts = inr message) ->
      exists message,
        create (calls log + 2) texts = inr message
        /\ embedBatch create texts 1 log
           = (Throw (error (lit "Failed to generate embeddings after 3 attempts: " ++ message)),
              log ++ [Called texts; Waited 1000; Called texts; Waited 2000; Called texts])).
Proof.
  split.
  - intros j embeddings Hj Hfail Hok. unfold embedBatch.
    rewrite (retry_succeed create texts embeddings j); try assumption.
    + rewrite refusals_first by lia. reflexivity.
    + unfold MAX_RETRIES. lia.
  - intros Hfail. unfold embedBatch.
    destruct (retry_fail create texts (MAX_RETRIES - 1) 1 log) as (message & Em & Er).
    { intros i Hi. apply Hfail. unfold MAX_RETRIES in Hi. lia. }
    exists message. split; [exact Em|]. rewrite Er. reflexivity.
Qed.

(** X28.  Whatever the API does and whatever the attempt number,
    [embedBatch] calls the API at least once and no more than
    [MAX_RETRIES + 1 - attempt] times when that is more than one; it
    returns nothing but embeddings the API returned for these texts; and
    at an attempt number of [MAX_RETRIES] or more a failure is not
    retried. *)
Theorem embedBatch_bounded (texts : list jsstring) (attempt : nat) (log : list event) :
  (exists events,
     snd (embedBatch create texts attempt log) = log ++ events
     /\ 1 <= calls events <= Nat.max 1 (MAX_RETRIES + 1 - attempt))
  /\ (forall embeddings,
        fst (embedBatch create texts attempt log) = Normal embeddings ->
        exists n, create n texts = inl embeddings)
  /\ (MAX_RETRIES <= attempt ->
      snd (embedBatch create texts attempt log) = log ++ [Called texts]).
Proof.
  unfold embedBatch.
  destruct (retry_bounded create texts (MAX_RETRIES - attempt) attempt log)
    as (events & Es & Ec & Ed & _).
  split; [|split].
  - exists events. split; [exact Es|]. lia.
  - exact Ed.
  - intros Hge. replace (MAX_RETRIES - attempt) with 0 by lia. cbn [retry].
    now destruct (create (calls log) texts).
Qed.

End EmbedBatchTheorems.

Section EmbedBatchExamples.
Import Js Embedder EmbedBatch RetrySpec.

Example embedBatch_second_time :
  embedBatch second_time [lit "a"; lit "b"] 1 []
  = (Normal [[1%float]; [1%float]],
     [Called [lit "a"; lit "b"]; Waited 1000; Called [lit "a"; lit "b"]])
  /\ embedBatch overloaded [lit "a"] 1 []
     = (Throw (Error "Failed to generate embeddings after 3 attempts: 429 Too Many Requests"),
        [Called [lit "a"]; Waited 1000; Called [lit "a"]; Waited 2000; Called [lit "a"]]).
Proof. split; vm_compute; reflexivity. Qed.

End EmbedBatchExamples.


(** ** The setup command and the cache *)

Section SetupLemmas.
Import Js Cache Setup SetupSpec.

Lemma getCacheInfo_exists_file (env : Process) (bytes : nat) (fs : FileSystem) :
  exists_ (getCacheInfo env bytes fs)
  = match fs (getCachePath env) with Some _ => true | None => false end.
Proof. unfold getCacheInfo. now destruct (fs (getCachePath env)). Qed.

Lemma logged_timestamp (b : bool) (v : value) :
  primitive v = true ->
  (if b && truthy v then interpolate v else Normal tt) = Normal tt.
Proof. intros P. unfold interpolate. rewrite P. now destruct (b && truthy v). Qed.

End SetupLemmas.

Section SetupTheorems.
Import Js Cache Setup SetupSpec.

Lemma main_force_files (argv : list jsstring) (OPENAI_API_KEY : option jsstring)
  (env : Process) (bytes : nat) (fs : FileSystem) :
  includes (skipn 2 argv) (lit "--force") = true ->
  primitive (timestamp (getCacheInfo env bytes fs)) = true ->
  main argv OPENAI_API_KEY env bytes fs
  = (Normal (match OPENAI_API_KEY with
             | Some (c :: apiKey) => Regenerating (c :: apiKey)
             | Some [] | None => Exit 1
             end),
     clearCache env fs).
Proof.
  intros Hforce Hprint.
  unfold main. rewrite Hforce, (logged_timestamp _ _ Hprint), getCacheInfo_exists_file.
  assert (C : (if match fs (getCachePath env) with Some _ => true | None => false end
               then clearCache env fs else fs) = clearCache env fs).
  { unfold clearCache. now destruct (fs (getCachePath env)). }
  cbn [negb]. rewrite Bool.andb_false_r. cbn [andb]. rewrite C.
  now destruct OPENAI_API_KEY as [[|c apiKey]|].
Qed.

(** X29.  With [--force], [main] deletes the cache file before it looks at
    the API key: when the key is missing or empty the process exits
    with code 1 and the cache that was there is gone, at the cache path
    and at every path that denotes the same file.  Every path that
    denotes another file shows what it showed. *)
Theorem setup_force_clears (argv : list jsstring) (OPENAI_API_KEY : option jsstring)
  (env : Process) (bytes : nat) (fs : FileSystem) :
  includes (skipn 2 argv) (lit "--force") = true ->
  primitive (timestamp (getCacheInfo env bytes fs)) = true ->
  snd (main argv OPENAI_API_KEY env bytes fs) (getCachePath env) = None
  /\ (fs (getCachePath env) <> None ->
      forall p, same_file (cwd env) p (getCachePath env) = true ->
                snd (main argv OPENAI_API_KEY env bytes fs) p = None)
  /\ (forall p, same_file (cwd env) p (getCachePath env) = false ->
                snd (main argv OPENAI_API_KEY env bytes fs) p = fs p)
  /\ fst (main argv OPENAI_API_KEY env bytes fs)
     = Normal (match OPENAI_API_KEY with
               | Some (c :: apiKey) => Regenerating (c :: apiKey)
               | Some [] | None => Exit 1
               end).
Proof.
  intros Hforce Hprint. rewrite (main_force_files _ _ _ _ _ Hforce Hprint). cbn [fst snd].
  split; [apply clearCache_file|]. split; [|split; [|reflexivity]].
  - intros Hfile p Hp. unfold clearCache.
    destruct (fs (getCachePath env)); [|congruence]. unfold unlinkSync. now rewrite Hp.
  - intros p Hp. now apply clearCache_others.
Qed.

Lemma setup_force_clears_witness :
  with_cache (getCachePath ValidationSpec.env_dot) <> None
  /\ snd (main forced None ValidationSpec.env_dot 1024 with_cache)
         (getCachePath ValidationSpec.env_dot) = None
  /\ (with_cache (getCachePath ValidationSpec.env_dot) <> None ->
      forall p, same_file (cwd ValidationSpec.env_dot) p (getCachePath ValidationSpec.env_dot)
                = true ->
                snd (main forced None ValidationSpec.env_dot 1024 with_cache) p = None)
  /\ (forall p, same_file (cwd ValidationSpec.env_dot) p (getCachePath ValidationSpec.env_dot)
                = false ->
                snd (main forced None ValidationSpec.env_dot 1024 with_cache) p = with_cache p)
  /\ fst (main forced None ValidationSpec.env_dot 1024 with_cache) = Normal (Exit 1).
Proof.
  split; [discriminate|].
  apply (setup_force_clears forced None ValidationSpec.env_dot 1024 with_cache).
  - reflexivity.
  - reflexivity.
Defined.

(** With [CACHE_DIR] at [./data] the file that [--force] removes is
    [data/embeddings.json], however the path to it is written; the file
    beside it stays. *)
Example setup_force_dot_data :
  getCachePath ValidationSpec.env_dot = "data/embeddings.json"%string
  /\ map (fun p => match snd (main forced None ValidationSpec.env_dot 1024 with_cache) p with
                   | Some _ => true
                   | None => false
                   end)
         ["data/embeddings.json"; "./data/embeddings.json"; "/srv/app/data/embeddings.json";
          "data/notes.txt"]%string
     = [false; false; false; true]
  /\ map (fun p => match with_cache p with Some _ => true | None => false end)
         ["data/embeddings.json"; "./data/embeddings.json"; "/srv/app/data/embeddings.json";
          "data/notes.txt"]%string
     = [true; true; true; true].
Proof. repeat split; vm_compute; reflexivity. Qed.

(** X30.  Without [--force], [main] changes no file before the regeneration.
    It returns at once exactly when [loadCache] accepts the cache, with
    or without an API key; otherwise, the cache file being absent or
    invalid, it goes on to the API key, and an invalid cache file is
    left in place. *)
Theorem setup_keeps_cache (argv : list jsstring) (OPENAI_API_KEY : option jsstring)
  (env : Process) (bytes : nat) (fs : FileSystem) :
  includes (skipn 2 argv) (lit "--force") = false ->
  primitive (timestamp (getCacheInfo env bytes fs)) = true ->
  snd (main argv OPENAI_API_KEY env bytes fs) = fs
  /\ (fst (main argv OPENAI_API_KEY env bytes fs) = Normal Returned
      <-> loadCache env fs <> None)
  /\ (loadCache env fs = None ->
      fst (main argv OPENAI_API_KEY env bytes fs)
      = Normal (match OPENAI_API_KEY with
                | Some (c :: apiKey) => Regenerating (c :: apiKey)
                | Some [] | None => Exit 1
                end)).
Proof.
  intros Hforce Hprint.
  unfold main. rewrite Hforce, (logged_timestamp _ _ Hprint), getCacheInfo_exists_file.
  cbn [andb negb].
  assert (L : (if match fs (getCachePath env) with Some _ => true | None => false end
               then loadCache env fs else None) = loadCache env fs).
  { unfold loadCache. now destruct (fs (getCachePath env)). }
  rewrite Bool.andb_true_r, L.
  destruct (loadCache env fs) as [cs|].
  - cbn [fst snd]. split; [reflexivity|]. split; [|discriminate].
    split; [discriminate|reflexivity].
  - destruct OPENAI_API_KEY as [[|c apiKey]|]; cbn [fst snd];
      (split; [reflexivity|]); (split; [|reflexivity]);
      (split; [discriminate|intros H; now contradiction H]).
Qed.

Lemma setup_keeps_cache_witness :
  snd (main plain None CacheSpec.env0 1024 with_cache) = with_cache
  /\ (fst (main plain None CacheSpec.env0 1024 with_cache) = Normal Returned
      <-> loadCache CacheSpec.env0 with_cache <> None)
  /\ (loadCache CacheSpec.env0 with_cache = None ->
      fst (main plain None CacheSpec.env0 1024 with_cache) = Normal (Exit 1)).
Proof.
  apply (setup_keeps_cache plain None CacheSpec.env0 1024 with_cache).
  - reflexivity.
  - reflexivity.
Defined.

(** The same cache and no API key: without [--force] the setup returns
    and the cache is there, with [--force] the process exits and the
    cache is gone; an invalid cache is regenerated when there is a
    key. *)
Example setup_with_cache :
  fst (main plain None CacheSpec.env0 1024 with_cache) = Normal Returned
  /\ fst (main forced None CacheSpec.env0 1024 with_cache) = Normal (Exit 1)
  /\ loadCache CacheSpec.env0 (snd (main forced None CacheSpec.env0 1024 with_cache)) = None
  /\ fst (main plain (Some (lit "sk-1")) CacheSpec.env0 1024 CacheSpec.invalid_chunk_cache)
     = Normal (Regenerating (lit "sk-1")).
Proof. repeat split; vm_compute; reflexivity. Qed.

End SetupTheorems.
